(** * Zero-base SDD: requirement-to-design knowledge graph and the
      chat-based model modifier

    The development follows the repository:
    - the graph schema (node labels and relationship types) of
      [spec/spec-v1.md], the v1.1 test data set and the dirty-flag
      statements of the Cypher scripts;
    - the phase branching function [determine_phase_sequence] of the
      v1.2 development checklist;
    - the v1.1 test data script, statement by statement, with the
      semantics of [MERGE], [SET], [ON CREATE SET], [ON MATCH SET] and
      [REMOVE] it relies on;
    - the Pinia stores of the front end: [modelModifier] ([sendMessage],
      [processModificationRequest] with its read loop,
      [upsertReactStep], [handleStreamEvent],
      [updateLastAssistantMessage], [retryLast]) and [navigator] (the
      fetches, [addUserStory], [addContext], [assignUserStoryToBC],
      [markAsNew], [addAggregate], [addCommand], [addEvent],
      [addPolicy], [refreshAll], [toggleExpanded], [expandAll]);
    - the logger of the front end ([resolveMinLevel], [shouldLog],
      [safeJson], [kvString], [toConsoleFn], [emit]);
    - the handler of the application shell that refreshes the
      navigator after a user story was saved.

    The Python engine ([impact.py], [upsert.py], [change_detection.py],
    [batch.py]) is not part of the sources at hand; where a property is
    about it, the operation is modelled from the specification and the
    definition says so. *)

From stdpp Require Import gmap strings list fin_maps sorting.
From Stdlib Require Import NArith.

Open Scope string_scope.
Open Scope list_scope.
Open Scope nat_scope.

(** ** Graph schema ([spec/spec-v1.md], sections 1 and 2) *)

Inductive Kind :=
  | Epic | UserStory | AcceptanceCriterion
  | BoundedContext | Aggregate | Entity | ValueObject | Field
  | Command | Event | Policy.

Inductive Rel :=
  | HAS_STORY | HAS_CRITERION
  | HAS_AGGREGATE | HAS_ENTITY | HAS_VALUE_OBJECT | HAS_FIELD
  | REFERS_TO_AGGREGATE | REFERS_TO_FIELD
  | HANDLES_COMMAND | EMITS_EVENT | LISTENS_EVENT | TRIGGERS_COMMAND
  | AFFECTS_AGGREGATE
  | IMPACTS_AGGREGATE | IMPACTS_FIELD | COVERS_COMMAND | COVERS_EVENT.

#[global] Instance Kind_eq_dec : EqDecision Kind.
Proof. solve_decision. Defined.

#[global] Instance Rel_eq_dec : EqDecision Rel.
Proof. solve_decision. Defined.

Definition all_kinds : list Kind :=
  [Epic; UserStory; AcceptanceCriterion;
   BoundedContext; Aggregate; Entity; ValueObject; Field;
   Command; Event; Policy].

Record Edge := mkEdge { src : string; rel : Rel; dst : string }.

#[global] Instance Edge_eq_dec : EqDecision Edge.
Proof. solve_decision. Defined.

Record Graph := mkGraph {
  nodes : list (string * Kind);
  edges : list Edge
}.

Fixpoint kind_of_in (ns : list (string * Kind)) (id : string) : option Kind :=
  match ns with
  | [] => None
  | (i, k) :: ns' => if bool_decide (i = id) then Some k else kind_of_in ns' id
  end.

Definition kind_of (g : Graph) (id : string) : option Kind :=
  kind_of_in (nodes g) id.

(** Identifiers are listed in ascending string order. *)
Definition id_le (a b : string) : Prop := String.leb a b = true.

#[global] Instance id_le_dec a b : Decision (id_le a b).
Proof. unfold id_le. apply _. Defined.

Definition sort_ids (l : list string) : list string := merge_sort id_le l.

(** ** Impact Analyzer *)

Module Impact.

(** The three relationship classes the traversal follows, the [affects]
    leg, and the static references it leaves alone. *)
Inductive RelClass := Containment | Trace | EventChain | Affects | Reference.

Definition rel_class (r : Rel) : RelClass :=
  match r with
  | HAS_STORY | HAS_CRITERION
  | HAS_AGGREGATE | HAS_ENTITY | HAS_VALUE_OBJECT | HAS_FIELD => Containment
  | IMPACTS_AGGREGATE | IMPACTS_FIELD | COVERS_COMMAND | COVERS_EVENT => Trace
  | HANDLES_COMMAND | EMITS_EVENT | LISTENS_EVENT | TRIGGERS_COMMAND => EventChain
  | AFFECTS_AGGREGATE => Affects
  | REFERS_TO_AGGREGATE | REFERS_TO_FIELD => Reference
  end.

(** One hop out of node [n] along edge [e].  The event chain reads
    Aggregate -handles-> Command -emits-> Event -listened by-> Policy
    -triggers-> Command; the stored edge is (Policy)-[:LISTENS_EVENT]->(Event),
    so that leg is walked from its target to its source. *)
Definition hop (n : string) (e : Edge) : option string :=
  match rel_class (rel e) with
  | Containment | Trace => if bool_decide (src e = n) then Some (dst e) else None
  | EventChain =>
      match rel e with
      | LISTENS_EVENT => if bool_decide (dst e = n) then Some (src e) else None
      | _ => if bool_decide (src e = n) then Some (dst e) else None
      end
  | Affects | Reference => None
  end.

Definition neighbours (g : Graph) (n : string) : list string :=
  omap (hop n) (edges g).

Definition affects_edge (n : string) (e : Edge) : option string :=
  match rel e with
  | AFFECTS_AGGREGATE => if bool_decide (src e = n) then Some (dst e) else None
  | _ => None
  end.

Definition affects (g : Graph) (n : string) : list string :=
  omap (affects_edge n) (edges g).

Record BfsState := mkBfs {
  queue : list (string * nat);
  visited : list string;
  found : list string;
  affected : list string
}.

Definition note_affected (acc : list string) (a : string) : list string :=
  if bool_decide (a ∈ acc) then acc else acc ++ [a].

Definition discover (d : nat) (st : BfsState) (m : string) : BfsState :=
  if bool_decide (m ∈ visited st) then st
  else {| queue := queue st ++ [(m, S d)];
          visited := visited st ++ [m];
          found := found st ++ [m];
          affected := affected st |}.

(** One iteration of the traversal loop on a non-empty queue: the head
    [(n, d)] is taken off, the targets of its [affects] edges are noted
    whatever [d] is, and its neighbours are discovered only while
    [d < maxHops]. *)
Definition visit (g : Graph) (maxHops : nat) (n : string) (d : nat)
    (q : list (string * nat)) (st : BfsState) : BfsState :=
  let st1 := {| queue := q;
                visited := visited st;
                found := found st;
                affected := foldl note_affected (affected st) (affects g n) |} in
  if bool_decide (d < maxHops)
  then foldl (discover d) st1 (neighbours g n)
  else st1.

Fixpoint run (fuel : nat) (g : Graph) (maxHops : nat) (st : BfsState)
    : option BfsState :=
  match queue st with
  | [] => Some st
  | (n, d) :: q =>
      match fuel with
      | O => None
      | S fuel' => run fuel' g maxHops (visit g maxHops n d q st)
      end
  end.

Definition endpoints (g : Graph) : list string :=
  remove_dups (flat_map (λ e, [src e; dst e]) (edges g)).

Definition initial (rootIds : list string) : BfsState :=
  {| queue := (λ r, (r, O)) <$> rootIds;
     visited := remove_dups rootIds;
     found := [];
     affected := [] |}.

Record ImpactResult := mkImpact {
  impacted : list (Kind * list string);
  affected_aggregates : list string
}.

Definition of_kind (g : Graph) (k : Kind) (ids : list string) : list string :=
  filter (λ id, kind_of g id = Some k) ids.

Definition group (g : Graph) (st : BfsState) : ImpactResult :=
  {| impacted := (λ k, (k, sort_ids (of_kind g k (found st)))) <$> all_kinds;
     affected_aggregates := sort_ids (affected st) |}.

Definition impact_fuel (g : Graph) (rootIds : list string) : nat :=
  length rootIds + length (endpoints g).

(** Modelled from the spec: [findImpact] of the Impact Analyzer
    ([python/impact.py], absent from the sources at hand), section 4.4.
    A breadth-first traversal from the roots with a [visited] set of
    identifiers, following structural containment, trace and event-chain
    relationships up to [maxHops] hops; the target of an [affects] edge
    of a reached node goes to the separate [affected_aggregates] list
    whatever the hop budget; the output maps each node kind to the
    sorted list of the identifiers found, roots excluded.  [None] would
    mean that the loop budget ran out; the wall-clock budget of the
    analyzer ([ImpactTraversalTimeout]) is outside this model. *)
Definition findImpact (g : Graph) (rootIds : list string) (maxHops : nat)
    : option ImpactResult :=
  group g <$> run (impact_fuel g rootIds) g maxHops (initial rootIds).

Definition default_maxHops : nat := 3.

(** [hops g roots d n]: node [n] is [d] hops away from a root, along
    edges of the three classes. *)
Inductive hops (g : Graph) (roots : list string) : nat → string → Prop :=
  | hops_root r : r ∈ roots → hops g roots 0 r
  | hops_step d n m :
      hops g roots d n → m ∈ neighbours g n → hops g roots (S d) m.

(** The length of the queue plus the number of known identifiers not
    yet visited: what every iteration of the loop uses up. *)
Definition unvisited (universe seen : list string) : nat :=
  length (filter (λ u, u ∉ seen) universe).

Definition measure (g : Graph) (st : BfsState) : nat :=
  length (queue st) + unvisited (endpoints g) (visited st).

Definition impacted_of (r : ImpactResult) (k : Kind) : list string :=
  default [] (snd ∘ snd <$> list_find (λ p, fst p = k) (impacted r)).

(** What the loop keeps true. No identifier is found twice: *)

Record distinct (st : BfsState) : Prop := {
  distinct_found : NoDup (found st);
  distinct_seen : ∀ x, x ∈ found st → x ∈ visited st;
  distinct_affected : NoDup (affected st)
}.

(** everything found lies within the hop bound: *)

Record bounded (g : Graph) (roots : list string) (maxHops : nat)
    (st : BfsState) : Prop := {
  bounded_queue : ∀ n d, (n, d) ∈ queue st → d ≤ maxHops ∧ hops g roots d n;
  bounded_found : ∀ n, n ∈ found st → ∃ d, d ≤ maxHops ∧ hops g roots d n;
  bounded_affected : ∀ a, a ∈ affected st →
    ∃ e d, d ≤ maxHops ∧ hops g roots d e ∧ a ∈ affects g e
}.

(** every node reached is still queued or has had its [affects] edges
    followed. *)

Record followed (g : Graph) (roots : list string) (st : BfsState) : Prop := {
  followed_seen : ∀ x, x ∈ visited st ↔ x ∈ roots ∨ x ∈ found st;
  followed_legs : ∀ n, n ∈ visited st →
    (∃ d, (n, d) ∈ queue st) ∨ (∀ a, a ∈ affects g n → a ∈ affected st)
}.

(** The roots are visited from the start, so none of them is found. *)
Record apart (roots : list string) (st : BfsState) : Prop := {
  apart_roots : ∀ r, r ∈ roots → r ∈ visited st;
  apart_found : ∀ x, x ∈ found st → x ∉ roots
}.

(** The traversal goes level by level. [popped] lists the nodes taken off
    the queue so far, each with the depth it was queued at: the queue is
    in ascending depth, nothing is deeper than one level below its head,
    and the neighbours of every node in [popped] that was expanded are
    known, at most one level below it. *)
Definition by_depth (a b : string * nat) : Prop := a.2 ≤ b.2.

Record levelled (g : Graph) (roots : list string) (maxHops : nat)
    (popped : list (string * nat)) (st : BfsState) : Prop := {
  lv_seen : ∀ x, x ∈ visited st ↔ ∃ dx, (x, dx) ∈ popped ++ queue st;
  lv_roots : ∀ r, r ∈ roots → (r, 0) ∈ popped ++ queue st;
  lv_sorted : StronglySorted by_depth (queue st);
  lv_spread : ∀ h dh x dx,
    head (queue st) = Some (h, dh) → (x, dx) ∈ popped ++ queue st → dx ≤ S dh;
  lv_closed : ∀ n dn m,
    (n, dn) ∈ popped → dn < maxHops → m ∈ neighbours g n →
    ∃ dm, (m, dm) ∈ popped ++ queue st ∧ dm ≤ S dn
}.

(** The same while node [n], queued at depth [d], is being expanded. *)
Record expanding (g : Graph) (roots : list string) (maxHops : nat)
    (n : string) (d : nat) (popped : list (string * nat)) (st : BfsState) : Prop := {
  ex_seen : ∀ x, x ∈ visited st ↔ ∃ dx, (x, dx) ∈ (popped ++ [(n, d)]) ++ queue st;
  ex_roots : ∀ r, r ∈ roots → (r, 0) ∈ (popped ++ [(n, d)]) ++ queue st;
  ex_sorted : StronglySorted by_depth (queue st);
  ex_low : ∀ x dx, (x, dx) ∈ queue st → d ≤ dx;
  ex_high : ∀ x dx, (x, dx) ∈ (popped ++ [(n, d)]) ++ queue st → dx ≤ S d;
  ex_closed : ∀ n' dn m,
    (n', dn) ∈ popped → dn < maxHops → m ∈ neighbours g n' →
    ∃ dm, (m, dm) ∈ (popped ++ [(n, d)]) ++ queue st ∧ dm ≤ S dn
}.

End Impact.

(** ** The v1.1 test data set: the nodes and the relationships that
       the minimal test data script loads with its [MERGE] and
       [MATCH ... MERGE] statements
       ([ScriptTheorems.test_graph_is_what_the_script_loads] runs the
       script). Part B of [cypher/reset-and-load-test-data.cypher] is
       written for the same data, but its relationship statements use
       variables that no [MATCH] binds. *)

Module TestData.
Import Impact.

Definition test_nodes : list (string * Kind) :=
  [("EP_001", Epic); ("US_001", UserStory); ("AC_001", AcceptanceCriterion);
   ("BC_ORDER", BoundedContext); ("AGG_ORDER", Aggregate); ("AGG_STOCK", Aggregate);
   ("F_ORDER_AMOUNT", Field); ("F_ORDER_ID", Field);
   ("CMD_PLACE_ORDER", Command); ("EVT_ORDER_PLACED", Event);
   ("POL_RESERVE_STOCK", Policy); ("CMD_RESERVE_STOCK", Command)].

Definition test_edges : list Edge :=
  [mkEdge "EP_001" HAS_STORY "US_001";
   mkEdge "US_001" HAS_CRITERION "AC_001";
   mkEdge "BC_ORDER" HAS_AGGREGATE "AGG_ORDER";
   mkEdge "BC_ORDER" HAS_AGGREGATE "AGG_STOCK";
   mkEdge "AGG_ORDER" HAS_FIELD "F_ORDER_ID";
   mkEdge "AGG_ORDER" HAS_FIELD "F_ORDER_AMOUNT";
   mkEdge "US_001" IMPACTS_AGGREGATE "AGG_ORDER";
   mkEdge "AC_001" IMPACTS_FIELD "F_ORDER_AMOUNT";
   mkEdge "AGG_ORDER" HANDLES_COMMAND "CMD_PLACE_ORDER";
   mkEdge "CMD_PLACE_ORDER" EMITS_EVENT "EVT_ORDER_PLACED";
   mkEdge "POL_RESERVE_STOCK" LISTENS_EVENT "EVT_ORDER_PLACED";
   mkEdge "POL_RESERVE_STOCK" TRIGGERS_COMMAND "CMD_RESERVE_STOCK";
   mkEdge "EVT_ORDER_PLACED" AFFECTS_AGGREGATE "AGG_STOCK";
   mkEdge "AC_001" COVERS_COMMAND "CMD_PLACE_ORDER";
   mkEdge "AC_001" COVERS_EVENT "EVT_ORDER_PLACED"].

Definition test_graph : Graph := mkGraph test_nodes test_edges.

(** A synthetic event chain in which the Policy triggers a Command that
    emits the same Event again: a cycle of three hops,
    Event -> Policy -> Command -> Event, entered from a UserStory
    through an Aggregate. *)
Definition cyclic_graph : Graph :=
  {| nodes := [("US_X", UserStory); ("AGG_X", Aggregate); ("CMD_X", Command);
               ("EVT_X", Event); ("POL_X", Policy); ("CMD_Y", Command)];
     edges := [mkEdge "US_X" IMPACTS_AGGREGATE "AGG_X";
               mkEdge "AGG_X" HANDLES_COMMAND "CMD_X";
               mkEdge "CMD_X" EMITS_EVENT "EVT_X";
               mkEdge "POL_X" LISTENS_EVENT "EVT_X";
               mkEdge "POL_X" TRIGGERS_COMMAND "CMD_Y";
               mkEdge "CMD_Y" EMITS_EVENT "EVT_X";
               mkEdge "EVT_X" AFFECTS_AGGREGATE "AGG_X"] |}.

(** The answer to [findImpact(["US_001"])] as the specification gives it. *)
Definition expected_impact (r : ImpactResult) : Prop :=
  impacted_of r Aggregate = ["AGG_ORDER"]
  ∧ impacted_of r Field = ["F_ORDER_AMOUNT"]
  ∧ impacted_of r Command = ["CMD_PLACE_ORDER"; "CMD_RESERVE_STOCK"]
  ∧ impacted_of r Event = ["EVT_ORDER_PLACED"]
  ∧ impacted_of r Policy = ["POL_RESERVE_STOCK"]
  ∧ affected_aggregates r = ["AGG_STOCK"].

(** What the traversal returns within three hops of US_001. *)
Definition impact_within_3 : ImpactResult :=
  {| impacted := [(Epic, []); (UserStory, []); (AcceptanceCriterion, ["AC_001"]);
                  (BoundedContext, []); (Aggregate, ["AGG_ORDER"]); (Entity, []);
                  (ValueObject, []); (Field, ["F_ORDER_AMOUNT"; "F_ORDER_ID"]);
                  (Command, ["CMD_PLACE_ORDER"]); (Event, ["EVT_ORDER_PLACED"]);
                  (Policy, ["POL_RESERVE_STOCK"])];
     affected_aggregates := ["AGG_STOCK"] |}.

(** What it returns within four hops or more. *)
Definition impact_within_4 : ImpactResult :=
  {| impacted := [(Epic, []); (UserStory, []); (AcceptanceCriterion, ["AC_001"]);
                  (BoundedContext, []); (Aggregate, ["AGG_ORDER"]); (Entity, []);
                  (ValueObject, []); (Field, ["F_ORDER_AMOUNT"; "F_ORDER_ID"]);
                  (Command, ["CMD_PLACE_ORDER"; "CMD_RESERVE_STOCK"]);
                  (Event, ["EVT_ORDER_PLACED"]); (Policy, ["POL_RESERVE_STOCK"])];
     affected_aggregates := ["AGG_STOCK"] |}.

End TestData.

(** ** Phase branching (the v1.2 development checklist, section 2.1) *)

Module Scope.

(** [any(l in dirty_labels for l in labels)] *)
Definition any_in (labels : list string) (dirty_labels : gset string) : bool :=
  existsb (λ l, bool_decide (l ∈ dirty_labels)) labels.

(** [determine_phase_sequence(dirty_labels: Set[str]) -> List[str]]:
    phase "A" regenerates the structure, phase "B" the behaviour. *)
Definition determine_phase_sequence (dirty_labels : gset string) : list string :=
  let has_structure := any_in ["Aggregate"; "Field"] dirty_labels in
  let has_behavior := any_in ["Command"; "Event"; "Policy"] dirty_labels in
  if has_structure && has_behavior then ["A"; "B"]
  else if has_structure then ["A"]
  else if has_behavior then ["B"]
  else [].

(** The label a node kind carries in the graph. *)
Definition label_of (k : Kind) : string :=
  match k with
  | Epic => "Epic" | UserStory => "UserStory"
  | AcceptanceCriterion => "AcceptanceCriterion"
  | BoundedContext => "BoundedContext" | Aggregate => "Aggregate"
  | Entity => "Entity" | ValueObject => "ValueObject" | Field => "Field"
  | Command => "Command" | Event => "Event" | Policy => "Policy"
  end.

Definition labels_of (dirty : list Kind) : gset string :=
  list_to_set (label_of <$> dirty).

(** The two groups as the specification words them. *)
Definition structural_kinds : list Kind :=
  [BoundedContext; Aggregate; Entity; ValueObject; Field].

Definition behavioral_kinds : list Kind := [Command; Event; Policy].

Definition has_kind_of (group : list Kind) (dirty : list Kind) : bool :=
  existsb (λ k, bool_decide (k ∈ dirty)) group.

(** The decision table of section 4.6 of the specification, read with
    Structural = phase "A" and Behavioral = phase "B". *)
Definition scope_table (dirty : list Kind) : list string :=
  match has_kind_of structural_kinds dirty, has_kind_of behavioral_kinds dirty with
  | true, true => ["A"; "B"]
  | true, false => ["A"]
  | false, true => ["B"]
  | false, false => []
  end.

End Scope.

(** ** The property graph and the Cypher statements of the scripts *)

Module Store.

(** Property values (string, number, boolean, timestamp). *)
Inductive Value :=
  | VStr (s : string)
  | VInt (z : Z)
  | VBool (b : bool)
  | VTime (t : nat).

#[global] Instance Value_eq_dec : EqDecision Value.
Proof. solve_decision. Defined.

Definition kind_index (k : Kind) : nat :=
  match k with
  | Epic => 0 | UserStory => 1 | AcceptanceCriterion => 2
  | BoundedContext => 3 | Aggregate => 4 | Entity => 5 | ValueObject => 6
  | Field => 7 | Command => 8 | Event => 9 | Policy => 10
  end.

Definition kind_at (n : nat) : option Kind := all_kinds !! n.

#[global] Instance Kind_countable : Countable Kind.
Proof.
  apply (inj_countable kind_index kind_at).
  intros k. destruct k; reflexivity.
Defined.

(** A [:Change] node (the v1.1 improvement spec, section 3.3, option A). *)
Record Change := mkChange {
  change_id : nat;
  change_label : Kind;
  change_node_id : string;
  before_hash : option string;
  after_hash : string;
  change_reason : string;
  change_at : nat
}.

(** The uniqueness constraints of [schema-init.cypher] make the [id]
    property a key of every label, so a node is addressed by
    (label, id); its value is the property map. *)
Record Db := mkStore {
  store_nodes : gmap (Kind * string) (gmap string Value);
  store_rels : list Edge;
  store_changes : list Change
}.

Definition with_nodes (ns : gmap (Kind * string) (gmap string Value)) (s : Db) : Db :=
  {| store_nodes := ns; store_rels := store_rels s; store_changes := store_changes s |}.

(** [MERGE (n:k {id: id})]: the node is created, with its [id]
    property, only when no node matches. *)
Definition merge_node (k : Kind) (id : string) (s : Db) : Db :=
  match store_nodes s !! (k, id) with
  | Some _ => s
  | None => with_nodes (<[(k, id) := {[ "id" := VStr id ]}]> (store_nodes s)) s
  end.

(** [SET n.key1 = v1, n.key2 = v2, ...] on a property map, left to right. *)
Definition set_all (attrs : list (string * Value)) (props : gmap string Value)
    : gmap string Value :=
  foldl (λ m kv, <[kv.1 := kv.2]> m) props attrs.

(** [REMOVE n.key1, n.key2, ...] *)
Definition remove_all (keys : list string) (props : gmap string Value)
    : gmap string Value :=
  foldl (λ m key, delete key m) props keys.

(** [MATCH (n:k {id: id}) SET ...]: no row, no write. *)
Definition set_props (k : Kind) (id : string) (attrs : list (string * Value))
    (s : Db) : Db :=
  with_nodes (alter (set_all attrs) (k, id) (store_nodes s)) s.

(** What an upsert is given: the identifier and the other attributes of
    the node (the statements never [SET] the [id] itself). *)
Record Payload := mkPayload {
  p_id : string;
  p_attrs : list (string * Value)
}.

(** The upsert statement of the data scripts,
    [MERGE (n:k {id: $id}) SET n.a1 = $v1, ..., n.an = $vn]. *)
Definition upsert (k : Kind) (p : Payload) (s : Db) : Db :=
  set_props k (p_id p) (p_attrs p) (merge_node k (p_id p) s).

(** [MATCH (a:ka {id: a}), (b:kb {id: b}) MERGE (a)-[:r]->(b)] *)
Definition merge_rel (ka : Kind) (a : string) (r : Rel) (kb : Kind) (b : string)
    (s : Db) : Db :=
  match store_nodes s !! (ka, a), store_nodes s !! (kb, b) with
  | Some _, Some _ =>
      if bool_decide (mkEdge a r b ∈ store_rels s) then s
      else {| store_nodes := store_nodes s;
              store_rels := store_rels s ++ [mkEdge a r b];
              store_changes := store_changes s |}
  | _, _ => s
  end.

(** *** Dirty flags *)

Definition dirty_keys : list string := ["dirty"; "dirty_reason"; "dirty_at"].

(** [SET a.dirty = true, a.dirty_reason = $reason, a.dirty_at = datetime()] *)
Definition dirty_attrs (reason : string) (now : nat) : list (string * Value) :=
  [("dirty", VBool true); ("dirty_reason", VStr reason); ("dirty_at", VTime now)].

(** [WHERE n.dirty = true REMOVE n.dirty, n.dirty_reason, n.dirty_at]
    on one matched node. *)
Definition remove_dirty (props : gmap string Value) : gmap string Value :=
  if bool_decide (props !! "dirty" = Some (VBool true))
  then remove_all dirty_keys props
  else props.

(** [MATCH (a:kind {id: $id}) SET a.dirty = true, ...] for each id. *)
Definition mark (ids : list string) (kind : Kind) (reason : string) (now : nat)
    (s : Db) : Db :=
  foldl (λ s id, set_props kind id (dirty_attrs reason now) s) s ids.

(** [MATCH (n:kind {id: $id}) WHERE n.dirty = true REMOVE ...] for each id. *)
Definition clear (ids : list string) (kind : Kind) (s : Db) : Db :=
  foldl (λ s id, with_nodes (alter remove_dirty (kind, id) (store_nodes s)) s) s ids.

(** [MATCH (n) WHERE n.dirty = true REMOVE n.dirty, n.dirty_reason, n.dirty_at]
    (part D of [reset-and-load-test-data.cypher]). *)
Definition clear_all (s : Db) : Db :=
  with_nodes (remove_dirty <$> store_nodes s) s.

Definition has_dirty_field (props : gmap string Value) : bool :=
  existsb (λ key, bool_decide (is_Some (props !! key))) dirty_keys.

Definition has_all_dirty_fields (props : gmap string Value) : bool :=
  forallb (λ key, bool_decide (is_Some (props !! key))) dirty_keys.

(** All three dirty fields together, or none of them. *)
Definition dirty_consistent (props : gmap string Value) : Prop :=
  has_all_dirty_fields props = true ∨ has_dirty_field props = false.

Definition store_consistent (s : Db) : Prop :=
  map_Forall (λ _ props, dirty_consistent props) (store_nodes s).

Definition empty : Db :=
  {| store_nodes := ∅; store_rels := []; store_changes := [] |}.

(** The value the [SET] clause leaves in a property, if it assigns it. *)
Fixpoint assigned (attrs : list (string * Value)) (key : string) : option Value :=
  match attrs with
  | [] => None
  | (k, v) :: rest =>
      match assigned rest key with
      | Some v' => Some v'
      | None => if bool_decide (k = key) then Some v else None
      end
  end.

End Store.

(** ** Change Detector *)

Module ChangeDetector.
Import Store.

Section Detect.

(** The content fingerprint: a pure function of the payload. *)
Variable fingerprint : Payload → string.

Definition about (k : Kind) (id : string) (c : Change) : Prop :=
  change_label c = k ∧ change_node_id c = id.

#[local] Instance about_dec k id c : Decision (about k id c).
Proof. unfold about. apply _. Defined.

(** Change records are only ever appended, so the most recent record
    of a node is the last one about it. *)
Definition latest (k : Kind) (id : string) (s : Db) : option Change :=
  last (filter (about k id) (store_changes s)).

(** The baseline fingerprint: the [source_hash] the node carries. *)
Definition baseline (k : Kind) (id : string) (s : Db) : option string :=
  match store_nodes s !! (k, id) ≫= (.!! "source_hash") with
  | Some (VStr h) => Some h
  | _ => None
  end.

(** The fingerprint recorded for (kind, id), if any. *)
Definition recorded (k : Kind) (id : string) (s : Db) : option string :=
  match latest k id s with
  | Some c => Some (after_hash c)
  | None => baseline k id s
  end.

Definition add_change (c : Change) (s : Db) : Db :=
  {| store_nodes := store_nodes s;
     store_rels := store_rels s;
     store_changes := store_changes s ++ [c] |}.

(** Modelled from the spec: [detect] of the Change Detector
    ([python/change_detection.py], absent from the sources at hand),
    section 4.3: [after_hash = fingerprint(payload)] is compared with the
    most recent Change record of (kind, id), or with the baseline
    fingerprint when there is none; when it is absent or different a new
    Change record is appended and the answer is [changed = true],
    otherwise nothing is written and the answer is [changed = false]. *)
Definition detect (k : Kind) (id : string) (payload : Payload)
    (reason : string) (now : nat) (s : Db) : bool * Db :=
  let after := fingerprint payload in
  let before := recorded k id s in
  if bool_decide (before = Some after) then (false, s)
  else (true, add_change {| change_id := length (store_changes s);
                            change_label := k;
                            change_node_id := id;
                            before_hash := before;
                            after_hash := after;
                            change_reason := reason;
                            change_at := now |} s).

End Detect.

End ChangeDetector.

(** ** Run Tracker *)

Module RunTracker.

Inductive Status := queued | running | completed | failed.

Inductive Phase := PhaseA | PhaseB.

(** The states [finish] may set. *)
Inductive Outcome := Completed | Failed.

Inductive Error := InvalidPhaseSequence | DanglingReference.

#[global] Instance Status_eq_dec : EqDecision Status.
Proof. solve_decision. Defined.

Record Run := mkRun {
  run_phase : Phase;
  run_agent : string;
  run_status : Status;
  started_at : option nat;
  ended_at : option nat;
  touched : list string
}.

Definition is_terminal (st : Status) : bool :=
  match st with
  | completed | failed => true
  | queued | running => false
  end.

Definition status_of (o : Outcome) : Status :=
  match o with
  | Completed => completed
  | Failed => failed
  end.

(** Position of a status on the line queued, running, {completed | failed}. *)
Definition rank (st : Status) : nat :=
  match st with
  | queued => 0
  | running => 1
  | completed | failed => 2
  end.

(** [b] is [a] or lies further along the line than [a]. *)
Definition forward (a b : Status) : Prop := a = b ∨ rank a < rank b.

(** Modelled from the spec: [start] of the Run Tracker ([python/batch.py],
    absent from the sources at hand), section 4.8: a new Run under a
    fresh identifier, running from [now] on, with nothing touched. *)
Definition start (phase : Phase) (agent : string) (now : nat)
    (runs : gmap string Run) : string * gmap string Run :=
  let id := fresh (dom runs) in
  (id, <[id := {| run_phase := phase; run_agent := agent;
                  run_status := running;
                  started_at := Some now; ended_at := None;
                  touched := [] |}]> runs).

(** Modelled from the spec: [touch] of the Run Tracker, sections 3 and
    4.8: the node identifiers are appended to the TOUCHED edges of the
    Run; a Run in a terminal state accepts no further touches. *)
Definition touch (runId : string) (nodeIds : list string)
    (runs : gmap string Run) : Error + gmap string Run :=
  match runs !! runId with
  | None => inl DanglingReference
  | Some r =>
      if is_terminal (run_status r) then inl InvalidPhaseSequence
      else inr (<[runId := {| run_phase := run_phase r; run_agent := run_agent r;
                              run_status := run_status r;
                              started_at := started_at r; ended_at := ended_at r;
                              touched := touched r ++ nodeIds |}]> runs)
  end.

(** Modelled from the spec: [finish] of the Run Tracker, section 4.8:
    sets the terminal state and [ended_at]; fails with
    [InvalidPhaseSequence] on an already-terminal Run. *)
Definition finish (runId : string) (status : Outcome) (now : nat)
    (runs : gmap string Run) : Error + gmap string Run :=
  match runs !! runId with
  | None => inl DanglingReference
  | Some r =>
      if is_terminal (run_status r) then inl InvalidPhaseSequence
      else inr (<[runId := {| run_phase := run_phase r; run_agent := run_agent r;
                              run_status := status_of status;
                              started_at := started_at r; ended_at := Some now;
                              touched := touched r |}]> runs)
  end.

(** The calls a client can make. *)
Inductive Op :=
  | Start (phase : Phase) (agent : string) (now : nat)
  | Touch (runId : string) (nodeIds : list string)
  | Finish (runId : string) (status : Outcome) (now : nat).

Definition apply (op : Op) (runs : gmap string Run) : Error + gmap string Run :=
  match op with
  | Start phase agent now => inr (start phase agent now runs).2
  | Touch runId nodeIds => touch runId nodeIds runs
  | Finish runId status now => finish runId status now runs
  end.

(** One successful call. *)
Definition step (runs runs' : gmap string Run) : Prop :=
  ∃ op, apply op runs = inr runs'.

(** A Run that has completed. *)
Definition sample_runs : gmap string Run :=
  {[ "RUN_1" := {| run_phase := PhaseA; run_agent := "aggregate-draft";
                   run_status := completed;
                   started_at := Some 1; ended_at := Some 2;
                   touched := ["AGG_ORDER"] |} ]}.

End RunTracker.

(** ** The model modifier store (the Pinia store [modelModifier]) *)

Module ModelModifier.

(** A JavaScript string: its UTF-16 code units. *)
Definition jsstring : Type := list N.

(** WhiteSpace and LineTerminator of ECMAScript, what
    [String.prototype.trim] strips. *)
Definition is_white_space (c : N) : bool :=
  ((9 <=? c) && (c <=? 13)
   || (c =? 32) || (c =? 160) || (c =? 5760)
   || (8192 <=? c) && (c <=? 8202)
   || (c =? 8232) || (c =? 8233) || (c =? 8239) || (c =? 8287)
   || (c =? 12288) || (c =? 65279))%N.

Fixpoint trimStart (s : jsstring) : jsstring :=
  match s with
  | [] => []
  | c :: s' => if is_white_space c then trimStart s' else s
  end.

Definition trimEnd (s : jsstring) : jsstring :=
  reverse (trimStart (reverse s)).

Definition trim (s : jsstring) : jsstring := trimEnd (trimStart s).

(** Truthiness of a string, and of a possibly undefined one. *)
Definition truthy (s : jsstring) : bool := negb (bool_decide (s = [])).

(** [a || b] on strings that may be undefined. *)
Definition js_or (a b : option jsstring) : option jsstring :=
  match a with
  | Some s => if truthy s then a else b
  | None => b
  end.

(** A JSON value handed through untouched, kept as its text. *)
Definition Json : Type := jsstring.

Inductive StepType := thought | action | observation.

#[global] Instance StepType_eq_dec : EqDecision StepType.
Proof. solve_decision. Defined.

(** An entry of a ReAct trace.  [step_action] is the [action] property:
    [None] when it is undefined, which it is on every entry that is not
    an action; an action name is a string. *)
Record ReactStep := mkStep {
  step_type : StepType;
  step_content : jsstring;
  step_action : option jsstring
}.

Inductive MessageType := user | assistant | system.

#[global] Instance MessageType_eq_dec : EqDecision MessageType.
Proof. solve_decision. Defined.

(** A node of the canvas selection, with the fields the store reads. *)
Record CanvasNode := mkNode {
  node_id : jsstring;
  node_type : jsstring;
  data_name : option jsstring;
  data_label : option jsstring;
  data_type : option jsstring
}.

Record NodeRef := mkRef {
  ref_id : jsstring;
  ref_name : option jsstring;
  ref_type : option jsstring
}.

Record Message := mkMessage {
  msg_id : jsstring;
  msg_type : MessageType;
  msg_content : jsstring;
  msg_selectedNodes : list NodeRef;
  msg_changes : list Json;
  msg_reactSteps : list ReactStep;
  msg_timestamp : jsstring;
  msg_isError : bool;
  msg_isComplete : bool
}.

(** The refs of the store. *)
Record State := mkState {
  messages : list Message;
  isProcessing : bool;
  currentThought : jsstring;
  currentAction : jsstring;
  streamingContent : jsstring;
  reactTrace : list ReactStep;
  error : option jsstring;
  appliedChanges : list Json
}.

(** What leaves the store: the request to [/api/chat/modify] and the
    call into the canvas store. *)
Inductive Effect :=
  | Fetch (prompt : jsstring) (selected : list CanvasNode) (history : list Message)
  | SyncAfterChanges (changes : list Json).

(** A parsed [data:] line of the response stream. *)
Inductive StreamEvent :=
  | Thought (content : jsstring)
  | Action (content : jsstring) (name : option jsstring)
  | Observation (content : jsstring)
  | ChangeEvent (change : Json)
  | Content (content : jsstring)
  | Complete (summary : option jsstring)
  | ErrorEvent (message : jsstring)
  | OtherEvent.

Inductive Response :=
  | Rejected (message : jsstring)
  | NotOk (detail : option jsstring) (status : jsstring)
  | Stream (events : list StreamEvent).

(** What the store reads from outside: the canvas selection, the
    outcome of [generateId()] and [new Date().toISOString()] for the
    n-th message, and the answer of the server. *)
Record Env := mkEnv {
  selectedNodes : list CanvasNode;
  generateId : nat → jsstring;
  timestamp : nat → jsstring;
  response : Response
}.

Definition select_first_text : jsstring :=
  [47676; 51200; 32; 52884; 48260; 49828; 50640; 49436; 32; 49688; 51221;
   54624; 32; 44061; 52404; 47484; 32; 49440; 53469; 54644; 51452; 49464;
   50836; 46]%N.

Definition failure_prefix : jsstring :=
  [50724; 47448; 44032; 32; 48156; 49373; 54664; 49845; 45768; 45796; 58; 32]%N.

Definition error_prefix : jsstring := [50724; 47448; 58; 32]%N.

Definition api_error_prefix : jsstring :=
  [65; 80; 73; 32; 101; 114; 114; 111; 114; 58; 32]%N.

Definition same_step (last nextStep : ReactStep) : bool :=
  let sameType := bool_decide (step_type last = step_type nextStep) in
  let sameAction :=
    negb (bool_decide (step_type nextStep = action))
    || bool_decide (step_action last = step_action nextStep) in
  sameType && sameAction.

(** [last.content = nextStep.content], and [last.action = nextStep.action]
    for an action. *)
Definition refresh (last nextStep : ReactStep) : ReactStep :=
  {| step_type := step_type last;
     step_content := step_content nextStep;
     step_action := if bool_decide (step_type nextStep = action)
                    then step_action nextStep else step_action last |}.

(** [upsertReactStep(list, nextStep)]: the array after the call. *)
Definition upsertReactStep (steps : list ReactStep) (nextStep : ReactStep)
    : list ReactStep :=
  if bool_decide (length steps = 0) then steps ++ [nextStep]
  else
    match steps !! (length steps - 1) with
    | Some last =>
        if same_step last nextStep
        then <[length steps - 1 := refresh last nextStep]> steps
        else steps ++ [nextStep]
    | None => steps ++ [nextStep]
    end.

(** [messages.value[idx] = { ...message }] at the first index whose id
    is the message's. The array holds the assistant message itself
    until this replaces it by a copy; the list holds its value, which
    is the same as long as no earlier message has its id. When one
    has, that message is replaced and the array keeps the assistant
    message itself, which the list does not follow. *)
Fixpoint updateLastAssistantMessage (message : Message) (ms : list Message)
    : list Message :=
  match ms with
  | [] => []
  | m :: ms' =>
      if bool_decide (msg_id m = msg_id message) then message :: ms'
      else m :: updateLastAssistantMessage message ms'
  end.

Definition with_steps (steps : list ReactStep) (m : Message) : Message :=
  {| msg_id := msg_id m; msg_type := msg_type m; msg_content := msg_content m;
     msg_selectedNodes := msg_selectedNodes m; msg_changes := msg_changes m;
     msg_reactSteps := steps; msg_timestamp := msg_timestamp m;
     msg_isError := msg_isError m; msg_isComplete := msg_isComplete m |}.

Definition with_content (c : jsstring) (m : Message) : Message :=
  {| msg_id := msg_id m; msg_type := msg_type m; msg_content := c;
     msg_selectedNodes := msg_selectedNodes m; msg_changes := msg_changes m;
     msg_reactSteps := msg_reactSteps m; msg_timestamp := msg_timestamp m;
     msg_isError := msg_isError m; msg_isComplete := msg_isComplete m |}.

Definition with_messages (ms : list Message) (st : State) : State :=
  {| messages := ms; isProcessing := isProcessing st;
     currentThought := currentThought st; currentAction := currentAction st;
     streamingContent := streamingContent st; reactTrace := reactTrace st;
     error := error st; appliedChanges := appliedChanges st |}.

Definition with_trace (steps : list ReactStep) (st : State) : State :=
  {| messages := messages st; isProcessing := isProcessing st;
     currentThought := currentThought st; currentAction := currentAction st;
     streamingContent := streamingContent st; reactTrace := steps;
     error := error st; appliedChanges := appliedChanges st |}.

(** The [switch] of [handleStreamEvent], before the closing
    [updateLastAssistantMessage]. *)
Definition dispatch (event : StreamEvent) (st : State) (am : Message)
    : State * Message * list Effect :=
  match event with
  | Thought c =>
      let step := mkStep thought c None in
      ({| messages := messages st; isProcessing := isProcessing st;
          currentThought := c; currentAction := currentAction st;
          streamingContent := streamingContent st;
          reactTrace := upsertReactStep (reactTrace st) step;
          error := error st; appliedChanges := appliedChanges st |},
       with_steps (upsertReactStep (msg_reactSteps am) step) am, [])
  | Action c name =>
      let step := mkStep action c name in
      ({| messages := messages st; isProcessing := isProcessing st;
          currentThought := currentThought st; currentAction := c;
          streamingContent := streamingContent st;
          reactTrace := upsertReactStep (reactTrace st) step;
          error := error st; appliedChanges := appliedChanges st |},
       with_steps (upsertReactStep (msg_reactSteps am) step) am, [])
  | Observation c =>
      let step := mkStep observation c None in
      (with_trace (upsertReactStep (reactTrace st) step) st,
       with_steps (upsertReactStep (msg_reactSteps am) step) am, [])
  | ChangeEvent change =>
      ({| messages := messages st; isProcessing := isProcessing st;
          currentThought := currentThought st; currentAction := currentAction st;
          streamingContent := streamingContent st; reactTrace := reactTrace st;
          error := error st; appliedChanges := appliedChanges st ++ [change] |},
       {| msg_id := msg_id am; msg_type := msg_type am; msg_content := msg_content am;
          msg_selectedNodes := msg_selectedNodes am;
          msg_changes := msg_changes am ++ [change];
          msg_reactSteps := msg_reactSteps am; msg_timestamp := msg_timestamp am;
          msg_isError := msg_isError am; msg_isComplete := msg_isComplete am |}, [])
  | Content c =>
      let content := msg_content am ++ c in
      ({| messages := messages st; isProcessing := isProcessing st;
          currentThought := currentThought st; currentAction := currentAction st;
          streamingContent := content; reactTrace := reactTrace st;
          error := error st; appliedChanges := appliedChanges st |},
       with_content content am, [])
  | Complete summary =>
      (st,
       {| msg_id := msg_id am; msg_type := msg_type am;
          msg_content := default [] (js_or summary (Some (msg_content am)));
          msg_selectedNodes := msg_selectedNodes am; msg_changes := msg_changes am;
          msg_reactSteps := msg_reactSteps am; msg_timestamp := msg_timestamp am;
          msg_isError := msg_isError am; msg_isComplete := true |},
       if bool_decide (length (msg_changes am) = 0) then []
       else [SyncAfterChanges (msg_changes am)])
  | ErrorEvent message =>
      ({| messages := messages st; isProcessing := isProcessing st;
          currentThought := currentThought st; currentAction := currentAction st;
          streamingContent := streamingContent st; reactTrace := reactTrace st;
          error := Some message; appliedChanges := appliedChanges st |},
       {| msg_id := msg_id am; msg_type := msg_type am;
          msg_content := error_prefix ++ message;
          msg_selectedNodes := msg_selectedNodes am; msg_changes := msg_changes am;
          msg_reactSteps := msg_reactSteps am; msg_timestamp := msg_timestamp am;
          msg_isError := true; msg_isComplete := msg_isComplete am |}, [])
  | OtherEvent => (st, am, [])
  end.

(** [handleStreamEvent(event, assistantMessage)] *)
Definition handleStreamEvent (event : StreamEvent) (st : State) (am : Message)
    : State * Message * list Effect :=
  let '(st1, am1, effects) := dispatch event st am in
  (with_messages (updateLastAssistantMessage am1 (messages st1)) st1, am1, effects).

(** The loop over the events of the stream. *)
Fixpoint handleAll (events : list StreamEvent) (st : State) (am : Message)
    : State * Message * list Effect :=
  match events with
  | [] => (st, am, [])
  | event :: rest =>
      let '(st1, am1, e1) := handleStreamEvent event st am in
      let '(st2, am2, e2) := handleAll rest st1 am1 in
      (st2, am2, e1 ++ e2)
  end.

(** [messages.value.slice(-10)] *)
Definition last_ten (ms : list Message) : list Message :=
  drop (length ms - 10) ms.

(** [processModificationRequest(prompt, selectedNodes)]: the state and
    the effects, and the message of the error thrown, if one is. *)
Definition processModificationRequest (env : Env) (prompt : jsstring)
    (selected : list CanvasNode) (st : State)
    : State * list Effect * option jsstring :=
  let request := Fetch prompt selected (last_ten (messages st)) in
  match response env with
  | Rejected message => (st, [request], Some message)
  | NotOk detail status =>
      (st, [request],
       Some (default [] (js_or detail (Some (api_error_prefix ++ status)))))
  | Stream events =>
      let n := length (messages st) in
      let assistantMessage :=
        {| msg_id := generateId env n; msg_type := assistant; msg_content := [];
           msg_selectedNodes := []; msg_changes := []; msg_reactSteps := [];
           msg_timestamp := timestamp env n;
           msg_isError := false; msg_isComplete := false |} in
      let st1 := with_messages (messages st ++ [assistantMessage]) st in
      let '(st2, am2, effects) := handleAll events st1 assistantMessage in
      (with_messages (updateLastAssistantMessage am2 (messages st2)) st2,
       request :: effects, None)
  end.

Definition node_ref (n : CanvasNode) : NodeRef :=
  {| ref_id := node_id n;
     ref_name := js_or (data_name n) (data_label n);
     ref_type := js_or (data_type n) (Some (node_type n)) |}.

Definition plain_message (env : Env) (n : nat) (type : MessageType)
    (content : jsstring) (isError : bool) : Message :=
  {| msg_id := generateId env n; msg_type := type; msg_content := content;
     msg_selectedNodes := []; msg_changes := []; msg_reactSteps := [];
     msg_timestamp := timestamp env n;
     msg_isError := isError; msg_isComplete := false |}.

(** [sendMessage(content)]: the state when the promise settles and the
    effects issued on the way. *)
Definition sendMessage (env : Env) (content : jsstring) (st : State)
    : State * list Effect :=
  if negb (truthy (trim content)) then (st, [])
  else if bool_decide (length (selectedNodes env) = 0) then
    (with_messages
       (messages st ++ [plain_message env (length (messages st)) system
                          select_first_text false]) st, [])
  else
    let n := length (messages st) in
    let userMessage :=
      {| msg_id := generateId env n; msg_type := user; msg_content := content;
         msg_selectedNodes := node_ref <$> selectedNodes env;
         msg_changes := []; msg_reactSteps := [];
         msg_timestamp := timestamp env n;
         msg_isError := false; msg_isComplete := false |} in
    let st1 :=
      {| messages := messages st ++ [userMessage]; isProcessing := true;
         currentThought := currentThought st; currentAction := currentAction st;
         streamingContent := []; reactTrace := [];
         error := None; appliedChanges := appliedChanges st |} in
    let '(st2, effects, thrown) :=
      processModificationRequest env content (selectedNodes env) st1 in
    let st3 :=
      match thrown with
      | Some message =>
          {| messages := messages st2 ++
                         [plain_message env (length (messages st2)) system
                            (failure_prefix ++ message) true];
             isProcessing := isProcessing st2;
             currentThought := currentThought st2; currentAction := currentAction st2;
             streamingContent := streamingContent st2; reactTrace := reactTrace st2;
             error := Some message; appliedChanges := appliedChanges st2 |}
      | None => st2
      end in
    ({| messages := messages st3; isProcessing := false;
        currentThought := []; currentAction := [];
        streamingContent := streamingContent st3; reactTrace := reactTrace st3;
        error := error st3; appliedChanges := appliedChanges st3 |}, effects).

(** Two neighbouring entries of a trace: of different types, or two
    actions of different names. *)
Definition may_follow (a b : ReactStep) : bool :=
  negb (bool_decide (step_type a = step_type b))
  || bool_decide (step_type b = action)
     && negb (bool_decide (step_action a = step_action b)).

Fixpoint no_repeat (steps : list ReactStep) : bool :=
  match steps with
  | a :: rest =>
      match rest with
      | b :: _ => may_follow a b && no_repeat rest
      | [] => true
      end
  | [] => true
  end.

(** Every trace the store holds is free of repeats: the global one and
    the one of each message. *)
Definition traces_ok (st : State) : Prop :=
  no_repeat (reactTrace st) = true
  ∧ Forall (λ m, no_repeat (msg_reactSteps m) = true) (messages st).

(** A selection of one node and a server that streams three events. *)
Definition sample_env : Env :=
  {| selectedNodes := [mkNode [110; 49]%N [97]%N None None None];
     generateId := λ n, [109; N.of_nat n]%N;
     timestamp := λ n, [116; N.of_nat n]%N;
     response := Stream [Thought [72]%N; Content [79; 75]%N; Complete None] |}.

Definition initial_state : State :=
  {| messages := []; isProcessing := false; currentThought := [];
     currentAction := []; streamingContent := []; reactTrace := [];
     error := None; appliedChanges := [] |}.

(** *** The rest of the store *)

(** [clearMessages()] *)
Definition clearMessages (st : State) : State :=
  {| messages := []; isProcessing := isProcessing st;
     currentThought := currentThought st; currentAction := currentAction st;
     streamingContent := streamingContent st; reactTrace := [];
     error := None; appliedChanges := [] |}.

(** [cancelProcessing()] *)
Definition cancelProcessing (st : State) : State :=
  {| messages := messages st; isProcessing := false;
     currentThought := []; currentAction := [];
     streamingContent := streamingContent st; reactTrace := reactTrace st;
     error := error st; appliedChanges := appliedChanges st |}.

(** The computed [hasMessages] and [lastMessage]. *)
Definition hasMessages (st : State) : bool :=
  bool_decide (0 < length (messages st)).

Definition lastMessage (st : State) : option Message :=
  if bool_decide (length (messages st) = 0) then None
  else messages st !! (length (messages st) - 1).

(** [[...messages.value].reverse().find(m => m.type === 'user')] *)
Definition last_user (ms : list Message) : option Message :=
  head (filter (λ m, msg_type m = user) (reverse ms)).

(** [findIndex(m => m.isError)] followed by [splice(errorIdx, 1)]. *)
Fixpoint remove_first_error (ms : list Message) : list Message :=
  match ms with
  | [] => []
  | m :: ms' => if msg_isError m then ms' else m :: remove_first_error ms'
  end.

(** What leaves the store during [retryLast]: the call of
    [canvasStore.selectNodes] and what [processModificationRequest]
    issues. *)
Inductive RetryEffect :=
  | SelectNodes (ids : list jsstring)
  | Issued (e : Effect).

(** [retryLast()]. [reselected] stands for [canvasStore.selectedNodes]
    after the call of [selectNodes]; every user message was pushed by
    [sendMessage], so its [selectedNodes] is an array. The error thrown
    by [processModificationRequest], if one is, is not caught. *)
Definition retryLast (env : Env) (reselected : list jsstring → list CanvasNode)
    (st : State) : State * list RetryEffect * option jsstring :=
  match last_user (messages st) with
  | Some lastUserMessage =>
      let st1 := with_messages (remove_first_error (messages st)) st in
      let ids := ref_id <$> msg_selectedNodes lastUserMessage in
      let '(st2, effects, thrown) :=
        processModificationRequest env (msg_content lastUserMessage)
          (reselected ids) st1 in
      (st2, SelectNodes ids :: (Issued <$> effects), thrown)
  | None => (st, [], None)
  end.

(** *** Reading the response stream *)

(** ['data: '] and ['[DONE]'] *)
Definition data_prefix : jsstring := [100; 97; 116; 97; 58; 32]%N.

Definition done_marker : jsstring := [91; 68; 79; 78; 69; 93]%N.

(** [s.split('\n')] *)
Fixpoint split_lines (s : jsstring) : list jsstring :=
  match s with
  | [] => [[]]
  | c :: s' =>
      if (c =? 10)%N then [] :: split_lines s'
      else match split_lines s' with
           | l :: ls => (c :: l) :: ls
           | [] => [[c]]
           end
  end.

(** [line.startsWith(prefix)] *)
Definition startsWith (prefix line : jsstring) : bool :=
  bool_decide (take (length prefix) line = prefix).

(** One turn of the [for] loop up to [JSON.parse]: the text handed to
    it, if the line is not skipped. *)
Definition data_of (line : jsstring) : option jsstring :=
  if negb (startsWith data_prefix line) then None
  else
    let data := drop 6 line in
    if bool_decide (data = done_marker) then None else Some data.

(** The events of a list of lines. [parse] stands for [JSON.parse]
    followed by the reading of [event.type]; it gives [None] where
    that throws, which the [catch] ignores. *)
Definition events_of_lines (parse : jsstring → option StreamEvent)
    (lines : list jsstring) : list StreamEvent :=
  omap (λ line, data_of line ≫= parse) lines.

(** The [while] loop of [processModificationRequest] over the chunks
    the decoder yields, [buffer] being what the turn before left. *)
Fixpoint read_loop (parse : jsstring → option StreamEvent)
    (chunks : list jsstring) (buffer : jsstring) (st : State) (am : Message)
    : State * Message * list Effect :=
  match chunks with
  | [] => (st, am, [])
  | value :: rest =>
      let lines := split_lines (buffer ++ value) in
      let buffer' := default [] (last lines) in
      let '(st1, am1, e1) :=
        handleAll (events_of_lines parse (removelast lines)) st am in
      let '(st2, am2, e2) := read_loop parse rest buffer' st1 am1 in
      (st2, am2, e1 ++ e2)
  end.

(** The changes a stream carries, in order. *)
Definition changes_of (events : list StreamEvent) : list Json :=
  omap (λ event, match event with ChangeEvent c => Some c | _ => None end) events.

(** Whether a stream holds an [error] event. *)
Definition is_error_event (event : StreamEvent) : bool :=
  match event with ErrorEvent _ => true | _ => false end.

(** *** What the theorems about the stream speak of *)

(** The text of a list of lines: a line feed ends each of them. *)
Definition flat (ls : list jsstring) : jsstring :=
  ls ≫= λ l, l ++ [10%N].

(** An effect that is a canvas sync with some of the changes given, and
    at least one. *)
Definition syncs_within (all : list Json) (e : Effect) : Prop :=
  match e with
  | SyncAfterChanges cs => cs ≠ [] ∧ cs `prefix_of` all
  | Fetch _ _ _ => False
  end.

(** The state of the loop over the stream: the assistant message is
    the last of the list and no message before it has its id. *)
Record streaming (before : list Message) (st : State) (am : Message) : Prop := {
  sm_messages : messages st = before ++ [am];
  sm_fresh : msg_id am ∉ msg_id <$> before
}.

End ModelModifier.

(** ** JavaScript strings and objects shared by the front end *)

Module Js.

Abbreviation jsstring := ModelModifier.jsstring.

(** The code units of an ASCII literal. *)
Definition units (s : string) : jsstring :=
  Ascii.N_of_ascii <$> String.list_ascii_of_string s.

(** What a template literal shows for a string that may be undefined. *)
Definition shown (s : option jsstring) : jsstring :=
  default (units "undefined") s.

(** [parts.join(sep)] *)
Fixpoint join (sep : jsstring) (parts : list jsstring) : jsstring :=
  match parts with
  | [] => []
  | [p] => p
  | p :: rest => p ++ sep ++ join sep rest
  end.

(** An array index: the canonical decimal form of an integer from 0 to
    2^32 - 2. Keys of this form come first, in ascending order, when
    the keys of an object are gone through. *)
Definition digit (c : N) : option N :=
  if ((48 <=? c) && (c <=? 57))%N then Some (c - 48)%N else None.

Definition index_of_units (k : list N) : option N :=
  match k with
  | [] => None
  | c :: rest =>
      if ((c =? 48)%N && negb (bool_decide (rest = []))) then None
      else
        ds ← mapM digit k;
        let v := foldl (λ acc d, 10 * acc + d)%N 0%N ds in
        if (v <=? 4294967294)%N then Some v else None
  end.

(** The keys of the objects at hand: strings of the graph, or code
    units. *)
Class Key (K : Type) := {
  key_eq_dec :: EqDecision K;
  array_index : K → option N
}.

#[global] Instance string_key : Key string :=
  {| array_index k := index_of_units (units k) |}.

#[global] Instance units_key : Key (list N) :=
  {| array_index := index_of_units |}.

(** An object used as a map: its own properties in the order in which
    [for ... in], [Object.keys], [Object.entries] and the spread syntax
    go through them. *)
Definition obj (K V : Type) : Type := list (K * V).

Section Object.
Context {K V : Type} `{Key K}.

(** [o[k]] *)
Fixpoint get (k : K) (o : obj K V) : option V :=
  match o with
  | [] => None
  | (k', v) :: o' => if bool_decide (k' = k) then Some v else get k o'
  end.

(** Whether a new key [k] is gone through before the key [k']. *)
Definition before (k k' : K) : bool :=
  match array_index k, array_index k' with
  | Some i, Some j => (i <? j)%N
  | Some _, None => true
  | None, _ => false
  end.

(** The place of a property that is created. *)
Fixpoint create (k : K) (v : V) (o : obj K V) : obj K V :=
  match o with
  | [] => [(k, v)]
  | (k', v') :: o' =>
      if before k k' then (k, v) :: o else (k', v') :: create k v o'
  end.

(** A property that exists keeps its place. *)
Fixpoint assign (k : K) (v : V) (o : obj K V) : obj K V :=
  match o with
  | [] => []
  | (k', v') :: o' =>
      if bool_decide (k' = k) then (k, v) :: o' else (k', v') :: assign k v o'
  end.

(** [o[k] = v] *)
Definition set (k : K) (v : V) (o : obj K V) : obj K V :=
  match get k o with
  | Some _ => assign k v o
  | None => create k v o
  end.

(** [{ ...o, ...extra }] *)
Definition spread (o extra : obj K V) : obj K V :=
  foldl (λ acc kv, set kv.1 kv.2 acc) o extra.

(** [Object.keys(o)] *)
Definition keys (o : obj K V) : list K := o.*1.

End Object.

End Js.

(** ** The logger ([frontend/src/app/logging/logger.js]) *)

Module Logger.

(** The level names [emit] is called with. *)
Inductive Level := debug | info | warn | error.

(** [LEVEL[level]] for one of the four names. *)
Definition LEVEL (level : Level) : nat :=
  match level with
  | debug => 10
  | info => 20
  | warn => 30
  | error => 40
  end.

(** What [LEVEL[name]] yields for an arbitrary property name: the number
    of an own property, a value that is no number for a name that every
    object inherits, or undefined. *)
Inductive Lookup := Own (n : nat) | Inherited | Undefined.

Definition inherited_names : list string :=
  ["constructor"; "hasOwnProperty"; "isPrototypeOf"; "propertyIsEnumerable";
   "toLocaleString"; "toString"; "valueOf"; "__proto__";
   "__defineGetter__"; "__defineSetter__"; "__lookupGetter__"; "__lookupSetter__"].

Definition LEVEL_of (name : string) : Lookup :=
  if bool_decide (name = "debug") then Own 10
  else if bool_decide (name = "info") then Own 20
  else if bool_decide (name = "warn") then Own 30
  else if bool_decide (name = "error") then Own 40
  else if bool_decide (name ∈ inherited_names) then Inherited
  else Undefined.

(** What the module reads from outside: [import.meta.env.DEV] and
    [globalThis.__LDVC_LOG_LEVEL__], a string when it is set. *)
Record Env := mkEnv {
  DEV : bool;
  LDVC_LOG_LEVEL : option string
}.

(** [resolveMinLevel()]: [LEVEL[override] ?? LEVEL.info]; [None] stands
    for a value that is no number. *)
Definition resolveMinLevel (env : Env) : option nat :=
  let defaultLevel := if DEV env then "debug" else "info" in
  let override :=
    match LDVC_LOG_LEVEL env with
    | Some name => if bool_decide (name = "") then defaultLevel else name
    | None => defaultLevel
    end in
  match LEVEL_of override with
  | Own n => Some n
  | Inherited => None
  | Undefined => Some (LEVEL info)
  end.

(** [shouldLog(level)]: [(LEVEL[level] ?? LEVEL.info) >= minLevel], which
    is false when [minLevel] is no number. *)
Definition shouldLog (minLevel : option nat) (level : Level) : bool :=
  match minLevel with
  | Some m => bool_decide (m ≤ LEVEL level)
  | None => false
  end.

(** *** Formatting and emitting *)

(** What [JSON.stringify(value)] comes to: a text, undefined (for a
    function or a symbol), or an error thrown, with its [message]. *)
Inductive Stringified :=
  | Text (s : Js.jsstring)
  | NoText
  | Throws (message : option Js.jsstring).

(** A value of a log context, by the cases [kvString] tells apart. A
    number is given by what [String(v)] shows, any other value by what
    [JSON.stringify] makes of it. *)
Inductive Value :=
  | VUndefined
  | VNull
  | VString (s : Js.jsstring)
  | VNumber (text : Js.jsstring)
  | VBoolean (b : bool)
  | VOther (json : Stringified).

(** [s.length > maxLen ? `${s.slice(0, maxLen)}…` : s] *)
Definition cut (maxLen : nat) (s : Js.jsstring) : Js.jsstring :=
  if bool_decide (maxLen < length s) then take maxLen s ++ [8230%N] else s.

(** [safeJson(value, maxLen = 800)]; [None] is undefined. *)
Definition safeJson (value : Stringified) (maxLen : nat) : option Js.jsstring :=
  match value with
  | Text s => Some (cut maxLen s)
  | NoText => None
  | Throws message =>
      Some ([34%N] ++ Js.units "[[unserializable:"
            ++ default [] (ModelModifier.js_or message (Some (Js.units "unknown")))
            ++ Js.units "]]" ++ [34%N])
  end.

(** What one entry adds to [parts], if anything. *)
Definition part (k : Js.jsstring) (v : Value) : option Js.jsstring :=
  match v with
  | VUndefined => None
  | VNull => Some (k ++ Js.units "=null")
  | VString s => Some (k ++ Js.units "=" ++ cut 120 s)
  | VNumber text => Some (k ++ Js.units "=" ++ cut 120 text)
  | VBoolean b =>
      Some (k ++ Js.units "=" ++ cut 120 (Js.units (if b then "true" else "false")))
  | VOther json => Some (k ++ Js.units "=" ++ Js.shown (safeJson json 200))
  end.

(** [kvString(ctx)]; [None] is a context that is falsy or no object. *)
Definition kvString (ctx : option (Js.obj Js.jsstring Value)) : Js.jsstring :=
  match ctx with
  | None => []
  | Some entries =>
      let parts := omap (λ kv, part kv.1 kv.2) entries in
      if bool_decide (length parts = 0) then []
      else Js.units " | " ++ Js.join (Js.units " ") parts
  end.

(** The methods of the console, and whether [console.debug] and
    [console.info] are there. *)
Inductive Method :=
  | console_debug | console_info | console_warn | console_error | console_log.

Record Console := mkConsole {
  has_debug : bool;
  has_info : bool
}.

(** [toConsoleFn(level)] *)
Definition toConsoleFn (console : Console) (level : Level) : Method :=
  match level with
  | debug => if has_debug console then console_debug else console_log
  | info => if has_info console then console_info else console_log
  | warn => console_warn
  | error => console_error
  end.

(** The name of a level, and [level.toUpperCase()]. *)
Definition level_name (level : Level) : string :=
  match level with
  | debug => "debug" | info => "info" | warn => "warn" | error => "error"
  end.

Definition level_upper (level : Level) : string :=
  match level with
  | debug => "DEBUG" | info => "INFO" | warn => "WARN" | error => "ERROR"
  end.

(** A call of a console method with the line and the payload. *)
Record Call := mkCall {
  call_method : Method;
  call_line : Js.jsstring;
  call_payload : Js.obj Js.jsstring Value
}.

(** [emit(level, event, message, context = {})] in a logger of the
    given scope and minimum level; [ts] is what [nowIso()] gives. *)
Definition emit (console : Console) (minLevel : option nat) (scope : Js.jsstring)
    (ts : Js.jsstring) (level : Level) (event message : Js.jsstring)
    (context : option (Js.obj Js.jsstring Value)) : list Call :=
  if negb (shouldLog minLevel level) then []
  else
    let context := default [] context in
    let payload :=
      Js.spread
        [(Js.units "ts", VString ts);
         (Js.units "level", VString (Js.units (level_name level)));
         (Js.units "scope", VString scope);
         (Js.units "event", VString event);
         (Js.units "message", VString message)]
        context in
    let line :=
      Js.units "[LDVC][" ++ Js.units (level_upper level) ++ Js.units "]["
      ++ scope ++ Js.units "] " ++ message
      ++ kvString (Some (Js.spread [(Js.units "event", VString event)] context)) in
    [mkCall (toConsoleFn console level) line payload].

(** [createLogger({ scope })]: the minimum level is resolved once. *)
Definition createLogger (env : Env) (console : Console) (scope : Js.jsstring)
    : Js.jsstring → Level → Js.jsstring → Js.jsstring
      → option (Js.obj Js.jsstring Value) → list Call :=
  emit console (resolveMinLevel env) scope.

End Logger.

(** ** The navigator store
       ([frontend/src/features/navigator/navigator.store.js]) *)

Module Navigator.

(** An entry of [contexts]. *)
Record Context := mkContext {
  ctx_id : string;
  ctx_name : string;
  ctx_description : string;
  aggregateCount : nat;
  userStoryCount : nat;
  userStoryIds : list string
}.

(** What [addContext] is given; [userStoryIds] may be missing. *)
Record ContextData := mkContextData {
  cd_id : string;
  cd_name : string;
  cd_description : string;
  cd_userStoryIds : option (list string)
}.

(** What [addUserStory] is given; [role], [action] and [name] may be
    missing. *)
Record UserStoryData := mkUserStoryData {
  usd_id : string;
  usd_role : option Js.jsstring;
  usd_action : option Js.jsstring;
  usd_benefit : string;
  usd_priority : string;
  usd_name : option Js.jsstring
}.

(** An entry of [userStories], the unassigned stories at root level. *)
Record UserStoryItem := mkUserStory {
  us_id : string;
  us_role : option Js.jsstring;
  us_action : option Js.jsstring;
  us_benefit : string;
  us_priority : string;
  us_type : string;
  us_name : Js.jsstring
}.

(** The nodes of a context tree. An array that is missing is [None]. *)
Record EventItem := mkEvent {
  evt_id : string;
  evt_name : string;
  evt_type : string
}.

Record CommandItem := mkCommand {
  cmd_id : string;
  cmd_name : string;
  cmd_type : string;
  cmd_events : option (list EventItem)
}.

Record AggregateItem := mkAggregate {
  agg_id : string;
  agg_name : string;
  agg_type : string;
  agg_commands : option (list CommandItem);
  agg_events : option (list EventItem)
}.

Record PolicyItem := mkPolicy {
  pol_id : string;
  pol_name : string;
  pol_type : string
}.

Record Tree := mkTree {
  tree_id : string;
  tree_aggregates : option (list AggregateItem);
  tree_policies : option (list PolicyItem);
  tree_userStories : list UserStoryItem
}.

(** What [addAggregate], [addCommand], [addEvent] and [addPolicy] are
    given. *)
Record NodeData := mkNodeData {
  nd_id : string;
  nd_name : string;
  nd_parentId : string
}.

(** The refs of the store; [timers] are the identifiers whose
    [setTimeout] has not fired yet, oldest first. A ref is taken as a
    variable that holds its value. [contextTrees] and
    [userStoryAssignments] hold the own properties of two plain
    objects, which have the prototype they were made with,
    [Object.prototype], and that is taken as the language makes it: a
    call that writes to it, or gives the trees another prototype, leaves
    what this record describes, and the definitions say where. *)
Record State := mkState {
  contexts : list Context;
  contextTrees : Js.obj string Tree;
  userStories : list UserStoryItem;
  loading : bool;
  error : option string;
  expandedNodes : gset string;
  newlyAddedIds : gset string;
  userStoryAssignments : gmap string string;
  timers : list string
}.

Definition with_contexts (cs : list Context) (st : State) : State :=
  {| contexts := cs; contextTrees := contextTrees st;
     userStories := userStories st; loading := loading st; error := error st;
     expandedNodes := expandedNodes st; newlyAddedIds := newlyAddedIds st;
     userStoryAssignments := userStoryAssignments st; timers := timers st |}.

Definition with_trees (trees : Js.obj string Tree) (st : State) : State :=
  {| contexts := contexts st; contextTrees := trees;
     userStories := userStories st; loading := loading st; error := error st;
     expandedNodes := expandedNodes st; newlyAddedIds := newlyAddedIds st;
     userStoryAssignments := userStoryAssignments st; timers := timers st |}.

Definition with_userStories (us : list UserStoryItem) (st : State) : State :=
  {| contexts := contexts st; contextTrees := contextTrees st;
     userStories := us; loading := loading st; error := error st;
     expandedNodes := expandedNodes st; newlyAddedIds := newlyAddedIds st;
     userStoryAssignments := userStoryAssignments st; timers := timers st |}.

Definition with_expanded (nodes : gset string) (st : State) : State :=
  {| contexts := contexts st; contextTrees := contextTrees st;
     userStories := userStories st; loading := loading st; error := error st;
     expandedNodes := nodes; newlyAddedIds := newlyAddedIds st;
     userStoryAssignments := userStoryAssignments st; timers := timers st |}.

Definition with_loading (flag : bool) (st : State) : State :=
  {| contexts := contexts st; contextTrees := contextTrees st;
     userStories := userStories st; loading := flag; error := error st;
     expandedNodes := expandedNodes st; newlyAddedIds := newlyAddedIds st;
     userStoryAssignments := userStoryAssignments st; timers := timers st |}.

Definition with_error (err : option string) (st : State) : State :=
  {| contexts := contexts st; contextTrees := contextTrees st;
     userStories := userStories st; loading := loading st; error := err;
     expandedNodes := expandedNodes st; newlyAddedIds := newlyAddedIds st;
     userStoryAssignments := userStoryAssignments st; timers := timers st |}.

Definition with_assignments (asg : gmap string string) (st : State) : State :=
  {| contexts := contexts st; contextTrees := contextTrees st;
     userStories := userStories st; loading := loading st; error := error st;
     expandedNodes := expandedNodes st; newlyAddedIds := newlyAddedIds st;
     userStoryAssignments := asg; timers := timers st |}.

(** [expandedNodes.value.add(nodeId)] *)
Definition expand (nodeId : string) (st : State) : State :=
  with_expanded (expandedNodes st ∪ {[nodeId]}) st.

(** [markAsNew(itemId)] *)
Definition markAsNew (itemId : string) (st : State) : State :=
  {| contexts := contexts st; contextTrees := contextTrees st;
     userStories := userStories st; loading := loading st; error := error st;
     expandedNodes := expandedNodes st;
     newlyAddedIds := newlyAddedIds st ∪ {[itemId]};
     userStoryAssignments := userStoryAssignments st;
     timers := timers st ++ [itemId] |}.

(** The callback of the oldest timer: every timer is set for the same
    delay, so they fire in the order in which they were set. *)
Definition fire (st : State) : State :=
  match timers st with
  | [] => st
  | itemId :: rest =>
      {| contexts := contexts st; contextTrees := contextTrees st;
         userStories := userStories st; loading := loading st; error := error st;
         expandedNodes := expandedNodes st;
         newlyAddedIds := newlyAddedIds st ∖ {[itemId]};
         userStoryAssignments := userStoryAssignments st;
         timers := rest |}
  end.

(** [isNewlyAdded(nodeId)] *)
Definition isNewlyAdded (nodeId : string) (st : State) : bool :=
  bool_decide (nodeId ∈ newlyAddedIds st).

(** [addItemToTree(contextId, item)], given the item's id. *)
Definition addItemToTree (contextId itemId : string) (st : State) : State :=
  markAsNew itemId st.

(** [userStories.value.some(us => us.id === id)] *)
Definition some_story (id : string) (l : list UserStoryItem) : bool :=
  existsb (λ us, bool_decide (us_id us = id)) l.

(** [usData.name || `${usData.role}: ${usData.action?.substring(0, 30)}...`] *)
Definition story_name (usData : UserStoryData) : Js.jsstring :=
  default []
    (ModelModifier.js_or (usd_name usData)
       (Some (Js.shown (usd_role usData) ++ Js.units ": "
              ++ Js.shown (take 30 <$> usd_action usData) ++ Js.units "..."))).

(** [addUserStory(usData)] *)
Definition addUserStory (usData : UserStoryData) (st : State) : State :=
  let exists_ := some_story (usd_id usData) (userStories st) in
  if negb exists_ then
    markAsNew (usd_id usData)
      (with_userStories
         (userStories st ++
          [{| us_id := usd_id usData; us_role := usd_role usData;
              us_action := usd_action usData; us_benefit := usd_benefit usData;
              us_priority := usd_priority usData; us_type := "UserStory";
              us_name := story_name usData |}]) st)
  else st.

(** [contexts.value.some(c => c.id === id)] *)
Definition some_context (id : string) (cs : list Context) : bool :=
  existsb (λ c, bool_decide (ctx_id c = id)) cs.

(** [addContext(contextData)] *)
Definition addContext (contextData : ContextData) (st : State) : State :=
  let exists_ := some_context (cd_id contextData) (contexts st) in
  if negb exists_ then
    expand (cd_id contextData)
      (markAsNew (cd_id contextData)
         (with_contexts
            (contexts st ++
             [{| ctx_id := cd_id contextData;
                 ctx_name := cd_name contextData;
                 ctx_description := cd_description contextData;
                 aggregateCount := 0;
                 userStoryCount := 0;
                 userStoryIds := default [] (cd_userStoryIds contextData) |}]) st))
  else st.

(** [findIndex(us => us.id === usId)] followed by [splice(usIndex, 1)]. *)
Fixpoint remove_story (usId : string) (l : list UserStoryItem) : list UserStoryItem :=
  match l with
  | [] => []
  | us :: rest =>
      if bool_decide (us_id us = usId) then rest
      else us :: remove_story usId rest
  end.

(** [find(c => c.id === bcId)] followed by
    [bc.userStoryCount = (bc.userStoryCount || 0) + 1] on the entry found. *)
Fixpoint count_story (bcId : string) (cs : list Context) : list Context :=
  match cs with
  | [] => []
  | c :: rest =>
      if bool_decide (ctx_id c = bcId)
      then {| ctx_id := ctx_id c; ctx_name := ctx_name c;
              ctx_description := ctx_description c;
              aggregateCount := aggregateCount c;
              userStoryCount := userStoryCount c + 1;
              userStoryIds := userStoryIds c |} :: rest
      else c :: count_story bcId rest
  end.

(** [userStoryAssignments.value[usId] = bcId]. The name ["__proto__"],
    unless it is an own property, is the accessor of
    [Object.prototype], whose setter does nothing with a string: no
    property is stored. *)
Definition assigned_to (usId bcId : string) (assignments : gmap string string)
    : gmap string string :=
  match assignments !! usId with
  | Some _ => <[usId := bcId]> assignments
  | None =>
      if bool_decide (usId = "__proto__") then assignments
      else <[usId := bcId]> assignments
  end.

(** [assignUserStoryToBC(usId, bcId, bcName)] *)
Definition assignUserStoryToBC (usId bcId bcName : string) (st : State) : State :=
  markAsNew usId
    {| contexts := count_story bcId (contexts st);
       contextTrees := contextTrees st;
       userStories := remove_story usId (userStories st);
       loading := loading st; error := error st;
       expandedNodes := expandedNodes st;
       newlyAddedIds := newlyAddedIds st;
       userStoryAssignments := assigned_to usId bcId (userStoryAssignments st);
       timers := timers st |}.

(** *** The context trees *)

(** [list?.some(x => x.id === id)] on an array that may be missing. *)
Definition some_id {A} (id_of : A → string) (id : string) (l : option (list A)) : bool :=
  match l with
  | Some l => existsb (λ a, bool_decide (id_of a = id)) l
  | None => false
  end.

(** [if (!list) list = []] followed by [list.push(a)]. *)
Definition push {A} (l : option (list A)) (a : A) : option (list A) :=
  Some (default [] l ++ [a]).

(** The first entry that satisfies [p] is replaced by its image. *)
Fixpoint update_first {A} (p : A → bool) (f : A → A) (l : list A) : list A :=
  match l with
  | [] => []
  | a :: rest => if p a then f a :: rest else a :: update_first p f rest
  end.

(** The tree that [addAggregate] and [addPolicy] put where none is. *)
Definition new_tree (bcId : string) : Tree :=
  {| tree_id := bcId; tree_aggregates := Some []; tree_policies := Some [];
     tree_userStories := [] |}.

(** What [contextTrees.value[key]] yields: the tree stored under the
    key; for a name that every object inherits and that is no own
    property, the inherited value, which is truthy and no tree (a
    method of [Object.prototype], [Object] for ["constructor"], the
    prototype itself for ["__proto__"]); or undefined. *)
Inductive Read :=
  | Stored (tree : Tree)
  | Inherited
  | Absent.

Definition read (key : string) (trees : Js.obj string Tree) : Read :=
  match Js.get key trees with
  | Some tree => Stored tree
  | None => if bool_decide (key ∈ Logger.inherited_names) then Inherited else Absent
  end.

(** [contextTrees.value[key] = tree]. An inherited method is shadowed
    by a property of the object. The name ["__proto__"], unless it is
    an own property, is the accessor of [Object.prototype]: the
    assignment stores no property and makes the tree the prototype of
    the trees object, through which later reads would go; that is not
    described here. *)
Definition store (key : string) (tree : Tree) (trees : Js.obj string Tree)
    : Js.obj string Tree :=
  match Js.get key trees with
  | Some _ => Js.assign key tree trees
  | None =>
      if bool_decide (key = "__proto__") then trees else Js.create key tree trees
  end.

(** [if (!contextTrees.value[bcId]) contextTrees.value[bcId] = {...}]:
    an inherited value is truthy, so no tree is made for such a name. *)
Definition ensure_tree (bcId : string) (trees : Js.obj string Tree)
    : Js.obj string Tree :=
  match read bcId trees with
  | Stored _ | Inherited => trees
  | Absent => store bcId (new_tree bcId) trees
  end.

(** [find(c => c.id === bcId)] followed by
    [bc.aggregateCount = (bc.aggregateCount || 0) + 1]. *)
Fixpoint count_aggregate (bcId : string) (cs : list Context) : list Context :=
  match cs with
  | [] => []
  | c :: rest =>
      if bool_decide (ctx_id c = bcId)
      then {| ctx_id := ctx_id c; ctx_name := ctx_name c;
              ctx_description := ctx_description c;
              aggregateCount := aggregateCount c + 1;
              userStoryCount := userStoryCount c;
              userStoryIds := userStoryIds c |} :: rest
      else c :: count_aggregate bcId rest
  end.

Definition with_aggregates (aggs : option (list AggregateItem)) (tree : Tree) : Tree :=
  {| tree_id := tree_id tree; tree_aggregates := aggs;
     tree_policies := tree_policies tree;
     tree_userStories := tree_userStories tree |}.

Definition with_policies (pols : option (list PolicyItem)) (tree : Tree) : Tree :=
  {| tree_id := tree_id tree; tree_aggregates := tree_aggregates tree;
     tree_policies := pols; tree_userStories := tree_userStories tree |}.

(** [addAggregate(aggregateData)]. Under an inherited name [tree] is
    the inherited value: it has no [aggregates], so the aggregate is
    new, and it is pushed onto an array that is put on that value,
    outside the store; the trees are copied as they are, and the
    context is counted, highlighted and expanded as for a tree. *)
Definition addAggregate (aggregateData : NodeData) (st : State) : State :=
  let bcId := nd_parentId aggregateData in
  let trees := ensure_tree bcId (contextTrees st) in
  match read bcId trees with
  | Stored tree =>
      let exists_ := some_id agg_id (nd_id aggregateData) (tree_aggregates tree) in
      if negb exists_ then
        let tree' :=
          with_aggregates
            (push (tree_aggregates tree)
               {| agg_id := nd_id aggregateData; agg_name := nd_name aggregateData;
                  agg_type := "Aggregate"; agg_commands := Some [];
                  agg_events := Some [] |}) tree in
        expand bcId
          (markAsNew (nd_id aggregateData)
             (with_contexts (count_aggregate bcId (contexts st))
                (with_trees (Js.set bcId tree' trees) st)))
      else with_trees trees st
  | Inherited =>
      expand bcId
        (markAsNew (nd_id aggregateData)
           (with_contexts (count_aggregate bcId (contexts st))
              (with_trees trees st)))
  | Absent => with_trees trees st
  end.

(** [addPolicy(policyData)]. Under an inherited name the policy is
    pushed onto an array that is put on the inherited value, outside
    the store, and it is highlighted. *)
Definition addPolicy (policyData : NodeData) (st : State) : State :=
  let bcId := nd_parentId policyData in
  let trees := ensure_tree bcId (contextTrees st) in
  match read bcId trees with
  | Stored tree =>
      let exists_ := some_id pol_id (nd_id policyData) (tree_policies tree) in
      if negb exists_ then
        let tree' :=
          with_policies
            (push (tree_policies tree)
               {| pol_id := nd_id policyData; pol_name := nd_name policyData;
                  pol_type := "Policy" |}) tree in
        markAsNew (nd_id policyData) (with_trees (Js.set bcId tree' trees) st)
      else with_trees trees st
  | Inherited => markAsNew (nd_id policyData) (with_trees trees st)
  | Absent => with_trees trees st
  end.

(** [list?.find(x => x.id === id)] *)
Definition find_id {A} (id_of : A → string) (id : string) (l : option (list A))
    : option A :=
  l ≫= λ l, snd <$> list_find (λ a, id_of a = id) l.

Definition with_commands (cmds : option (list CommandItem)) (a : AggregateItem)
    : AggregateItem :=
  {| agg_id := agg_id a; agg_name := agg_name a; agg_type := agg_type a;
     agg_commands := cmds; agg_events := agg_events a |}.

Definition with_agg_events (evts : option (list EventItem)) (a : AggregateItem)
    : AggregateItem :=
  {| agg_id := agg_id a; agg_name := agg_name a; agg_type := agg_type a;
     agg_commands := agg_commands a; agg_events := evts |}.

Definition with_cmd_events (evts : option (list EventItem)) (c : CommandItem)
    : CommandItem :=
  {| cmd_id := cmd_id c; cmd_name := cmd_name c; cmd_type := cmd_type c;
     cmd_events := evts |}.

(** The outcome of a search through the trees: nothing found, found
    with nothing to add, or the structure after the addition. *)
Inductive Search (A : Type) :=
  | Missing
  | Known
  | Added (a : A).

Arguments Missing {A}.
Arguments Known {A}.
Arguments Added {A} a.

(** The [for ... in] loop of [addCommand] over the trees: it stops at
    the first tree that holds the aggregate. *)
Fixpoint addCommand_trees (commandData : NodeData) (trees : Js.obj string Tree)
    : Search (Js.obj string Tree) :=
  match trees with
  | [] => Missing
  | (bcId, tree) :: rest =>
      match find_id agg_id (nd_parentId commandData) (tree_aggregates tree) with
      | Some aggregate =>
          let exists_ :=
            some_id cmd_id (nd_id commandData) (agg_commands aggregate) in
          if negb exists_ then
            let aggregate' :=
              with_commands
                (push (agg_commands aggregate)
                   {| cmd_id := nd_id commandData; cmd_name := nd_name commandData;
                      cmd_type := "Command"; cmd_events := Some [] |}) aggregate in
            Added ((bcId,
                    with_aggregates
                      (update_first
                         (λ a, bool_decide (agg_id a = nd_parentId commandData))
                         (λ _, aggregate') <$> tree_aggregates tree) tree) :: rest)
          else Known
      | None =>
          match addCommand_trees commandData rest with
          | Added rest' => Added ((bcId, tree) :: rest')
          | Known => Known
          | Missing => Missing
          end
      end
  end.

(** [addCommand(commandData)] *)
Definition addCommand (commandData : NodeData) (st : State) : State :=
  match addCommand_trees commandData (contextTrees st) with
  | Added trees =>
      expand (nd_parentId commandData)
        (markAsNew (nd_id commandData) (with_trees trees st))
  | Known | Missing => st
  end.

(** The event as [addEvent] pushes it. *)
Definition new_event (eventData : NodeData) : EventItem :=
  {| evt_id := nd_id eventData; evt_name := nd_name eventData; evt_type := "Event" |}.

(** The inner loop of [addEvent] over the aggregates of one tree. The
    boolean tells whether the parent was a command, in which case the
    parent is expanded. *)
Fixpoint addEvent_aggregates (eventData : NodeData) (aggs : list AggregateItem)
    : Search (list AggregateItem * bool) :=
  match aggs with
  | [] => Missing
  | aggregate :: rest =>
      match find_id cmd_id (nd_parentId eventData) (agg_commands aggregate) with
      | Some command =>
          let exists_ := some_id evt_id (nd_id eventData) (cmd_events command) in
          if negb exists_ then
            let command' :=
              with_cmd_events (push (cmd_events command) (new_event eventData))
                command in
            let commands' :=
              update_first (λ c, bool_decide (cmd_id c = nd_parentId eventData))
                (λ _, command') <$> agg_commands aggregate in
            let events :=
              match agg_events aggregate with
              | Some evts => Some evts
              | None => Some []
              end in
            let events' :=
              if negb (some_id evt_id (nd_id eventData) events)
              then push events (new_event eventData) else events in
            Added (with_agg_events events' (with_commands commands' aggregate) :: rest,
                   true)
          else Known
      | None =>
          if bool_decide (agg_id aggregate = nd_parentId eventData) then
            let exists_ := some_id evt_id (nd_id eventData) (agg_events aggregate) in
            if negb exists_ then
              Added (with_agg_events
                       (push (agg_events aggregate) (new_event eventData))
                       aggregate :: rest, false)
            else Known
          else
            match addEvent_aggregates eventData rest with
            | Added (rest', parent_is_command) =>
                Added (aggregate :: rest', parent_is_command)
            | Known => Known
            | Missing => Missing
            end
      end
  end.

(** The outer loop over the trees; [tree.aggregates || []]. *)
Fixpoint addEvent_trees (eventData : NodeData) (trees : Js.obj string Tree)
    : Search (Js.obj string Tree * bool) :=
  match trees with
  | [] => Missing
  | (bcId, tree) :: rest =>
      match addEvent_aggregates eventData (default [] (tree_aggregates tree)) with
      | Added (aggs', parent_is_command) =>
          Added ((bcId, with_aggregates (Some aggs') tree) :: rest, parent_is_command)
      | Known => Known
      | Missing =>
          match addEvent_trees eventData rest with
          | Added (rest', parent_is_command) =>
              Added ((bcId, tree) :: rest', parent_is_command)
          | Known => Known
          | Missing => Missing
          end
      end
  end.

(** [addEvent(eventData)] *)
Definition addEvent (eventData : NodeData) (st : State) : State :=
  match addEvent_trees eventData (contextTrees st) with
  | Added (trees, parent_is_command) =>
      let st1 := markAsNew (nd_id eventData) (with_trees trees st) in
      if parent_is_command then expand (nd_parentId eventData) st1 else st1
  | Known | Missing => st
  end.

(** *** Expanding and clearing *)

(** [toggleExpanded(nodeId)] *)
Definition toggleExpanded (nodeId : string) (st : State) : State :=
  with_expanded
    (if bool_decide (nodeId ∈ expandedNodes st)
     then expandedNodes st ∖ {[nodeId]}
     else expandedNodes st ∪ {[nodeId]}) st.

(** [isExpanded(nodeId)] *)
Definition isExpanded (nodeId : string) (st : State) : bool :=
  bool_decide (nodeId ∈ expandedNodes st).

(** [expandAll()]: the contexts, and the aggregates of their trees. *)
Definition expandAll (st : State) : State :=
  foldl
    (λ st ctx,
       let st1 := expand (ctx_id ctx) st in
       match Js.get (ctx_id ctx) (contextTrees st) with
       | Some tree =>
           foldl (λ st agg, expand (agg_id agg) st) st1
             (default [] (tree_aggregates tree))
       | None => st1
       end)
    st (contexts st).

(** [collapseAll()] *)
Definition collapseAll (st : State) : State := with_expanded ∅ st.

(** [clearAll()] *)
Definition clearAll (st : State) : State :=
  {| contexts := []; contextTrees := []; userStories := [];
     loading := loading st; error := error st;
     expandedNodes := ∅; newlyAddedIds := ∅;
     userStoryAssignments := ∅; timers := timers st |}.

(** *** Talking to the server *)

(** How a request ends: [fetch] or [response.json()] rejects with an
    error of the given message, the response is not ok and has the
    given status, or the body is the value expected. *)
Inductive Reply (A : Type) :=
  | Failed (message : string)
  | Refused (status : string)
  | Answer (a : A).

Arguments Failed {A} message.
Arguments Refused {A} status.
Arguments Answer {A} a.

(** The server, as it answers during one call of the store. *)
Record Server := mkServer {
  unassigned_stories : Reply (list UserStoryItem);
  all_contexts : Reply (list Context);
  full_tree : string → Reply Tree
}.

(** What leaves the store: a request for a URL, and a call of the
    logger with a level and an event name. *)
Inductive Effect :=
  | Request (url : string)
  | Log (level : Logger.Level) (event : string).

(** [fetchUserStories()] *)
Definition fetchUserStories (server : Server) (st : State) : State * list Effect :=
  match unassigned_stories server with
  | Answer stories =>
      (with_userStories stories st, [Request "/api/user-stories/unassigned"])
  | Failed _ | Refused _ =>
      (st, [Request "/api/user-stories/unassigned";
            Log Logger.error "navigator_fetch_user_stories_failed"])
  end.

(** [fetchContexts()] *)
Definition fetchContexts (server : Server) (st : State) : State * list Effect :=
  let st1 := with_error None (with_loading true st) in
  match all_contexts server with
  | Answer cs => (with_loading false (with_contexts cs st1), [Request "/api/contexts"])
  | Failed message =>
      (with_loading false (with_error (Some message) st1),
       [Request "/api/contexts"; Log Logger.error "navigator_fetch_contexts_failed"])
  | Refused _ =>
      (with_loading false (with_error (Some "Failed to fetch contexts") st1),
       [Request "/api/contexts"; Log Logger.error "navigator_fetch_contexts_failed"])
  end.

Definition full_tree_url (contextId : string) : string :=
  "/api/contexts/" +:+ contextId +:+ "/full-tree".

(** What [fetchContextTree] returns: a tree, the value inherited under
    the name asked for, or null. *)
Inductive Fetched :=
  | FetchedTree (tree : Tree)
  | InheritedValue
  | NoTree.

(** [fetchContextTree(contextId, forceRefresh = false)]: whatever
    [contextTrees.value[contextId]] yields, if it is truthy, is
    returned without a request. *)
Definition fetchContextTree (server : Server) (contextId : string)
    (forceRefresh : bool) (st : State) : State * list Effect * Fetched :=
  match (if forceRefresh then Absent else read contextId (contextTrees st)) with
  | Stored tree => (st, [], FetchedTree tree)
  | Inherited => (st, [], InheritedValue)
  | Absent =>
      match full_tree server contextId with
      | Answer tree =>
          (with_trees (store contextId tree (contextTrees st)) st,
           [Request (full_tree_url contextId)], FetchedTree tree)
      | Failed _ | Refused _ =>
          (st, [Request (full_tree_url contextId);
                Log Logger.error "navigator_fetch_context_tree_failed"], NoTree)
      end
  end.

(** The loop of [refreshAll] over the contexts. The tree of a context
    called ["__proto__"] is not stored but made the prototype of the
    trees ([store]); what [expandAll], which follows the loop, reads
    through that prototype is not described here. *)
Fixpoint reload_trees (server : Server) (cs : list Context) (st : State)
    : State * list Effect :=
  match cs with
  | [] => (st, [])
  | ctx :: rest =>
      let '(st1, e1, _) := fetchContextTree server (ctx_id ctx) true st in
      let '(st2, e2) := reload_trees server rest st1 in
      (st2, Log Logger.debug "navigator_refresh_tree_fetch_attempt" :: e1 ++ e2)
  end.

(** [refreshAll(meta = {})] *)
Definition refreshAll (server : Server) (st : State) : State * list Effect :=
  let st1 := with_error None (with_loading true st) in
  let '(st2, e2) := fetchUserStories server st1 in
  let opening :=
    [Log Logger.info "navigator_refresh_started";
     Log Logger.debug "navigator_refresh_step_start"]
    ++ e2
    ++ [Log Logger.info "navigator_refresh_step_completed";
        Log Logger.debug "navigator_refresh_step_start";
        Request "/api/contexts"] in
  let failed (message : string) :=
    (with_loading false (with_error (Some message) st2),
     opening ++ [Log Logger.error "navigator_refresh_failed"]
     ++ (if bool_decide (message = "")
         then [Log Logger.info "navigator_refresh_completed"] else [])) in
  match all_contexts server with
  | Answer cs =>
      let st3 := with_assignments ∅ (with_trees [] (with_contexts cs st2)) in
      let '(st4, e4) := reload_trees server cs st3 in
      (with_loading false (expandAll st4),
       opening
       ++ [Log Logger.info "navigator_refresh_step_completed";
           Log Logger.info "navigator_refresh_tree_reload_started"]
       ++ e4
       ++ [Log Logger.info "navigator_refresh_tree_reload_completed";
           Log Logger.debug "navigator_refresh_expand_all_completed";
           Log Logger.info "navigator_refresh_completed"])
  | Failed message => failed message
  | Refused status => failed ("Failed to fetch contexts (http " +:+ status +:+ ")")
  end.

(** *** What the tree shows *)

(** The aggregates shown under a context, and its policies. *)
Definition aggregates_of (bcId : string) (st : State) : list AggregateItem :=
  default [] (Js.get bcId (contextTrees st) ≫= tree_aggregates).






(** The badge of every context counts the aggregates of its tree. *)
Definition counted (st : State) : Prop :=
  ∀ c, c ∈ contexts st → aggregateCount c = length (aggregates_of (ctx_id c) st).

(** Every highlight has a timer that will take it away. *)
Definition pending (st : State) : Prop :=
  ∀ x, x ∈ newlyAddedIds st → x ∈ timers st.

(** One thing that happens to the store: a call of one of its
    functions, or a timer that fires. *)
Inductive step : State → State → Prop :=
  | step_addUserStory usData st : step st (addUserStory usData st)
  | step_addContext contextData st : step st (addContext contextData st)
  | step_assignUserStoryToBC usId bcId bcName st :
      step st (assignUserStoryToBC usId bcId bcName st)
  | step_addAggregate aggregateData st : step st (addAggregate aggregateData st)
  | step_addCommand commandData st : step st (addCommand commandData st)
  | step_addEvent eventData st : step st (addEvent eventData st)
  | step_addPolicy policyData st : step st (addPolicy policyData st)
  | step_addItemToTree contextId itemId st : step st (addItemToTree contextId itemId st)
  | step_toggleExpanded nodeId st : step st (toggleExpanded nodeId st)
  | step_expandAll st : step st (expandAll st)
  | step_collapseAll st : step st (collapseAll st)
  | step_clearAll st : step st (clearAll st)
  | step_fetchUserStories server st : step st (fetchUserStories server st).1
  | step_fetchContexts server st : step st (fetchContexts server st).1
  | step_fetchContextTree server contextId forceRefresh st :
      step st (fetchContextTree server contextId forceRefresh st).1.1
  | step_refreshAll server st : step st (refreshAll server st).1
  | step_fire st : step st (fire st).








(** The identifiers [expandAll] goes through. *)
Definition expandable (st : State) : list string :=
  contexts st ≫= λ ctx, ctx_id ctx :: (agg_id <$> aggregates_of (ctx_id ctx) st).

(** Every timer that is set fires. *)
Definition fire_all (st : State) : State :=
  Nat.iter (length (timers st)) fire st.

(** What a call does to the highlights: nothing, or one more
    highlight with its timer. *)
Definition marks (st st' : State) : Prop :=
  (newlyAddedIds st' = newlyAddedIds st ∧ timers st' = timers st)
  ∨ ∃ x, newlyAddedIds st' = newlyAddedIds st ∪ {[x]} ∧ timers st' = timers st ++ [x].

(** The requests among the effects, in order. *)
Definition requests (effects : list Effect) : list string :=
  omap (λ e, match e with Request url => Some url | Log _ _ => None end) effects.

(** The tree the server answers with, if it does. *)
Definition answered (server : Server) (contextId : string) : option Tree :=
  match full_tree server contextId with
  | Answer tree => Some tree
  | Failed _ | Refused _ => None
  end.

(** The stories the store accounts for: those waiting at root level
    and those counted under a context. *)
Definition stories_total (st : State) : nat :=
  length (userStories st) + sum_list (userStoryCount <$> contexts st).

Definition sample_state : State :=
  {| contexts := [mkContext "BC_ORDER" "Order" "" 2 0 []];
     contextTrees := [];
     userStories :=
       [mkUserStory "US_001" (Some (Js.units "customer"))
          (Some (Js.units "create an order")) "" "high" "UserStory"
          (Js.units "customer: create an order...")];
     loading := false; error := None;
     expandedNodes := {[ "BC_ORDER" ]};
     newlyAddedIds := ∅;
     userStoryAssignments := ∅;
     timers := [] |}.

End Navigator.

(** ** The application shell ([App.vue]): after a user story was saved *)

Module App.

(** What leaves the component: what the store does on its behalf, and
    the calls of the component's own logger (scope [App]). *)
Inductive Effect :=
  | InStore (e : Navigator.Effect)
  | Log (level : Logger.Level) (event : string).

(** [getNavigatorSnapshot().navigatorError], as the [if] takes it:
    null and the empty string are both falsy. *)
Definition navigatorError (st : Navigator.State) : bool :=
  match Navigator.error st with
  | Some message => negb (bool_decide (message = ""))
  | None => false
  end.

(** [handleUserStorySaved()]. The store catches what its requests
    throw, so the handler's own [catch] is not entered. *)
Definition handleUserStorySaved (server : Navigator.Server) (st : Navigator.State)
    : Navigator.State * list Effect :=
  let '(st1, e1) := Navigator.refreshAll server st in
  (st1,
   [Log Logger.info "user_story_saved_event_received"]
   ++ (InStore <$> e1)
   ++ [if navigatorError st1
       then Log Logger.warn "navigator_refresh_completed_with_error"
       else Log Logger.info "navigator_refresh_completed"]).

End App.

(** ** The v1.1 test data script, statement by statement
       (the minimal test dataset for impact, dirty and change workflows) *)

Module Script.
Import Store.

(** The properties of a relationship: a decimal number, given in
    hundredths, a text or a timestamp. *)
Inductive RelValue :=
  | RDecimal (hundredths : Z)
  | RText (s : string)
  | RTime (t : nat).

#[global] Instance RelValue_eq_dec : EqDecision RelValue.
Proof. solve_decision. Defined.

Definition all_rels : list Rel :=
  [HAS_STORY; HAS_CRITERION;
   HAS_AGGREGATE; HAS_ENTITY; HAS_VALUE_OBJECT; HAS_FIELD;
   REFERS_TO_AGGREGATE; REFERS_TO_FIELD;
   HANDLES_COMMAND; EMITS_EVENT; LISTENS_EVENT; TRIGGERS_COMMAND;
   AFFECTS_AGGREGATE;
   IMPACTS_AGGREGATE; IMPACTS_FIELD; COVERS_COMMAND; COVERS_EVENT].

Definition rel_index (r : Rel) : nat :=
  match r with
  | HAS_STORY => 0 | HAS_CRITERION => 1
  | HAS_AGGREGATE => 2 | HAS_ENTITY => 3 | HAS_VALUE_OBJECT => 4 | HAS_FIELD => 5
  | REFERS_TO_AGGREGATE => 6 | REFERS_TO_FIELD => 7
  | HANDLES_COMMAND => 8 | EMITS_EVENT => 9 | LISTENS_EVENT => 10
  | TRIGGERS_COMMAND => 11
  | AFFECTS_AGGREGATE => 12
  | IMPACTS_AGGREGATE => 13 | IMPACTS_FIELD => 14
  | COVERS_COMMAND => 15 | COVERS_EVENT => 16
  end.

#[global] Instance Rel_countable : Countable Rel.
Proof.
  apply (inj_countable rel_index (λ n, all_rels !! n)).
  intros r. destruct r; reflexivity.
Defined.

#[global] Instance Edge_countable : Countable Edge.
Proof.
  apply (inj_countable' (λ e, (src e, rel e, dst e))
           (λ t, mkEdge t.1.1 t.1.2 t.2)).
  intros e. by destruct e.
Defined.

(** The database: the graph, and the properties of its relationships.
    Relationships of one type between the same two nodes are taken as
    one: [MERGE] matches all of them, and [ON MATCH SET] assigns to
    all of them alike. *)
Record Database := mkDatabase {
  graph : Db;
  rel_props : gmap Edge (gmap string RelValue)
}.

(** The statements of the script:
    - [MERGE (n:k {id: id}) SET n.a = v, ...];
    - [MATCH (a:ka {id: a}), (b:kb {id: b}) MERGE (a)-[:r]->(b)];
    - the same followed by [ON CREATE SET] and [ON MATCH SET], which
      both assign [confidence], [rationale] and [created_at = datetime()];
    - [MATCH (n) WHERE n.dirty = true REMOVE n.dirty, n.dirty_reason,
      n.dirty_at]. *)
Inductive Statement :=
  | MergeNode (k : Kind) (id : string) (attrs : list (string * Value))
  | MergeRel (ka : Kind) (a : string) (r : Rel) (kb : Kind) (b : string)
  | MergeTrace (ka : Kind) (a : string) (r : Rel) (kb : Kind) (b : string)
      (confidence : Z) (rationale : string)
  | RemoveDirty.

(** What [ON CREATE SET] and [ON MATCH SET] assign at the time [now]. *)
Definition trace_props (confidence : Z) (rationale : string) (now : nat)
    (props : gmap string RelValue) : gmap string RelValue :=
  <["created_at" := RTime now]>
    (<["rationale" := RText rationale]>
       (<["confidence" := RDecimal confidence]> props)).

(** One statement, run at the time [now]. *)
Definition exec (now : nat) (s : Statement) (d : Database) : Database :=
  match s with
  | MergeNode k id attrs =>
      {| graph := upsert k (mkPayload id attrs) (graph d); rel_props := rel_props d |}
  | MergeRel ka a r kb b =>
      {| graph := merge_rel ka a r kb b (graph d); rel_props := rel_props d |}
  | MergeTrace ka a r kb b confidence rationale =>
      match store_nodes (graph d) !! (ka, a), store_nodes (graph d) !! (kb, b) with
      | Some _, Some _ =>
          {| graph := merge_rel ka a r kb b (graph d);
             rel_props :=
               <[mkEdge a r b :=
                   trace_props confidence rationale now
                     (default ∅ (rel_props d !! mkEdge a r b))]> (rel_props d) |}
      | _, _ => d
      end
  | RemoveDirty => {| graph := clear_all (graph d); rel_props := rel_props d |}
  end.

(** A script run from its [i]-th statement on, the [j]-th statement at
    the time [clock j]. *)
Fixpoint run_from (i : nat) (clock : nat → nat) (script : list Statement)
    (d : Database) : Database :=
  match script with
  | [] => d
  | s :: rest => run_from (S i) clock rest (exec (clock i) s d)
  end.

Definition run (clock : nat → nat) (script : list Statement) (d : Database)
    : Database :=
  run_from 0 clock script d.

(** The script without its last statement. *)
Definition test_data_body : list Statement :=
  [MergeNode Epic "EP_001"
     [("title", VStr "주문 처리 자동화"); ("description", VStr "테스트용 에픽");
      ("priority", VStr "P1"); ("status", VStr "draft")];
   MergeNode UserStory "US_001"
     [("title", VStr "고객이 주문을 생성한다");
      ("storyText",
       VStr "As a customer, I want to create an order so that I can purchase items.");
      ("priority", VStr "high"); ("status", VStr "draft");
      ("source_hash", VStr "H1")];
   MergeNode AcceptanceCriterion "AC_001"
     [("title", VStr "주문 금액은 0보다 커야 한다");
      ("criterionText", VStr "amount > 0"); ("testType", VStr "rule");
      ("status", VStr "draft"); ("source_hash", VStr "H1")];
   MergeRel Epic "EP_001" HAS_STORY UserStory "US_001";
   MergeRel UserStory "US_001" HAS_CRITERION AcceptanceCriterion "AC_001";
   MergeNode BoundedContext "BC_ORDER"
     [("name", VStr "Order"); ("description", VStr "주문 BC");
      ("domain", VStr "Order"); ("kind", VStr "core"); ("status", VStr "draft");
      ("version", VInt 1)];
   MergeNode Aggregate "AGG_ORDER"
     [("name", VStr "Order"); ("description", VStr "주문 Aggregate");
      ("kind", VStr "root"); ("version", VInt 1); ("status", VStr "draft")];
   MergeNode Aggregate "AGG_STOCK"
     [("name", VStr "Stock"); ("description", VStr "재고 Aggregate");
      ("kind", VStr "root"); ("version", VInt 1); ("status", VStr "draft")];
   MergeRel BoundedContext "BC_ORDER" HAS_AGGREGATE Aggregate "AGG_ORDER";
   MergeRel BoundedContext "BC_ORDER" HAS_AGGREGATE Aggregate "AGG_STOCK";
   MergeNode Field "F_ORDER_AMOUNT"
     [("name", VStr "amount"); ("type", VStr "Money"); ("isKey", VBool false);
      ("isNullable", VBool false); ("isForeignKey", VBool false);
      ("description", VStr "주문 금액")];
   MergeNode Field "F_ORDER_ID"
     [("name", VStr "orderId"); ("type", VStr "UUID"); ("isKey", VBool true);
      ("isNullable", VBool false); ("isForeignKey", VBool false);
      ("description", VStr "주문 ID")];
   MergeRel Aggregate "AGG_ORDER" HAS_FIELD Field "F_ORDER_ID";
   MergeRel Aggregate "AGG_ORDER" HAS_FIELD Field "F_ORDER_AMOUNT";
   MergeTrace UserStory "US_001" IMPACTS_AGGREGATE Aggregate "AGG_ORDER" 90
     "스토리가 주문 생성/관리 책임을 요구";
   MergeTrace AcceptanceCriterion "AC_001" IMPACTS_FIELD Field "F_ORDER_AMOUNT" 100
     "인수조건이 amount 검증 요구";
   MergeNode Command "CMD_PLACE_ORDER"
     [("name", VStr "PlaceOrder"); ("description", VStr "주문 생성");
      ("syncMode", VStr "sync"); ("source", VStr "API")];
   MergeNode Event "EVT_ORDER_PLACED"
     [("name", VStr "OrderPlaced"); ("description", VStr "주문 생성됨");
      ("category", VStr "DomainEvent"); ("reliability", VStr "at-least-once")];
   MergeNode Policy "POL_RESERVE_STOCK"
     [("name", VStr "ReserveStockOnOrderPlaced");
      ("description", VStr "주문 생성 시 재고 예약"); ("kind", VStr "saga");
      ("conditionExpr", VStr "on EVT_ORDER_PLACED")];
   MergeNode Command "CMD_RESERVE_STOCK"
     [("name", VStr "ReserveStock"); ("description", VStr "재고 예약");
      ("syncMode", VStr "async"); ("source", VStr "Policy")];
   MergeRel Aggregate "AGG_ORDER" HANDLES_COMMAND Command "CMD_PLACE_ORDER";
   MergeRel Command "CMD_PLACE_ORDER" EMITS_EVENT Event "EVT_ORDER_PLACED";
   MergeRel Policy "POL_RESERVE_STOCK" LISTENS_EVENT Event "EVT_ORDER_PLACED";
   MergeRel Policy "POL_RESERVE_STOCK" TRIGGERS_COMMAND Command "CMD_RESERVE_STOCK";
   MergeRel Event "EVT_ORDER_PLACED" AFFECTS_AGGREGATE Aggregate "AGG_STOCK";
   MergeTrace AcceptanceCriterion "AC_001" COVERS_COMMAND Command "CMD_PLACE_ORDER" 95
     "인수조건은 주문 생성 커맨드 검증에 연결";
   MergeTrace AcceptanceCriterion "AC_001" COVERS_EVENT Event "EVT_ORDER_PLACED" 90
     "인수조건은 OrderPlaced 이벤트 시나리오에 포함"].

(** The script: the data, then the clean-up of the dirty flags. *)
Definition test_data_script : list Statement :=
  test_data_body ++ [RemoveDirty].

(** *** What a script comes to *)

(** The nodes a script merges, with what it assigns to each, the
    relationships it merges, and those it gives properties, with the
    place of the statement in the script. *)
Definition merged (script : list Statement)
    : list (Kind * string * list (string * Value)) :=
  omap (λ s, match s with MergeNode k id attrs => Some (k, id, attrs) | _ => None end)
    script.

Definition endpoints_of (s : Statement) : list (Kind * string) :=
  match s with
  | MergeRel ka a _ kb b | MergeTrace ka a _ kb b _ _ => [(ka, a); (kb, b)]
  | MergeNode _ _ _ | RemoveDirty => []
  end.

Definition edge_of (s : Statement) : option Edge :=
  match s with
  | MergeRel _ a r _ b | MergeTrace _ a r _ b _ _ => Some (mkEdge a r b)
  | MergeNode _ _ _ | RemoveDirty => None
  end.

(** A script is in order when it merges no node twice, assigns no
    dirty flag, merges both ends of a relationship before the
    relationship, gives properties to no relationship twice, and
    removes no dirty flag. *)
Fixpoint ends_merged (known : list (Kind * string)) (script : list Statement) : bool :=
  match script with
  | [] => true
  | s :: rest =>
      forallb (λ key, bool_decide (key ∈ known)) (endpoints_of s)
      && ends_merged
           (match s with MergeNode k id _ => (k, id) :: known | _ => known end) rest
  end.

Definition traced (script : list Statement) : list Edge :=
  omap (λ s, match s with MergeTrace _ a r _ b _ _ => Some (mkEdge a r b) | _ => None end)
    script.

Definition in_order (script : list Statement) : bool :=
  bool_decide (NoDup ((λ m, (m.1.1, m.1.2)) <$> merged script))
  && forallb (λ m, forallb (λ kv, bool_decide (kv.1 ∉ dirty_keys)) m.2) (merged script)
  && ends_merged [] script
  && bool_decide (NoDup (traced script))
  && forallb (λ s, match s with RemoveDirty => false | _ => true end) script.

(** *** The parts of a database a script acts on *)

(** [MERGE (n:k {id}) SET ...] on the nodes alone. *)
Definition upsert_nodes (k : Kind) (id : string) (attrs : list (string * Value))
    (m : gmap (Kind * string) (gmap string Value)) : gmap (Kind * string) (gmap string Value) :=
  alter (set_all attrs) (k, id)
    (match m !! (k, id) with
     | Some _ => m
     | None => <[(k, id) := {[ "id" := VStr id ]}]> m
     end).

Definition nodes_after (ms : list (Kind * string * list (string * Value)))
    (m : gmap (Kind * string) (gmap string Value)) : gmap (Kind * string) (gmap string Value) :=
  foldl (λ m x, upsert_nodes x.1.1 x.1.2 x.2 m) m ms.

(** [MERGE (a)-[:r]->(b)] on the relationships alone, both ends being
    there. *)
Definition add_edge (l : list Edge) (e : Edge) : list Edge :=
  if bool_decide (e ∈ l) then l else l ++ [e].

(** The properties of the relationships after a script that is run
    from its [i]-th statement on. *)
Fixpoint props_after (i : nat) (clock : nat → nat) (script : list Statement)
    (p : gmap Edge (gmap string RelValue)) : gmap Edge (gmap string RelValue) :=
  match script with
  | [] => p
  | s :: rest =>
      props_after (S i) clock rest
        (match s with
         | MergeTrace _ a r _ b confidence rationale =>
             <[mkEdge a r b :=
                 trace_props confidence rationale (clock i)
                   (default ∅ (p !! mkEdge a r b))]> p
         | _ => p
         end)
  end.

(** The statement that gives properties to a relationship, if one
    does: its place counted from [i], the confidence and the
    rationale. *)
Fixpoint trace_of (i : nat) (script : list Statement) (e : Edge)
    : option (nat * Z * string) :=
  match script with
  | [] => None
  | s :: rest =>
      match s with
      | MergeTrace _ a r _ b confidence rationale =>
          if bool_decide (mkEdge a r b = e) then Some (i, confidence, rationale)
          else trace_of (S i) rest e
      | _ => trace_of (S i) rest e
      end
  end.

(** The script removes no dirty flag. *)
Definition keeps (script : list Statement) : Prop :=
  Forall (λ s, s ≠ RemoveDirty) script.

End Script.

(** * Properties *)

(** ** Impact Analyzer: the loop ends *)

Module ImpactTermination.
Import Impact.

Lemma unvisited_le universe seen m :
  unvisited universe (seen ++ [m]) ≤ unvisited universe seen.
Proof.
  unfold unvisited. induction universe as [|u us IH]; simpl; [lia|].
  rewrite !filter_cons.
  destruct (decide (u ∉ seen ++ [m])) as [Hn|Hn];
    destruct (decide (u ∉ seen)) as [Hs|Hs]; simpl; try lia.
  exfalso. apply Hs. intros Hin. apply Hn. apply elem_of_app. by left.
Qed.

Lemma unvisited_lt universe seen m :
  m ∈ universe → m ∉ seen →
  unvisited universe (seen ++ [m]) < unvisited universe seen.
Proof.
  unfold unvisited. induction universe as [|u us IH]; intros Hin Hfresh.
  - by apply elem_of_nil in Hin.
  - rewrite !filter_cons.
    pose proof (unvisited_le us seen m) as Hle. unfold unvisited in Hle.
    apply elem_of_cons in Hin as [->|Hin].
    + rewrite decide_False, decide_True by (rewrite ?elem_of_app, ?list_elem_of_singleton; tauto).
      simpl. lia.
    + specialize (IH Hin Hfresh).
      destruct (decide (u ∉ seen ++ [m])) as [Hn|Hn];
        destruct (decide (u ∉ seen)) as [Hs|Hs]; simpl; try lia.
      exfalso. apply Hs. intros Hin'. apply Hn. apply elem_of_app. by left.
Qed.

Lemma hop_endpoint g n e m :
  e ∈ edges g → hop n e = Some m → m ∈ endpoints g.
Proof.
  intros He Hh. unfold endpoints. apply elem_of_remove_dups.
  apply list_elem_of_In, in_flat_map. exists e. split; [by apply list_elem_of_In|].
  unfold hop in Hh.
  destruct (rel_class (rel e)); try discriminate;
    repeat (case_match; try discriminate); simplify_eq; simpl; tauto.
Qed.

Lemma neighbours_endpoints g n m : m ∈ neighbours g n → m ∈ endpoints g.
Proof.
  unfold neighbours. rewrite list_elem_of_omap. intros (e & He & Hh).
  by eapply hop_endpoint.
Qed.

Lemma discover_measure g d st m :
  m ∈ endpoints g → measure g (discover d st m) ≤ measure g st.
Proof.
  intros Hm. unfold discover, measure. case_bool_decide as Hv; [lia|]. simpl.
  rewrite length_app. simpl.
  pose proof (unvisited_lt (endpoints g) (visited st) m Hm Hv). lia.
Qed.

Lemma discover_all_measure g d ms st :
  (∀ m, m ∈ ms → m ∈ endpoints g) →
  measure g (foldl (discover d) st ms) ≤ measure g st.
Proof.
  revert st. induction ms as [|m ms IH]; intros st Hms; simpl; [lia|].
  etrans; [apply IH|apply discover_measure].
  - intros x Hx. apply Hms. by right.
  - apply Hms. by left.
Qed.

Lemma visit_measure g maxHops n d q st :
  queue st = (n, d) :: q →
  S (measure g (visit g maxHops n d q st)) ≤ measure g st.
Proof.
  intros Hq. unfold visit. case_bool_decide.
  - etrans; [apply le_n_S, discover_all_measure, neighbours_endpoints|].
    unfold measure. rewrite Hq. simpl. lia.
  - unfold measure. rewrite Hq. simpl. lia.
Qed.

Lemma run_enough g maxHops fuel st :
  measure g st ≤ fuel → is_Some (run fuel g maxHops st).
Proof.
  revert st. induction fuel as [|fuel IH]; intros st Hm.
  - destruct (queue st) as [|[n d] q] eqn:Hq; simpl; rewrite Hq; [by eexists|].
    unfold measure in Hm. rewrite Hq in Hm. simpl in Hm. lia.
  - simpl. destruct (queue st) as [|[n d] q] eqn:Hq; [by eexists|].
    apply IH. pose proof (visit_measure g maxHops n d q st Hq). lia.
Qed.

Lemma initial_measure g rootIds :
  measure g (initial rootIds) ≤ impact_fuel g rootIds.
Proof.
  unfold measure, impact_fuel, initial, unvisited. simpl.
  rewrite length_fmap. pose proof (length_filter (λ u, u ∉ remove_dups rootIds) (endpoints g)).
  lia.
Qed.

(** The loop budget of [findImpact] is never used up, whatever the
    graph (cycles included), the roots and the hop bound. *)
Lemma findImpact_returns g rootIds maxHops :
  is_Some (findImpact g rootIds maxHops).
Proof.
  unfold findImpact.
  destruct (run_enough g maxHops _ _ (initial_measure g rootIds)) as [st ->].
  by eexists.
Qed.

End ImpactTermination.

(** ** Impact Analyzer: what the loop keeps true *)

Module ImpactInvariants.
Import Impact.

(** A property that holds at the start and that every iteration keeps
    holds when the queue is empty. *)
Lemma run_invariant (P : BfsState → Prop) g maxHops :
  (∀ n d q st, queue st = (n, d) :: q → P st → P (visit g maxHops n d q st)) →
  ∀ fuel st st', P st → run fuel g maxHops st = Some st' →
    P st' ∧ queue st' = [].
Proof.
  intros Hstep. induction fuel as [|fuel IH]; intros st st' HP Hrun; simpl in Hrun.
  - destruct (queue st) as [|[n d] q] eqn:Hq; [|discriminate].
    by simplify_eq.
  - destruct (queue st) as [|[n d] q] eqn:Hq; [by simplify_eq|].
    eapply IH; [|exact Hrun]. by apply Hstep.
Qed.

Lemma note_affected_elem acc a x :
  x ∈ note_affected acc a ↔ x ∈ acc ∨ x = a.
Proof.
  unfold note_affected. case_bool_decide as Hin.
  - split; [tauto|]. intros [?| ->]; done.
  - rewrite elem_of_app, list_elem_of_singleton. tauto.
Qed.

Lemma note_affected_NoDup acc a : NoDup acc → NoDup (note_affected acc a).
Proof.
  intros Hnd. unfold note_affected. case_bool_decide as Hin; [done|].
  apply NoDup_app. split_and!; [done| |apply NoDup_singleton].
  intros x Hx Hx'. apply list_elem_of_singleton in Hx'. by subst.
Qed.

Lemma note_all_elem targets acc x :
  x ∈ foldl note_affected acc targets ↔ x ∈ acc ∨ x ∈ targets.
Proof.
  revert acc. induction targets as [|a targets IH]; intros acc; simpl.
  - rewrite elem_of_nil. tauto.
  - rewrite IH, note_affected_elem, elem_of_cons. tauto.
Qed.

Lemma note_all_NoDup targets acc :
  NoDup acc → NoDup (foldl note_affected acc targets).
Proof.
  revert acc. induction targets as [|a targets IH]; intros acc Hnd; simpl; [done|].
  by apply IH, note_affected_NoDup.
Qed.

(** *** No identifier is found twice *)

Lemma discover_distinct d st m : distinct st → distinct (discover d st m).
Proof.
  intros [Hf Hs Ha]. unfold discover. case_bool_decide as Hv; [done|].
  split; simpl; [|intros x|done].
  - apply NoDup_app. split_and!; [done| |apply NoDup_singleton].
    intros x Hx Hx'. apply list_elem_of_singleton in Hx'. subst. auto.
  - rewrite !elem_of_app. intros [?|?]; auto.
Qed.

Lemma discover_all_distinct d ms st :
  distinct st → distinct (foldl (discover d) st ms).
Proof.
  revert st. induction ms as [|m ms IH]; intros st H; simpl; [done|].
  by apply IH, discover_distinct.
Qed.

Lemma visit_distinct g maxHops n d q st :
  distinct st → distinct (visit g maxHops n d q st).
Proof.
  intros [Hf Hs Ha].
  assert (distinct {| queue := q; visited := visited st; found := found st;
                      affected := foldl note_affected (affected st) (affects g n) |}).
  { split; simpl; auto using note_all_NoDup. }
  unfold visit. case_bool_decide; [by apply discover_all_distinct|done].
Qed.

Lemma initial_distinct rootIds : distinct (initial rootIds).
Proof. split; simpl; [constructor|intros x Hx; by apply elem_of_nil in Hx|constructor]. Qed.

Lemma run_distinct g maxHops fuel rootIds st :
  run fuel g maxHops (initial rootIds) = Some st → distinct st.
Proof.
  intros Hrun.
  apply (run_invariant distinct g maxHops) with (st := initial rootIds) (fuel := fuel);
    auto using initial_distinct.
  intros. by apply visit_distinct.
Qed.

Lemma discover_apart roots d st m : apart roots st → apart roots (discover d st m).
Proof.
  intros [Hr Hf]. unfold discover. case_bool_decide as Hv; [done|].
  split; simpl.
  - intros r Hin. apply elem_of_app. left. by apply Hr.
  - intros x. rewrite elem_of_app, list_elem_of_singleton. intros [?| ->]; auto.
Qed.

Lemma discover_all_apart roots d ms st :
  apart roots st → apart roots (foldl (discover d) st ms).
Proof.
  revert st. induction ms as [|m ms IH]; intros st H; simpl; [done|].
  by apply IH, discover_apart.
Qed.

Lemma visit_apart g roots maxHops n d q st :
  apart roots st → apart roots (visit g maxHops n d q st).
Proof.
  intros [Hr Hf]. unfold visit.
  case_bool_decide; [apply discover_all_apart|]; by split.
Qed.

Lemma initial_apart roots : apart roots (initial roots).
Proof.
  split; simpl.
  - intros r Hr. by apply elem_of_remove_dups.
  - intros x Hx. by apply elem_of_nil in Hx.
Qed.

Lemma sort_ids_NoDup l : NoDup l → NoDup (sort_ids l).
Proof. intros H. unfold sort_ids. by rewrite merge_sort_Permutation. Qed.

Lemma sort_ids_elem l x : x ∈ sort_ids l ↔ x ∈ l.
Proof. unfold sort_ids. by rewrite merge_sort_Permutation. Qed.

Lemma impacted_of_group g st k :
  impacted_of (group g st) k = sort_ids (of_kind g k (found st)).
Proof. destruct k; reflexivity. Qed.

Lemma impacted_group_elem g st k ids :
  (k, ids) ∈ impacted (group g st) → ids = sort_ids (of_kind g k (found st)).
Proof.
  unfold group. cbn [impacted]. rewrite list_elem_of_fmap.
  intros (k' & Heq & _). by simplify_eq.
Qed.

End ImpactInvariants.

(** ** Impact Analyzer: nothing within the hop bound is missed *)

Module ImpactCompleteness.
Import Impact ImpactInvariants.

Lemma sorted_snoc (q : list (string * nat)) x :
  StronglySorted by_depth q → (∀ y, y ∈ q → by_depth y x) →
  StronglySorted by_depth (q ++ [x]).
Proof.
  intros Hq Hle. apply StronglySorted_app_2; [|done|].
  - intros y z Hy Hz. apply list_elem_of_singleton in Hz as ->. by apply Hle.
  - repeat constructor.
Qed.

Lemma discover_expanding g roots maxHops n d popped st m :
  expanding g roots maxHops n d popped st →
  expanding g roots maxHops n d popped (discover d st m)
  ∧ (∀ x dx, (x, dx) ∈ (popped ++ [(n, d)]) ++ queue st →
             (x, dx) ∈ (popped ++ [(n, d)]) ++ queue (discover d st m))
  ∧ ∃ dm, (m, dm) ∈ (popped ++ [(n, d)]) ++ queue (discover d st m) ∧ dm ≤ S d.
Proof.
  intros [Hseen Hroots Hsorted Hlow Hhigh Hclosed].
  unfold discover. case_bool_decide as Hv.
  - split; [done|]. split; [done|].
    apply Hseen in Hv as [dm Hdm]. exists dm. split; [done|]. by eapply Hhigh.
  - assert (∀ x dx, (x, dx) ∈ (popped ++ [(n, d)]) ++ queue st →
                    (x, dx) ∈ (popped ++ [(n, d)]) ++ (queue st ++ [(m, S d)])) as Hmono.
    { intros x dx. rewrite !elem_of_app. tauto. }
    split; [|split; [done|]]; simpl.
    + split; simpl.
      * intros x. rewrite elem_of_app, list_elem_of_singleton, Hseen. split.
        -- intros [[dx Hx]| ->]; [exists dx; by apply Hmono|].
           exists (S d). rewrite !elem_of_app, !list_elem_of_singleton. auto.
        -- intros [dx Hx]. rewrite (assoc app) in Hx.
           apply elem_of_app in Hx as [Hx|Hx]; [left; by exists dx|].
           apply list_elem_of_singleton in Hx. simplify_eq. by right.
      * intros r Hr. by apply Hmono, Hroots.
      * apply sorted_snoc; [done|]. intros [y dy] Hy. unfold by_depth. simpl.
        apply (Hhigh y dy). apply elem_of_app. by right.
      * intros x dx. rewrite elem_of_app, list_elem_of_singleton.
        intros [?|?]; [by eapply Hlow|]. simplify_eq. lia.
      * intros x dx Hx. rewrite (assoc app) in Hx.
        apply elem_of_app in Hx as [Hx|Hx]; [by eapply Hhigh|].
        apply list_elem_of_singleton in Hx. by simplify_eq.
      * intros n' dn m' Hn' Hdn Hm'.
        destruct (Hclosed n' dn m' Hn' Hdn Hm') as (dm & Hdm & Hle).
        exists dm. split; [by apply Hmono|done].
    + exists (S d). split; [|done].
      rewrite !elem_of_app, !list_elem_of_singleton. auto.
Qed.

Lemma discover_all_expanding g roots maxHops n d popped ms st :
  expanding g roots maxHops n d popped st →
  expanding g roots maxHops n d popped (foldl (discover d) st ms)
  ∧ (∀ x dx, (x, dx) ∈ (popped ++ [(n, d)]) ++ queue st →
             (x, dx) ∈ (popped ++ [(n, d)]) ++ queue (foldl (discover d) st ms))
  ∧ ∀ m, m ∈ ms →
      ∃ dm, (m, dm) ∈ (popped ++ [(n, d)]) ++ queue (foldl (discover d) st ms)
            ∧ dm ≤ S d.
Proof.
  revert st. induction ms as [|m ms IH]; intros st Hex; simpl.
  - split; [done|]. split; [done|]. intros m Hm. by apply elem_of_nil in Hm.
  - destruct (discover_expanding g roots maxHops n d popped st m Hex)
      as (Hex1 & Hmono1 & dm & Hdm & Hle).
    destruct (IH _ Hex1) as (Hex2 & Hmono2 & Hall).
    split; [done|]. split; [by auto|].
    intros m' Hm'. apply elem_of_cons in Hm' as [->|Hm'].
    + exists dm. split; [by apply Hmono2|done].
    + by apply Hall.
Qed.

Lemma visit_levelled g roots maxHops n d q popped st :
  queue st = (n, d) :: q →
  levelled g roots maxHops popped st →
  levelled g roots maxHops (popped ++ [(n, d)]) (visit g maxHops n d q st).
Proof.
  intros Hq [Hseen Hroots Hsorted Hspread Hclosed].
  rewrite Hq in *. apply StronglySorted_inv in Hsorted as [Hsorted Hhead].
  assert (∀ x dx, (x, dx) ∈ popped ++ (n, d) :: q ↔ (x, dx) ∈ (popped ++ [(n, d)]) ++ q)
    as Hsame.
  { intros x dx. by rewrite <- (assoc app). }
  set (st1 := {| queue := q; visited := visited st; found := found st;
                 affected := foldl note_affected (affected st) (affects g n) |}).
  assert (expanding g roots maxHops n d popped st1) as Hex.
  { split; simpl.
    - intros x. rewrite Hseen. by setoid_rewrite Hsame.
    - intros r Hr. by apply Hsame, Hroots.
    - done.
    - intros x dx Hx. rewrite Forall_forall in Hhead. apply (Hhead _ Hx).
    - intros x dx Hx. apply (Hspread n d x dx); [done|]. by apply Hsame.
    - intros n' dn m Hn' Hdn Hm.
      destruct (Hclosed n' dn m Hn' Hdn Hm) as (dm & Hdm & Hle).
      exists dm. split; [by apply Hsame|done]. }
  assert (∀ st2,
            expanding g roots maxHops n d popped st2 →
            (d < maxHops → ∀ m, m ∈ neighbours g n →
               ∃ dm, (m, dm) ∈ (popped ++ [(n, d)]) ++ queue st2 ∧ dm ≤ S d) →
            levelled g roots maxHops (popped ++ [(n, d)]) st2) as Hfinish.
  { intros st2 [Hseen2 Hroots2 Hsorted2 Hlow2 Hhigh2 Hclosed2] Hn.
    split; try done.
    - intros h dh x dx Hh Hx.
      assert (d ≤ dh).
      { apply (Hlow2 h). destruct (queue st2); simplify_eq/=. by left. }
      specialize (Hhigh2 x dx Hx). lia.
    - intros n' dn m Hn' Hdn Hm.
      apply elem_of_app in Hn' as [Hn'|Hn']; [by eapply Hclosed2|].
      apply list_elem_of_singleton in Hn'. simplify_eq. by apply Hn. }
  unfold visit. fold st1. case_bool_decide as Hd.
  - destruct (discover_all_expanding g roots maxHops n d popped (neighbours g n) st1 Hex)
      as (Hex2 & _ & Hall).
    apply Hfinish; [done|]. intros _ m Hm. by apply Hall.
  - apply Hfinish; [done|]. intros Hlt. lia.
Qed.

Lemma initial_levelled g roots maxHops :
  levelled g roots maxHops [] (initial roots).
Proof.
  split; simpl.
  - intros x. rewrite elem_of_remove_dups. split.
    + intros Hx. exists 0. apply list_elem_of_fmap. by exists x.
    + intros [dx Hx]. apply list_elem_of_fmap in Hx as (r & ? & Hr). by simplify_eq.
  - intros r Hr. apply list_elem_of_fmap. by exists r.
  - induction roots as [|r roots IH]; simpl; constructor; [done|].
    apply Forall_forall. intros [y dy] Hy.
    apply list_elem_of_fmap in Hy as (r' & ? & _). simplify_eq. by unfold by_depth.
  - intros h dh x dx _ Hx. apply list_elem_of_fmap in Hx as (r & ? & _).
    simplify_eq. lia.
  - intros n dn m Hn. by apply elem_of_nil in Hn.
Qed.

Lemma run_levelled g roots maxHops fuel st :
  run fuel g maxHops (initial roots) = Some st →
  ∃ popped, levelled g roots maxHops popped st ∧ queue st = [].
Proof.
  intros Hrun.
  assert (∀ n d q st0, queue st0 = (n, d) :: q →
            (∃ seen, levelled g roots maxHops seen st0) →
            ∃ seen, levelled g roots maxHops seen (visit g maxHops n d q st0)) as Hstep.
  { intros n d q st0 Hq [seen Hlv]. exists (seen ++ [(n, d)]).
    by apply visit_levelled. }
  assert (∃ seen, levelled g roots maxHops seen (initial roots)) as Hinit.
  { exists []. apply initial_levelled. }
  destruct (run_invariant _ g maxHops Hstep _ _ _ Hinit Hrun) as [[seen Hlv] Hq].
  by exists seen.
Qed.

(** Every node within [maxHops] hops of a root has been visited when
    the traversal ends. *)
Lemma run_complete g roots maxHops fuel st d n :
  run fuel g maxHops (initial roots) = Some st →
  hops g roots d n → d ≤ maxHops → n ∈ visited st.
Proof.
  intros Hrun Hhops Hd.
  destruct (run_levelled _ _ _ _ _ Hrun) as (popped & [Hseen Hroots _ _ Hclosed] & Hq).
  rewrite Hq, app_nil_r in *.
  assert (∃ dn, (n, dn) ∈ popped ∧ dn ≤ d) as (dn & Hn & _); [|apply Hseen; eauto].
  induction Hhops as [r Hr|d n m Hhops IH Hm].
  - exists 0. split; [by apply Hroots|done].
  - destruct IH as (dn & Hn & Hle); [lia|].
    destruct (Hclosed n dn m Hn) as (dm & Hdm & Hle'); [lia|done|].
    exists dm. split; [done|lia].
Qed.

End ImpactCompleteness.

(** ** Impact Analyzer: termination and duplicates *)

Module ImpactTheorems.
Import Impact TestData ImpactTermination ImpactInvariants.

(** C1. [findImpact] returns for every graph, every list of roots and
    every hop bound, cyclic event chains included, and no identifier
    occurs twice in any list it returns: neither in the list of a node
    kind nor in [affected_aggregates]. *)
Theorem findImpact_terminates_without_duplicates g rootIds maxHops :
  ∃ r, findImpact g rootIds maxHops = Some r
       ∧ Forall (λ entry, NoDup entry.2) (impacted r)
       ∧ NoDup (affected_aggregates r).
Proof.
  destruct (findImpact_returns g rootIds maxHops) as [r Hr].
  exists r. split; [done|].
  unfold findImpact in Hr.
  destruct (run _ g maxHops (initial rootIds)) as [st|] eqn:Hrun; [|discriminate].
  simpl in Hr. injection Hr as <-.
  destruct (run_distinct _ _ _ _ _ Hrun) as [Hf _ Ha].
  split.
  - apply Forall_forall. intros [k ids] Hin.
    apply impacted_group_elem in Hin as ->. simpl.
    apply sort_ids_NoDup. unfold of_kind. by apply NoDup_filter.
  - simpl. by apply sort_ids_NoDup.
Qed.

(** The cycle is longer than the hop bound: the traversal stops inside it. *)
Example cycle_longer_than_maxHops :
  findImpact cyclic_graph ["EVT_X"] 2
  = Some {| impacted := [(Epic, []); (UserStory, []); (AcceptanceCriterion, []);
                         (BoundedContext, []); (Aggregate, []); (Entity, []);
                         (ValueObject, []); (Field, []); (Command, ["CMD_Y"]);
                         (Event, []); (Policy, ["POL_X"])];
            affected_aggregates := ["AGG_X"] |}.
Proof. vm_compute. reflexivity. Qed.

(** The cycle is shorter than the hop bound: the traversal goes round
    it and comes back to nodes it has seen. *)
Example cycle_shorter_than_maxHops :
  findImpact cyclic_graph ["US_X"] 50
  = Some {| impacted := [(Epic, []); (UserStory, []); (AcceptanceCriterion, []);
                         (BoundedContext, []); (Aggregate, ["AGG_X"]); (Entity, []);
                         (ValueObject, []); (Field, []); (Command, ["CMD_X"; "CMD_Y"]);
                         (Event, ["EVT_X"]); (Policy, ["POL_X"])];
            affected_aggregates := ["AGG_X"] |}.
Proof. vm_compute. reflexivity. Qed.

End ImpactTheorems.

(** ** Impact Analyzer: the v1.1 test data set *)

Module ChangePropagation.
Import Impact TestData.

Lemma findImpact_US_001_from_4 h :
  findImpact test_graph ["US_001"] (4 + h) = Some impact_within_4.
Proof. destruct h as [|h]; vm_compute; reflexivity. Qed.

(** What the traversal of [Impact] gives on the test data differs from
    the lists the specification expects: with the default bound of
    three hops the Field list also holds F_ORDER_ID, a field of
    AGG_ORDER, and the Command list lacks CMD_RESERVE_STOCK, which lies
    four hops from US_001. This rests on two choices that section 4.4
    leaves open, that every relationship followed costs one hop and
    that the fields of a reached aggregate are followed; the analyzer
    itself is not among the sources, so nothing is said here about
    what it returns. *)
Lemma findImpact_US_001_not_as_expected :
  ∃ r, findImpact test_graph ["US_001"] default_maxHops = Some r
       ∧ ¬ expected_impact r.
Proof.
  exists impact_within_3. split; [vm_compute; reflexivity|].
  intros (_ & Hfield & _). vm_compute in Hfield. discriminate.
Qed.

(** Under these choices no hop bound gives the expected lists:
    F_ORDER_ID is two hops from US_001 and CMD_RESERVE_STOCK four. *)
Lemma findImpact_US_001_never_as_expected maxHops :
  ∃ r, findImpact test_graph ["US_001"] maxHops = Some r ∧ ¬ expected_impact r.
Proof.
  destruct maxHops as [|[|[|[|h]]]].
  5: { exists impact_within_4. split; [apply (findImpact_US_001_from_4 h)|].
       intros (_ & Hfield & _). vm_compute in Hfield. discriminate. }
  all: eexists; split; [vm_compute; reflexivity|].
  all: intros (Hagg & Hfield & Hcmd & _).
  all: vm_compute in Hagg, Hfield, Hcmd; discriminate.
Qed.

(** Under these choices [findImpact(["US_001"])] on the test data with
    the default bound of three hops gives Aggregate [AGG_ORDER],
    Field [F_ORDER_AMOUNT, F_ORDER_ID], Command [CMD_PLACE_ORDER],
    Event [EVT_ORDER_PLACED], Policy [POL_RESERVE_STOCK] and
    affected_aggregates [AGG_STOCK] (and AcceptanceCriterion [AC_001]);
    from four hops on the Command list is
    [CMD_PLACE_ORDER, CMD_RESERVE_STOCK] and the rest is the same. *)
Theorem findImpact_US_001 :
  findImpact test_graph ["US_001"] default_maxHops = Some impact_within_3
  ∧ ∀ h, findImpact test_graph ["US_001"] (4 + h) = Some impact_within_4.
Proof. split; [vm_compute; reflexivity|apply findImpact_US_001_from_4]. Qed.

End ChangePropagation.

(** ** Impact Analyzer: the hop bound and the [affects] leg *)

Module ImpactDepth.
Import Impact ImpactTermination ImpactInvariants ImpactCompleteness.

Lemma affects_edge_spec n e a :
  affects_edge n e = Some a ↔ e = mkEdge n AFFECTS_AGGREGATE a.
Proof.
  destruct e as [s r t]. unfold affects_edge. simpl.
  destruct r; try (split; [discriminate|intros ?; simplify_eq]).
  case_bool_decide; split; intros ?; simplify_eq; done.
Qed.

Lemma affects_spec g n a :
  a ∈ affects g n ↔ mkEdge n AFFECTS_AGGREGATE a ∈ edges g.
Proof.
  unfold affects. rewrite list_elem_of_omap. split.
  - intros (e & He & Ha). apply affects_edge_spec in Ha. by subst.
  - intros He. eexists. split; [exact He|]. by apply affects_edge_spec.
Qed.

(** *** Everything found lies within the hop bound *)

Lemma discover_bounded g roots maxHops d n st m :
  d < maxHops → hops g roots d n → m ∈ neighbours g n →
  bounded g roots maxHops st → bounded g roots maxHops (discover d st m).
Proof.
  intros Hd Hn Hm [Hq Hf Ha]. unfold discover. case_bool_decide; [done|].
  assert (hops g roots (S d) m) by (by eapply hops_step).
  split; simpl; [intros x dx|intros x|done].
  - rewrite elem_of_app, list_elem_of_singleton. intros [?|?]; [auto|].
    simplify_eq. split; [lia|done].
  - rewrite elem_of_app, list_elem_of_singleton. intros [?| ->]; [auto|].
    exists (S d). split; [lia|done].
Qed.

Lemma discover_all_bounded g roots maxHops d n ms st :
  d < maxHops → hops g roots d n → (∀ m, m ∈ ms → m ∈ neighbours g n) →
  bounded g roots maxHops st →
  bounded g roots maxHops (foldl (discover d) st ms).
Proof.
  intros Hd Hn. revert st. induction ms as [|m ms IH]; intros st Hms Hb; simpl; [done|].
  apply IH.
  - intros x Hx. apply Hms. by right.
  - eapply discover_bounded; eauto. apply Hms. by left.
Qed.

Lemma visit_bounded g roots maxHops n d q st :
  queue st = (n, d) :: q →
  bounded g roots maxHops st → bounded g roots maxHops (visit g maxHops n d q st).
Proof.
  intros Hq [Hqu Hf Ha].
  destruct (Hqu n d) as [Hd Hn]; [rewrite Hq; by left|].
  assert (bounded g roots maxHops
            {| queue := q; visited := visited st; found := found st;
               affected := foldl note_affected (affected st) (affects g n) |}).
  { split; simpl; [|done|].
    - intros x dx Hx. apply Hqu. rewrite Hq. by right.
    - intros a. rewrite note_all_elem. intros [?|?]; [auto|].
      exists n, d. done. }
  unfold visit. case_bool_decide; [|done].
  eapply discover_all_bounded; eauto.
Qed.

Lemma initial_bounded g roots maxHops : bounded g roots maxHops (initial roots).
Proof.
  split; simpl.
  - intros n d. rewrite list_elem_of_fmap. intros (r & ? & Hr). simplify_eq.
    split; [lia|by constructor].
  - intros n Hn. by apply elem_of_nil in Hn.
  - intros a Ha. by apply elem_of_nil in Ha.
Qed.

(** *** Every node reached has had its [affects] edges followed *)

Lemma discover_followed g roots d st m :
  followed g roots st → followed g roots (discover d st m).
Proof.
  intros [Hs Hl]. unfold discover. case_bool_decide; [done|].
  split; simpl.
  - intros x. rewrite !elem_of_app, Hs. tauto.
  - intros n. rewrite elem_of_app, list_elem_of_singleton. intros [Hn| ->].
    + destruct (Hl n Hn) as [[dn Hq]|Hdone]; [left|by right].
      exists dn. apply elem_of_app. by left.
    + left. exists (S d). apply elem_of_app. right. by apply list_elem_of_singleton.
Qed.

Lemma discover_all_followed g roots d ms st :
  followed g roots st → followed g roots (foldl (discover d) st ms).
Proof.
  revert st. induction ms as [|m ms IH]; intros st H; simpl; [done|].
  by apply IH, discover_followed.
Qed.

Lemma visit_followed g roots maxHops n d q st :
  queue st = (n, d) :: q →
  followed g roots st → followed g roots (visit g maxHops n d q st).
Proof.
  intros Hq [Hs Hl].
  assert (followed g roots
            {| queue := q; visited := visited st; found := found st;
               affected := foldl note_affected (affected st) (affects g n) |}).
  { split; simpl; [done|]. intros x Hx.
    destruct (Hl x Hx) as [[dx Hin]|Hdone].
    - rewrite Hq in Hin. apply elem_of_cons in Hin as [Heq|Hin]; [|left; eauto].
      simplify_eq. right. intros a Ha. apply note_all_elem. by right.
    - right. intros a Ha. apply note_all_elem. left. by apply Hdone. }
  unfold visit. case_bool_decide; [by apply discover_all_followed|done].
Qed.

Lemma initial_followed g roots : followed g roots (initial roots).
Proof.
  split; simpl.
  - intros x. rewrite elem_of_remove_dups, elem_of_nil. tauto.
  - intros n. rewrite elem_of_remove_dups. intros Hn. left. exists 0.
    apply list_elem_of_fmap. by exists n.
Qed.

(** C3. Whatever the hop bound, when a reached Event (a root, or an
    Event the traversal returns) has an [affects] edge, the target is in
    [affected_aggregates], also when the Event sits at the hop bound
    itself. The lists by kind hold exactly the nodes, roots apart, that
    lie within [maxHops] hops of a root along containment, trace and
    event-chain edges alike; [affected_aggregates] holds exactly the
    targets of the [affects] edges of the nodes within [maxHops] hops,
    one leg beyond the bound and the only way past it. *)
Theorem affects_leg_is_the_only_exception g rootIds maxHops :
  ∃ r, findImpact g rootIds maxHops = Some r
    ∧ (∀ e a, e ∈ rootIds ∨ e ∈ impacted_of r Event →
              mkEdge e AFFECTS_AGGREGATE a ∈ edges g →
              a ∈ affected_aggregates r)
    ∧ (∀ k n, n ∈ impacted_of r k ↔
              kind_of g n = Some k ∧ (n ∉ rootIds)
              ∧ ∃ d, d ≤ maxHops ∧ hops g rootIds d n)
    ∧ (∀ a, a ∈ affected_aggregates r ↔
            ∃ e d, d ≤ maxHops ∧ hops g rootIds d e
                   ∧ mkEdge e AFFECTS_AGGREGATE a ∈ edges g).
Proof.
  destruct (findImpact_returns g rootIds maxHops) as [r Hr].
  exists r. split; [done|].
  unfold findImpact in Hr.
  destruct (run _ g maxHops (initial rootIds)) as [st|] eqn:Hrun; [|discriminate].
  simpl in Hr. injection Hr as <-.
  destruct (run_invariant (bounded g rootIds maxHops) g maxHops
              (λ n d q st, visit_bounded g rootIds maxHops n d q st)
              _ _ _ (initial_bounded g rootIds maxHops) Hrun) as [[_ Hf Ha] _].
  destruct (run_invariant (followed g rootIds) g maxHops
              (λ n d q st, visit_followed g rootIds maxHops n d q st)
              _ _ _ (initial_followed g rootIds) Hrun) as [[Hs Hl] Hq].
  destruct (run_invariant (apart rootIds) g maxHops
              (λ n d q st _, visit_apart g rootIds maxHops n d q st)
              _ _ _ (initial_apart rootIds) Hrun) as [[_ Hapart] _].
  assert (∀ e a, e ∈ visited st → a ∈ affects g e → a ∈ affected st) as Hleg.
  { intros e a Hv Hedge. destruct (Hl e Hv) as [[d Hin]|Hdone]; [|by apply Hdone].
    rewrite Hq in Hin. by apply elem_of_nil in Hin. }
  split_and!.
  - intros e a He Hedge. simpl. apply sort_ids_elem.
    apply (Hleg e); [|by apply affects_spec].
    apply Hs. destruct He as [?|He]; [by left|right].
    rewrite impacted_of_group, sort_ids_elem in He.
    unfold of_kind in He. by apply list_elem_of_filter in He as [_ ?].
  - intros k n. rewrite impacted_of_group, sort_ids_elem. unfold of_kind.
    rewrite list_elem_of_filter. split.
    + intros [Hk Hn]. split_and!; [done|by apply Hapart|by apply Hf].
    + intros (Hk & Hroot & d & Hd & Hhops). split; [done|].
      pose proof (run_complete _ _ _ _ _ _ _ Hrun Hhops Hd) as Hv.
      apply Hs in Hv as [?|?]; done.
  - intros a. simpl. rewrite sort_ids_elem. split.
    + intros Hin. destruct (Ha a Hin) as (e & d & Hd & He & Hedge).
      exists e, d. by rewrite <- affects_spec.
    + intros (e & d & Hd & Hhops & Hedge). apply (Hleg e); [|by apply affects_spec].
      by eapply run_complete.
Qed.

#[local] Instance id_le_total : Total id_le.
Proof. intros a b. apply String.leb_total. Qed.

(** Every list comes out in ascending order of identifiers. *)
Lemma findImpact_sorted g rootIds maxHops :
  ∃ r, findImpact g rootIds maxHops = Some r
       ∧ Forall (λ entry, Sorted id_le entry.2) (impacted r)
       ∧ Sorted id_le (affected_aggregates r).
Proof.
  destruct (findImpact_returns g rootIds maxHops) as [r Hr].
  exists r. split; [done|].
  unfold findImpact in Hr.
  destruct (run _ g maxHops (initial rootIds)) as [st|]; [|discriminate].
  simpl in Hr. injection Hr as <-. split.
  - apply Forall_forall. intros [k ids] Hin.
    apply impacted_group_elem in Hin as ->. simpl.
    apply (Sorted_merge_sort id_le).
  - simpl. apply (Sorted_merge_sort id_le).
Qed.

(** Roots without an outgoing edge of the three classes and without an
    [affects] edge: every collection is empty. *)
Lemma no_orphan_impact g rootIds maxHops :
  Forall (λ r, neighbours g r = [] ∧ affects g r = []) rootIds →
  findImpact g rootIds maxHops
  = Some {| impacted := (λ k, (k, [])) <$> all_kinds; affected_aggregates := [] |}.
Proof.
  intros Hroots. rewrite Forall_forall in Hroots.
  destruct (findImpact_returns g rootIds maxHops) as [r Hr]. rewrite Hr.
  unfold findImpact in Hr.
  destruct (run _ g maxHops (initial rootIds)) as [st|] eqn:Hrun; [|discriminate].
  simpl in Hr. injection Hr as <-.
  destruct (run_invariant (bounded g rootIds maxHops) g maxHops
              (λ n d q st, visit_bounded g rootIds maxHops n d q st)
              _ _ _ (initial_bounded g rootIds maxHops) Hrun)
    as [[_ Hf Ha] _].
  destruct (run_invariant (apart rootIds) g maxHops
              (λ n d q st _, visit_apart g rootIds maxHops n d q st)
              _ _ _ (initial_apart rootIds) Hrun) as [[_ Hapart] _].
  assert (∀ d n, hops g rootIds d n → n ∈ rootIds) as Hstay.
  { intros d n Hh. induction Hh as [r Hin|d n m _ IH Hm]; [done|].
    destruct (Hroots n IH) as [Hnone _]. rewrite Hnone in Hm.
    by apply elem_of_nil in Hm. }
  assert (found st = []) as Hfound.
  { destruct (found st) as [|x l] eqn:Hl; [done|]. exfalso.
    destruct (Hf x) as (d & _ & Hh); [by left|].
    apply (Hapart x); [by left|by eapply Hstay]. }
  assert (affected st = []) as Haff.
  { destruct (affected st) as [|a l] eqn:Hl; [done|]. exfalso.
    destruct (Ha a) as (e & d & _ & Hh & Hleg); [by left|].
    destruct (Hroots e (Hstay _ _ Hh)) as [_ Hnone]. rewrite Hnone in Hleg.
    by apply elem_of_nil in Hleg. }
  unfold group. by rewrite Hfound, Haff.
Qed.

(** The hop budget is used up at the Event itself (it is the root and
    [maxHops] is 0): nothing is impacted, the affected aggregate is
    still reported. *)
Example affects_leg_at_exhausted_budget :
  findImpact TestData.test_graph ["EVT_ORDER_PLACED"] 0
  = Some {| impacted := (λ k, (k, [])) <$> all_kinds;
            affected_aggregates := ["AGG_STOCK"] |}.
Proof. vm_compute. reflexivity. Qed.

(** The Event is reached with the last hop: its Policy is out of
    reach, its affected aggregate is not. *)
Example affects_leg_at_the_last_hop :
  ∃ r, findImpact TestData.test_graph ["US_001"] 2 = Some r
       ∧ impacted_of r Event = ["EVT_ORDER_PLACED"]
       ∧ impacted_of r Policy = []
       ∧ affected_aggregates r = ["AGG_STOCK"].
Proof. eexists. split; [vm_compute; reflexivity|]. by vm_compute. Qed.

End ImpactDepth.

(** ** Phase branching *)

Module ScopeTheorems.
Import Scope.

Lemma label_of_inj k1 k2 : label_of k1 = label_of k2 → k1 = k2.
Proof. destruct k1, k2; simpl; intros H; try reflexivity; discriminate. Qed.

Lemma label_dirty k dirty : label_of k ∈ labels_of dirty ↔ k ∈ dirty.
Proof.
  unfold labels_of. rewrite elem_of_list_to_set, list_elem_of_fmap. split.
  - intros (k' & Heq & Hin). apply label_of_inj in Heq. by subst.
  - intros Hin. by exists k.
Qed.

Lemma any_in_kinds group dirty :
  any_in (label_of <$> group) (labels_of dirty) = has_kind_of group dirty.
Proof.
  unfold any_in, has_kind_of. induction group as [|k group IH]; [done|].
  rewrite fmap_cons. cbn [existsb]. rewrite IH. f_equal.
  apply bool_decide_ext, label_dirty.
Qed.

(** The branching of [determine_phase_sequence] on a set of labels. *)
Lemma determine_phase_sequence_cases (dirty_labels : gset string) :
  determine_phase_sequence dirty_labels
  = match bool_decide ("Aggregate" ∈ dirty_labels ∨ "Field" ∈ dirty_labels),
          bool_decide ("Command" ∈ dirty_labels ∨ "Event" ∈ dirty_labels
                       ∨ "Policy" ∈ dirty_labels) with
    | true, true => ["A"; "B"]
    | true, false => ["A"]
    | false, true => ["B"]
    | false, false => []
    end.
Proof.
  unfold determine_phase_sequence, any_in. simpl.
  repeat case_bool_decide; simpl; try reflexivity; exfalso; tauto.
Qed.

(** C4, as stated, fails: for a dirty set that holds only an Entity the
    decision table of the specification asks for the structural phase,
    and [determine_phase_sequence] returns no phase at all. *)
Lemma entity_alone_starts_no_phase :
  scope_table [Entity] = ["A"]
  ∧ determine_phase_sequence (labels_of [Entity]) = [].
Proof. split; vm_compute; reflexivity. Qed.

(** The same for a BoundedContext or a ValueObject alone. *)
Lemma bounded_context_or_value_object_alone_starts_no_phase :
  determine_phase_sequence (labels_of [BoundedContext]) = []
  ∧ determine_phase_sequence (labels_of [ValueObject]) = []
  ∧ determine_phase_sequence (labels_of [BoundedContext; Entity; ValueObject]) = [].
Proof. split_and!; vm_compute; reflexivity. Qed.

(** C4, amended. For every dirty set, [determine_phase_sequence] looks
    for the structural kinds Aggregate and Field and for the behavioural
    kinds Command, Event and Policy: it returns ["A"; "B"] (structure,
    then behaviour) when both groups have a dirty kind, ["A"] when only
    Aggregate or Field is dirty, ["B"] when only a behavioural kind is,
    and [] otherwise, which is the case of the empty set and of a set
    that holds only BoundedContext, Entity or ValueObject. *)
Theorem determine_phase_sequence_table (dirty : list Kind) :
  determine_phase_sequence (labels_of dirty)
  = match has_kind_of [Aggregate; Field] dirty,
          has_kind_of [Command; Event; Policy] dirty with
    | true, true => ["A"; "B"]
    | true, false => ["A"]
    | false, true => ["B"]
    | false, false => []
    end.
Proof.
  unfold determine_phase_sequence.
  change ["Aggregate"; "Field"] with (label_of <$> [Aggregate; Field]).
  change ["Command"; "Event"; "Policy"] with (label_of <$> [Command; Event; Policy]).
  rewrite !any_in_kinds.
  destruct (has_kind_of [Aggregate; Field] dirty),
           (has_kind_of [Command; Event; Policy] dirty); reflexivity.
Qed.

(** The examples of the specification. *)
Example phase_ordering :
  determine_phase_sequence (labels_of [Aggregate; Command]) = ["A"; "B"]
  ∧ determine_phase_sequence (labels_of [Event]) = ["B"]
  ∧ determine_phase_sequence (labels_of []) = [].
Proof. split_and!; vm_compute; reflexivity. Qed.

(** Where the table of the specification and the function agree: on
    dirty sets without BoundedContext, Entity and ValueObject. *)
Lemma scope_table_agrees (dirty : list Kind) :
  has_kind_of [BoundedContext; Entity; ValueObject] dirty = false →
  determine_phase_sequence (labels_of dirty) = scope_table dirty.
Proof.
  intros Hnone. rewrite determine_phase_sequence_table. unfold scope_table.
  unfold has_kind_of in *. simpl in *.
  repeat case_bool_decide; simpl in *; try reflexivity; discriminate.
Qed.

End ScopeTheorems.

(** ** Upsert: running the statement again *)

Module UpsertTheorems.
Import Store.

Lemma set_all_lookup attrs props key :
  set_all attrs props !! key
  = match assigned attrs key with
    | Some v => Some v
    | None => props !! key
    end.
Proof.
  unfold set_all. revert props.
  induction attrs as [|[k v] rest IH]; intros props; simpl; [done|].
  rewrite IH. destruct (assigned rest key); [done|].
  case_bool_decide; subst; [by rewrite lookup_insert_eq|by rewrite lookup_insert_ne].
Qed.

Lemma set_all_idempotent attrs props :
  set_all attrs (set_all attrs props) = set_all attrs props.
Proof.
  apply map_eq. intros key. rewrite !set_all_lookup.
  by destruct (assigned attrs key).
Qed.

Lemma alter_twice {V} (f : V → V) (key : Kind * string) (m : gmap (Kind * string) V) :
  (∀ x, f (f x) = f x) → alter f key (alter f key m) = alter f key m.
Proof.
  intros Hf. apply map_eq. intros key'.
  destruct (decide (key = key')) as [->|Hne].
  - rewrite !lookup_alter_eq. destruct (m !! key'); simpl; [by rewrite Hf|done].
  - by rewrite !lookup_alter_ne.
Qed.

Lemma merge_node_present k id s :
  is_Some (store_nodes (merge_node k id s) !! (k, id)).
Proof.
  unfold merge_node. destruct (store_nodes s !! (k, id)) eqn:Hn; simpl.
  - by rewrite Hn.
  - by rewrite lookup_insert_eq.
Qed.

Lemma merge_node_again k id s :
  is_Some (store_nodes s !! (k, id)) → merge_node k id s = s.
Proof. intros [props Hn]. unfold merge_node. by rewrite Hn. Qed.

Lemma upsert_present k p s : is_Some (store_nodes (upsert k p s) !! (k, p_id p)).
Proof.
  unfold upsert, set_props. simpl. rewrite lookup_alter_eq.
  destruct (merge_node_present k (p_id p) s) as [props ->]. by eexists.
Qed.

(** The statement writes nodes only. *)
Lemma upsert_changes k p s : store_changes (upsert k p s) = store_changes s.
Proof.
  unfold upsert, set_props, merge_node.
  destruct (store_nodes s !! (k, p_id p)); reflexivity.
Qed.

Lemma upsert_rels k p s : store_rels (upsert k p s) = store_rels s.
Proof.
  unfold upsert, set_props, merge_node.
  destruct (store_nodes s !! (k, p_id p)); reflexivity.
Qed.

(** Other nodes are left alone, and so is every property the payload
    does not assign. *)
Lemma upsert_frame k p s node key props :
  store_nodes s !! node = Some props →
  node ≠ (k, p_id p) ∨ assigned (p_attrs p) key = None →
  store_nodes (upsert k p s) !! node ≫= (.!! key) = props !! key.
Proof.
  intros Hn Hcase.
  destruct (decide (node = (k, p_id p))) as [->|Hne].
  - destruct Hcase as [?|Hkey]; [done|].
    unfold upsert, set_props. simpl. rewrite lookup_alter_eq.
    rewrite merge_node_again by (by eexists). rewrite Hn. simpl.
    by rewrite set_all_lookup, Hkey.
  - unfold upsert, set_props. simpl. rewrite lookup_alter_ne by done.
    unfold merge_node. destruct (store_nodes s !! (k, p_id p)); simpl.
    + by rewrite Hn.
    + rewrite lookup_insert_ne by done. by rewrite Hn.
Qed.

(** C5. Upserting a node a second time with the same payload leaves
    the graph as the first call left it: the same nodes with the same
    properties (the recorded [source_hash] and the three dirty fields
    among them), the same relationships and the same Change records. *)
Theorem upsert_twice_is_upsert_once (k : Kind) (p : Payload) (s : Db) :
  let s1 := upsert k p s in
  let s2 := upsert k p s1 in
  s2 = s1
  ∧ store_changes s2 = store_changes s1
  ∧ store_changes s1 = store_changes s
  ∧ (∀ node, store_nodes s2 !! node ≫= (.!! "source_hash")
             = store_nodes s1 !! node ≫= (.!! "source_hash"))
  ∧ (∀ node, Forall (λ key, store_nodes s2 !! node ≫= (.!! key)
                            = store_nodes s1 !! node ≫= (.!! key)) dirty_keys).
Proof.
  intros s1 s2.
  assert (s2 = s1) as Heq.
  { unfold s2, upsert at 1. rewrite merge_node_again by apply upsert_present.
    unfold s1, upsert, set_props. simpl. unfold with_nodes. simpl. f_equal.
    apply alter_twice, set_all_idempotent. }
  rewrite Heq. split_and!; try done.
  - apply upsert_changes.
  - intros node. by apply Forall_forall.
Qed.

(** The first statement of the test data, run twice. *)
Example upsert_US_001_twice :
  let p := {| p_id := "US_001";
              p_attrs := [("status", VStr "draft"); ("source_hash", VStr "H1")] |} in
  upsert UserStory p (upsert UserStory p Store.empty) = upsert UserStory p Store.empty
  ∧ store_nodes (upsert UserStory p Store.empty) !! (UserStory, "US_001")
      ≫= (.!! "source_hash") = Some (VStr "H1").
Proof. split; vm_compute; reflexivity. Qed.

(** [MERGE] of a relationship is safe to run again too. *)
Lemma merge_rel_idempotent ka a r kb b s :
  merge_rel ka a r kb b (merge_rel ka a r kb b s) = merge_rel ka a r kb b s.
Proof.
  unfold merge_rel.
  destruct (store_nodes s !! (ka, a)) eqn:Ha; [|by rewrite Ha].
  destruct (store_nodes s !! (kb, b)) eqn:Hb; [|by rewrite Ha, Hb].
  case_bool_decide as Hin.
  - by rewrite Ha, Hb, bool_decide_true.
  - simpl. rewrite Ha, Hb, bool_decide_true; [done|].
    apply elem_of_app. right. by left.
Qed.

End UpsertTheorems.

(** ** Dirty flags *)

Module DirtyTheorems.
Import Store UpsertTheorems.

Lemma marked_has_all reason now props :
  has_all_dirty_fields (set_all (dirty_attrs reason now) props) = true.
Proof.
  unfold has_all_dirty_fields, dirty_keys, set_all, dirty_attrs. simpl.
  rewrite !bool_decide_true; [done|..]; by simplify_map_eq.
Qed.

Lemma removed_has_none props : has_dirty_field (remove_all dirty_keys props) = false.
Proof.
  unfold has_dirty_field, dirty_keys, remove_all. simpl.
  rewrite !bool_decide_false; [done|..]; simplify_map_eq; by intros [? ?].
Qed.

Lemma set_dirty_consistent reason now props :
  dirty_consistent (set_all (dirty_attrs reason now) props).
Proof. left. apply marked_has_all. Qed.

Lemma remove_dirty_consistent props :
  dirty_consistent props → dirty_consistent (remove_dirty props).
Proof.
  intros H. unfold remove_dirty. case_bool_decide; [|done].
  right. apply removed_has_none.
Qed.

Lemma remove_dirty_marked reason now props :
  has_dirty_field (remove_dirty (set_all (dirty_attrs reason now) props)) = false.
Proof.
  unfold remove_dirty. rewrite bool_decide_true; [apply removed_has_none|].
  unfold set_all, dirty_attrs. simpl. by simplify_map_eq.
Qed.

Lemma remove_dirty_idempotent props :
  remove_dirty (remove_dirty props) = remove_dirty props.
Proof.
  destruct (decide (props !! "dirty" = Some (VBool true))) as [Hd|Hd].
  - assert (remove_dirty props = remove_all dirty_keys props) as ->
      by (unfold remove_dirty; by rewrite bool_decide_true).
    unfold remove_dirty. rewrite bool_decide_false; [done|].
    unfold remove_all, dirty_keys. simpl. by simplify_map_eq.
  - assert (remove_dirty props = props) as ->
      by (unfold remove_dirty; by rewrite bool_decide_false).
    unfold remove_dirty. by rewrite bool_decide_false.
Qed.

(** A statement run for each identifier of a list: what a node ends with. *)
Lemma for_each_lookup (f : gmap string Value → gmap string Value)
    (ids : list string) (kind : Kind) (s : Db) (node : Kind * string) :
  (∀ x, f (f x) = f x) →
  store_nodes (foldl (λ s id, with_nodes (alter f (kind, id) (store_nodes s)) s) s ids)
    !! node
  = if bool_decide (node.1 = kind ∧ node.2 ∈ ids)
    then f <$> store_nodes s !! node
    else store_nodes s !! node.
Proof.
  intros Hf. revert s. induction ids as [|id ids IH]; intros s; simpl.
  - rewrite bool_decide_false; [done|]. intros [_ H]. by apply elem_of_nil in H.
  - rewrite IH. simpl. destruct node as [k i]. simpl.
    destruct (decide ((kind, id) = (k, i))) as [Heq|Hne].
    + simplify_eq. rewrite lookup_alter_eq.
      rewrite (bool_decide_true (_ ∧ i ∈ i :: ids)) by (split; [done|by left]).
      destruct (bool_decide (k = k ∧ i ∈ ids)); [|done].
      destruct (store_nodes s !! (k, i)); simpl; [by rewrite Hf|done].
    + rewrite lookup_alter_ne by done.
      apply (f_equal (λ b : bool, if b then _ else _)).
      apply bool_decide_ext. rewrite elem_of_cons. split; [tauto|].
      intros [-> [->|?]]; [done|tauto].
Qed.

Lemma mark_lookup ids kind reason now s node :
  store_nodes (mark ids kind reason now s) !! node
  = if bool_decide (node.1 = kind ∧ node.2 ∈ ids)
    then set_all (dirty_attrs reason now) <$> store_nodes s !! node
    else store_nodes s !! node.
Proof. apply (for_each_lookup (set_all (dirty_attrs reason now))), set_all_idempotent. Qed.

Lemma clear_lookup ids kind s node :
  store_nodes (clear ids kind s) !! node
  = if bool_decide (node.1 = kind ∧ node.2 ∈ ids)
    then remove_dirty <$> store_nodes s !! node
    else store_nodes s !! node.
Proof. apply (for_each_lookup remove_dirty), remove_dirty_idempotent. Qed.

Lemma mark_consistent ids kind reason now s :
  store_consistent s → store_consistent (mark ids kind reason now s).
Proof.
  intros Hs node props. rewrite mark_lookup. case_bool_decide.
  - intros Hl. apply fmap_Some in Hl as (props0 & _ & ->). apply set_dirty_consistent.
  - apply Hs.
Qed.

Lemma clear_consistent ids kind s :
  store_consistent s → store_consistent (clear ids kind s).
Proof.
  intros Hs node props. rewrite clear_lookup. case_bool_decide.
  - intros Hl. apply fmap_Some in Hl as (props0 & Hn & ->).
    apply remove_dirty_consistent. by eapply Hs.
  - apply Hs.
Qed.

Lemma clear_all_consistent s : store_consistent s → store_consistent (clear_all s).
Proof.
  intros Hs node props. unfold clear_all. simpl. rewrite lookup_fmap.
  intros Hl. apply fmap_Some in Hl as (props0 & Hn & ->).
  apply remove_dirty_consistent. by eapply Hs.
Qed.

Lemma empty_consistent : store_consistent Store.empty.
Proof. intros node props Hl. simpl in Hl. by rewrite lookup_empty in Hl. Qed.

(** An upsert whose payload assigns none of the dirty fields keeps the
    invariant. *)
Lemma upsert_consistent k p s :
  Forall (λ key, assigned (p_attrs p) key = None) dirty_keys →
  store_consistent s → store_consistent (upsert k p s).
Proof.
  intros Hkeys Hs node props Hl.
  assert (∀ props0, dirty_consistent props0 →
            dirty_consistent (set_all (p_attrs p) props0)) as Hset.
  { intros props0. unfold dirty_consistent, has_all_dirty_fields, has_dirty_field.
    unfold dirty_keys in *. simpl.
    apply Forall_cons in Hkeys as [H1 Hkeys].
    apply Forall_cons in Hkeys as [H2 Hkeys].
    apply Forall_cons in Hkeys as [H3 _].
    by rewrite !set_all_lookup, H1, H2, H3. }
  unfold upsert, set_props in Hl. simpl in Hl.
  destruct (decide (node = (k, p_id p))) as [->|Hne].
  - rewrite lookup_alter_eq in Hl. apply fmap_Some in Hl as (props0 & Hn & ->).
    apply Hset. unfold merge_node in Hn.
    destruct (store_nodes s !! (k, p_id p)) eqn:Hold.
    + by eapply Hs.
    + simpl in Hn. rewrite lookup_insert_eq in Hn. simplify_eq.
      right. unfold has_dirty_field, dirty_keys. simpl.
      rewrite !bool_decide_false; [done|..]; simplify_map_eq; by intros [? ?].
  - rewrite lookup_alter_ne in Hl by done. unfold merge_node in Hl.
    destruct (store_nodes s !! (k, p_id p)) eqn:Hold; [by eapply Hs|].
    simpl in Hl. rewrite lookup_insert_ne in Hl by done. by eapply Hs.
Qed.

(** C7. A graph in which every node carries all three dirty fields or
    none of them stays so under [mark] and under [clear] (and under the
    clean-up statement of the data script); and after [mark] followed by
    [clear] on the same identifiers no node of that kind in the list
    keeps any of [dirty], [dirty_reason], [dirty_at]. *)
Theorem dirty_fields_all_or_none (ids : list string) (kind : Kind)
    (reason : string) (now : nat) (s : Db) :
  (store_consistent s → store_consistent (mark ids kind reason now s))
  ∧ (store_consistent s → store_consistent (clear ids kind s))
  ∧ (store_consistent s → store_consistent (clear_all s))
  ∧ (∀ id props, id ∈ ids →
       store_nodes (clear ids kind (mark ids kind reason now s)) !! (kind, id)
         = Some props →
       has_dirty_field props = false).
Proof.
  split_and!.
  - apply mark_consistent.
  - apply clear_consistent.
  - apply clear_all_consistent.
  - intros id props Hid. rewrite clear_lookup, mark_lookup. simpl.
    rewrite !bool_decide_true by done.
    intros Hl. apply fmap_Some in Hl as (props1 & Hl & ->).
    apply fmap_Some in Hl as (props0 & _ & ->).
    apply remove_dirty_marked.
Qed.

(** Steps 1 to 3 of the test order on AGG_ORDER. *)
Example mark_then_clear_AGG_ORDER :
  let s := upsert Aggregate {| p_id := "AGG_ORDER"; p_attrs := [("name", VStr "Order")] |}
             Store.empty in
  store_nodes (mark ["AGG_ORDER"] Aggregate "test" 7 s) !! (Aggregate, "AGG_ORDER")
    = Some (<["dirty_at" := VTime 7]> (<["dirty_reason" := VStr "test"]>
              (<["dirty" := VBool true]> (<["name" := VStr "Order"]>
                 {[ "id" := VStr "AGG_ORDER" ]}))))
  ∧ clear ["AGG_ORDER"] Aggregate (mark ["AGG_ORDER"] Aggregate "test" 7 s) = s
  ∧ clear_all (mark ["AGG_ORDER"] Aggregate "test" 7 s) = s.
Proof. split_and!; vm_compute; reflexivity. Qed.

End DirtyTheorems.

(** ** Change Detector *)

Module ChangeDetectorTheorems.
Import Store ChangeDetector.

Lemma latest_add_change k id c s :
  about k id c → latest k id (add_change c s) = Some c.
Proof.
  intros Hc. unfold latest, add_change. simpl.
  rewrite filter_app, filter_cons_True, filter_nil by done. apply last_snoc.
Qed.

Lemma recorded_add_change k id c s :
  about k id c → recorded k id (add_change c s) = Some (after_hash c).
Proof. intros Hc. unfold recorded. by rewrite latest_add_change. Qed.

(** C6. When the fingerprint recorded for (kind, id) is the payload's,
    [detect] answers [changed = false] and returns the graph as it was;
    when none is recorded or a different one is, it answers
    [changed = true] and the graph has exactly one more Change record,
    about (kind, id), whose [before_hash] is the recorded fingerprint and
    whose [after_hash] is the payload's, which is then the recorded
    one. *)
Theorem detect_records_a_change_iff_fingerprint_differs
    (fingerprint : Payload → string) (k : Kind) (id : string)
    (payload : Payload) (reason : string) (now : nat) (s : Db) :
  (recorded k id s = Some (fingerprint payload) →
     detect fingerprint k id payload reason now s = (false, s))
  ∧ (recorded k id s ≠ Some (fingerprint payload) →
     ∃ c, detect fingerprint k id payload reason now s = (true, add_change c s)
          ∧ store_changes (add_change c s) = store_changes s ++ [c]
          ∧ store_nodes (add_change c s) = store_nodes s
          ∧ store_rels (add_change c s) = store_rels s
          ∧ change_label c = k ∧ change_node_id c = id
          ∧ before_hash c = recorded k id s
          ∧ after_hash c = fingerprint payload
          ∧ recorded k id (add_change c s) = Some (fingerprint payload)).
Proof.
  split; intros Hrec; unfold detect.
  - by rewrite bool_decide_true.
  - rewrite bool_decide_false by done. eexists. split; [reflexivity|].
    split_and!; try reflexivity.
    by rewrite recorded_add_change.
Qed.

(** Detecting the same payload again writes nothing more. *)
Lemma detect_again fingerprint k id payload reason now reason' now' s :
  detect fingerprint k id payload reason' now'
    (detect fingerprint k id payload reason now s).2
  = (false, (detect fingerprint k id payload reason now s).2).
Proof.
  unfold detect at 2 3. case_bool_decide as Hrec; simpl.
  - unfold detect. by rewrite bool_decide_true.
  - unfold detect. rewrite bool_decide_true; [done|].
    by rewrite recorded_add_change.
Qed.

(** US_001 of the test data, recorded with H1, is given a payload whose
    fingerprint is H2, and then the same payload again. *)
Example detect_US_001 :
  let fingerprint (p : Payload) :=
    match list_find (λ kv, kv.1 = "source_hash") (p_attrs p) with
    | Some (_, (_, VStr h)) => h
    | _ => ""
    end in
  let s := upsert UserStory {| p_id := "US_001"; p_attrs := [("source_hash", VStr "H1")] |}
             Store.empty in
  let p2 := {| p_id := "US_001"; p_attrs := [("source_hash", VStr "H2")] |} in
  let r := detect fingerprint UserStory "US_001" p2 "edited" 9 s in
  r.1 = true
  ∧ store_changes r.2
    = [{| change_id := 0; change_label := UserStory; change_node_id := "US_001";
          before_hash := Some "H1"; after_hash := "H2";
          change_reason := "edited"; change_at := 9 |}]
  ∧ (detect fingerprint UserStory "US_001" p2 "edited" 10 r.2).1 = false.
Proof. split_and!; vm_compute; reflexivity. Qed.

End ChangeDetectorTheorems.

(** ** Run Tracker *)

Module RunTrackerTheorems.
Import RunTracker.

Lemma forward_refl a : forward a a.
Proof. by left. Qed.

Lemma forward_trans a b c : forward a b → forward b c → forward a c.
Proof. unfold forward. intros [->|?] [->|?]; auto. right. lia. Qed.

(** Nothing lies further along than a terminal status. *)
Lemma forward_terminal a b : is_terminal a = true → forward a b → b = a.
Proof. unfold forward. destruct a, b; simpl; intros ? [?|?]; done || lia. Qed.

(** What one successful call does to a Run that exists. *)
Lemma step_run runs runs' runId r :
  step runs runs' → runs !! runId = Some r →
  ∃ r', runs' !! runId = Some r'
        ∧ forward (run_status r) (run_status r')
        ∧ (is_terminal (run_status r) = true → r' = r).
Proof.
  intros [op Hop] Hr. destruct op as [phase agent now|rid ids|rid status now]; simpl in Hop.
  - injection Hop as <-. exists r. split; [|split; [apply forward_refl|done]].
    unfold start. simpl. rewrite lookup_insert_ne; [done|].
    intros Heq. pose proof (is_fresh (dom runs)) as Hfresh.
    apply Hfresh. rewrite Heq. by apply elem_of_dom.
  - unfold touch in Hop. destruct (decide (rid = runId)) as [->|Hne].
    + rewrite Hr in Hop. destruct (is_terminal (run_status r)) eqn:Ht; [discriminate|].
      injection Hop as <-. rewrite lookup_insert_eq. eexists. split; [done|]. simpl.
      split; [apply forward_refl|done].
    + destruct (runs !! rid) as [r0|]; [|discriminate].
      destruct (is_terminal (run_status r0)); [discriminate|].
      injection Hop as <-. rewrite lookup_insert_ne by done. exists r.
      split; [done|split; [apply forward_refl|done]].
  - unfold finish in Hop. destruct (decide (rid = runId)) as [->|Hne].
    + rewrite Hr in Hop. destruct (is_terminal (run_status r)) eqn:Ht; [discriminate|].
      injection Hop as <-. rewrite lookup_insert_eq. eexists. split; [done|]. simpl.
      split; [|done]. right.
      destruct (run_status r), status; simpl in *; done || lia.
    + destruct (runs !! rid) as [r0|]; [|discriminate].
      destruct (is_terminal (run_status r0)); [discriminate|].
      injection Hop as <-. rewrite lookup_insert_ne by done. exists r.
      split; [done|split; [apply forward_refl|done]].
Qed.

(** The same over any number of calls. *)
Lemma steps_run runs runs' runId r :
  rtc step runs runs' → runs !! runId = Some r →
  ∃ r', runs' !! runId = Some r'
        ∧ forward (run_status r) (run_status r')
        ∧ (is_terminal (run_status r) = true → r' = r).
Proof.
  intros Hsteps. revert r. induction Hsteps as [runs|runs mid runs' Hstep _ IH]; intros r Hr.
  - exists r. split; [done|split; [apply forward_refl|done]].
  - destruct (step_run _ _ _ _ Hstep Hr) as (r1 & Hr1 & Hf1 & Ht1).
    destruct (IH _ Hr1) as (r2 & Hr2 & Hf2 & Ht2).
    exists r2. split; [done|]. split; [by eapply forward_trans|].
    intros Ht. specialize (Ht1 Ht). subst r1. by apply Ht2.
Qed.

(** C8. Over any sequence of successful calls to the tracker a Run
    stays registered and its status only moves forward along
    queued, running, {completed | failed}; a Run that has reached a
    terminal state is left exactly as it is from then on, every [touch]
    on it is refused, and every [finish] on it fails with
    [InvalidPhaseSequence]. *)
Theorem run_status_only_moves_forward (runs runs' : gmap string Run)
    (runId : string) (r : Run) :
  runs !! runId = Some r →
  (rtc step runs runs' →
     ∃ r', runs' !! runId = Some r'
           ∧ forward (run_status r) (run_status r')
           ∧ (is_terminal (run_status r) = true → r' = r))
  ∧ (is_terminal (run_status r) = true →
     (∀ nodeIds, touch runId nodeIds runs = inl InvalidPhaseSequence)
     ∧ (∀ status now, finish runId status now runs = inl InvalidPhaseSequence)).
Proof.
  intros Hr. split.
  - intros Hsteps. by eapply steps_run.
  - intros Ht. split; intros; unfold touch, finish; by rewrite Hr, Ht.
Qed.

(** A completed Run is left as it is and accepts nothing more. *)
Lemma run_status_only_moves_forward_witness :
  (∃ r', sample_runs !! "RUN_1" = Some r' ∧ run_status r' = completed)
  ∧ touch "RUN_1" ["F_ORDER_AMOUNT"] sample_runs = inl InvalidPhaseSequence
  ∧ finish "RUN_1" Failed 3 sample_runs = inl InvalidPhaseSequence.
Proof.
  pose proof (run_status_only_moves_forward sample_runs sample_runs "RUN_1" _
                eq_refl) as [Hsteps Hterm].
  destruct (Hsteps (rtc_refl _ _)) as (r' & Hr' & _ & Hsame).
  destruct (Hterm eq_refl) as [Htouch Hfinish].
  split; [|split; [apply Htouch|apply Hfinish]].
  exists r'. split; [done|]. by rewrite (Hsame eq_refl).
Defined.

(** start, touch, finish, and then finish again. *)
Example run_lifecycle :
  let '(id, runs1) := start PhaseA "aggregate-draft" 1 ∅ in
  ∃ runs2 runs3,
    touch id ["AGG_ORDER"] runs1 = inr runs2
    ∧ finish id Completed 2 runs2 = inr runs3
    ∧ run_status <$> runs1 !! id = Some running
    ∧ run_status <$> runs3 !! id = Some completed
    ∧ touched <$> runs3 !! id = Some ["AGG_ORDER"]
    ∧ finish id Failed 3 runs3 = inl InvalidPhaseSequence
    ∧ touch id ["F_ORDER_ID"] runs3 = inl InvalidPhaseSequence.
Proof. vm_compute. do 2 eexists. split_and!; reflexivity. Qed.

End RunTrackerTheorems.

(** ** The model modifier store *)

Module ModelModifierTheorems.
Import ModelModifier.

(** *** ReAct traces *)

Lemma no_repeat_snoc steps x :
  no_repeat (steps ++ [x])
  = no_repeat steps && from_option (λ l, may_follow l x) true (last steps).
Proof.
  induction steps as [|a [|b rest] IH]; simpl in *.
  - done.
  - by rewrite andb_true_r.
  - rewrite IH. by rewrite andb_assoc.
Qed.

Lemma upsertReactStep_nil nextStep : upsertReactStep [] nextStep = [nextStep].
Proof. reflexivity. Qed.

(** The two branches of [upsertReactStep] on a non-empty array. *)
Lemma upsertReactStep_snoc steps l nextStep :
  upsertReactStep (steps ++ [l]) nextStep
  = if same_step l nextStep then steps ++ [refresh l nextStep]
    else steps ++ [l; nextStep].
Proof.
  unfold upsertReactStep. rewrite length_app. simpl.
  rewrite bool_decide_false by lia.
  replace (length steps + 1 - 1) with (length steps) by lia.
  rewrite lookup_app_r, Nat.sub_diag by lia. simpl.
  destruct (same_step l nextStep).
  - by rewrite insert_app_r_alt, Nat.sub_diag by lia.
  - by rewrite <- app_assoc.
Qed.

Lemma refresh_same l nextStep a :
  same_step l nextStep = true →
  step_type (refresh l nextStep) = step_type l
  ∧ step_action (refresh l nextStep) = step_action l
  ∧ may_follow a (refresh l nextStep) = may_follow a l.
Proof.
  unfold same_step, refresh, may_follow. simpl. intros Hsame.
  apply andb_true_iff in Hsame as [Htype Haction].
  apply bool_decide_eq_true in Htype.
  assert ((if bool_decide (step_type nextStep = action)
           then step_action nextStep else step_action l) = step_action l) as ->.
  { case_bool_decide as Hact; [|done]. simpl in Haction.
    apply bool_decide_eq_true in Haction. done. }
  done.
Qed.

Lemma may_follow_not_same l nextStep :
  same_step l nextStep = false → may_follow l nextStep = true.
Proof.
  unfold same_step, may_follow.
  repeat case_bool_decide; simpl; done.
Qed.

Lemma upsertReactStep_no_repeat steps nextStep :
  no_repeat steps = true → no_repeat (upsertReactStep steps nextStep) = true.
Proof.
  destruct steps as [|l steps _] using rev_ind; [done|].
  rewrite upsertReactStep_snoc, no_repeat_snoc. intros Hwf.
  apply andb_true_iff in Hwf as [Hsteps Hlast].
  destruct (same_step l nextStep) eqn:Hsame.
  - rewrite no_repeat_snoc, Hsteps. simpl.
    destruct (last steps) as [a|]; simpl in *; [|done].
    by destruct (refresh_same l nextStep a Hsame) as (_ & _ & ->).
  - change (steps ++ [l; nextStep]) with (steps ++ [l] ++ [nextStep]).
    rewrite app_assoc, !no_repeat_snoc, last_snoc, Hsteps, Hlast. simpl.
    by apply may_follow_not_same.
Qed.

Lemma dispatch_no_repeat event st am st' am' effects :
  dispatch event st am = (st', am', effects) →
  no_repeat (reactTrace st) = true → no_repeat (msg_reactSteps am) = true →
  no_repeat (reactTrace st') = true ∧ no_repeat (msg_reactSteps am') = true.
Proof.
  intros Hd Ht Hm.
  destruct event; simpl in Hd; injection Hd as <- <- <-; simpl;
    auto using upsertReactStep_no_repeat.
Qed.

Lemma handleStreamEvent_no_repeat event st am st' am' effects :
  handleStreamEvent event st am = (st', am', effects) →
  no_repeat (reactTrace st) = true → no_repeat (msg_reactSteps am) = true →
  no_repeat (reactTrace st') = true ∧ no_repeat (msg_reactSteps am') = true.
Proof.
  unfold handleStreamEvent.
  destruct (dispatch event st am) as [[st1 am1] e1] eqn:Hd.
  intros Heq Ht Hm. injection Heq as <- <- <-. simpl.
  by eapply dispatch_no_repeat.
Qed.

Lemma updateLastAssistantMessage_ok message ms :
  no_repeat (msg_reactSteps message) = true →
  Forall (λ m, no_repeat (msg_reactSteps m) = true) ms →
  Forall (λ m, no_repeat (msg_reactSteps m) = true)
         (updateLastAssistantMessage message ms).
Proof.
  intros Hm. induction 1 as [|m ms Hhead Htail IH]; simpl; [constructor|].
  case_bool_decide; constructor; auto.
Qed.

Lemma dispatch_messages event st am :
  messages (dispatch event st am).1.1 = messages st.
Proof. by destruct event. Qed.

Lemma handleStreamEvent_ok event st am st' am' effects :
  handleStreamEvent event st am = (st', am', effects) →
  traces_ok st → no_repeat (msg_reactSteps am) = true →
  traces_ok st' ∧ no_repeat (msg_reactSteps am') = true.
Proof.
  intros Heq [Ht Hms] Hm.
  destruct (handleStreamEvent_no_repeat _ _ _ _ _ _ Heq Ht Hm) as [Ht' Hm'].
  split; [split|]; try done.
  unfold handleStreamEvent in Heq.
  pose proof (dispatch_messages event st am) as Hsame.
  destruct (dispatch event st am) as [[st1 am1] e1].
  injection Heq as <- <- <-. simpl in *.
  apply updateLastAssistantMessage_ok; [done|by rewrite Hsame].
Qed.

Lemma handleAll_ok events st am st' am' effects :
  handleAll events st am = (st', am', effects) →
  traces_ok st → no_repeat (msg_reactSteps am) = true →
  traces_ok st' ∧ no_repeat (msg_reactSteps am') = true.
Proof.
  revert st am st' am' effects.
  induction events as [|event rest IH]; intros st am st' am' effects; simpl.
  - intros Heq. by injection Heq as <- <- <-.
  - destruct (handleStreamEvent event st am) as [[st1 am1] e1] eqn:H1.
    destruct (handleAll rest st1 am1) as [[st2 am2] e2] eqn:H2.
    intros Heq Hst Ham. injection Heq as <- <- <-.
    destruct (handleStreamEvent_ok _ _ _ _ _ _ H1 Hst Ham) as [Hst1 Ham1].
    by eapply IH.
Qed.

Lemma processModificationRequest_ok env prompt selected st :
  traces_ok st → traces_ok (processModificationRequest env prompt selected st).1.1.
Proof.
  intros [Ht Hms]. unfold processModificationRequest.
  destruct (response env) as [message|detail status|events]; simpl; [done..|].
  match goal with
  | |- context [handleAll events ?s ?a] =>
      destruct (handleAll events s a) as [[st2 am2] e2] eqn:Hall;
      destruct (handleAll_ok _ _ _ _ _ _ Hall) as [[Ht2 Hms2] Ham2]
  end; simpl.
  - split; simpl; [done|]. apply Forall_app. split; [done|]. by repeat constructor.
  - done.
  - split; simpl; [done|]. by apply updateLastAssistantMessage_ok.
Qed.

Lemma sendMessage_ok env content st :
  traces_ok st → traces_ok (sendMessage env content st).1.
Proof.
  intros [Ht Hms]. unfold sendMessage.
  destruct (negb (truthy (trim content))); [done|].
  case_bool_decide.
  - split; simpl; [done|]. apply Forall_app. split; [done|]. by repeat constructor.
  - match goal with
    | |- context [processModificationRequest env content ?sel ?s] =>
        pose proof (processModificationRequest_ok env content sel s) as Hp;
        destruct (processModificationRequest env content sel s) as [[st2 e2] thrown]
    end.
    simpl in Hp. destruct Hp as [Ht2 Hms2].
    { split; simpl; [done|]. apply Forall_app. split; [done|]. by repeat constructor. }
    destruct thrown; split; simpl; try done.
    apply Forall_app. split; [done|]. by repeat constructor.
Qed.

(** C9. [upsertReactStep] keeps a trace free of repeats: no two
    neighbouring entries of the same type, two actions excepted when
    their names differ. When the incoming step has the type of the last
    entry (and, for an action, its name), the array keeps its length and
    its entries, the last one with the new content; otherwise the step is
    appended. [handleStreamEvent] therefore keeps both [reactTrace] and
    the assistant message's [reactSteps] free of repeats, and so does a
    whole [sendMessage] for the global trace and the trace of every
    message in the store. *)
Theorem upsertReactStep_keeps_trace_free_of_repeats
    (steps : list ReactStep) (nextStep : ReactStep) :
  (no_repeat steps = true → no_repeat (upsertReactStep steps nextStep) = true)
  ∧ (∀ init l, steps = init ++ [l] →
       step_type l = step_type nextStep →
       (step_type nextStep = action → step_action l = step_action nextStep) →
       upsertReactStep steps nextStep
         = init ++ [mkStep (step_type l) (step_content nextStep) (step_action l)]
       ∧ length (upsertReactStep steps nextStep) = length steps)
  ∧ (∀ event st am st' am' effects,
       handleStreamEvent event st am = (st', am', effects) →
       no_repeat (reactTrace st) = true → no_repeat (msg_reactSteps am) = true →
       no_repeat (reactTrace st') = true ∧ no_repeat (msg_reactSteps am') = true)
  ∧ (∀ env content st, traces_ok st → traces_ok (sendMessage env content st).1).
Proof.
  split_and!; [| | |apply sendMessage_ok].
  - apply upsertReactStep_no_repeat.
  - intros init l -> Htype Haction. rewrite upsertReactStep_snoc.
    assert (same_step l nextStep = true) as Hsame.
    { unfold same_step. rewrite (bool_decide_true _ Htype). simpl.
      case_bool_decide as Hact; simpl; [|done].
      apply bool_decide_eq_true. auto. }
    rewrite Hsame.
    destruct (refresh_same l nextStep l Hsame) as (_ & Hact & _).
    split; [|by rewrite !length_app].
    do 2 f_equal. unfold refresh in *. simpl in *. by rewrite Hact.
  - intros. by eapply handleStreamEvent_no_repeat.
Qed.

(** Tokens of one thought, then an action streamed in two pieces, then
    another action: three entries. *)
Example streamed_trace :
  foldl upsertReactStep []
    [mkStep thought [72]%N None; mkStep thought [72; 105]%N None;
     mkStep action [49]%N (Some [97]%N); mkStep action [49; 50]%N (Some [97]%N);
     mkStep action [51]%N (Some [98]%N)]
  = [mkStep thought [72; 105]%N None;
     mkStep action [49; 50]%N (Some [97]%N);
     mkStep action [51]%N (Some [98]%N)].
Proof. reflexivity. Qed.

(** *** Blank input *)

(** C10. When the trimmed content is empty, [sendMessage] returns the
    store as it found it (messages, isProcessing, error, reactTrace,
    streamingContent, appliedChanges and the rest) and issues no
    request. *)
Theorem sendMessage_blank_is_a_no_op (env : Env) (content : jsstring) (st : State) :
  trim content = [] → sendMessage env content st = (st, []).
Proof. intros Hblank. unfold sendMessage. by rewrite Hblank. Qed.

(** Space, tab, line feed, no-break space and ideographic space. *)
Lemma sendMessage_blank_is_a_no_op_witness :
  trim [32; 9; 10; 160; 12288]%N = []
  ∧ sendMessage sample_env [32; 9; 10; 160; 12288]%N initial_state
    = (initial_state, []).
Proof.
  split; [reflexivity|].
  apply (sendMessage_blank_is_a_no_op sample_env [32; 9; 10; 160; 12288]%N).
  reflexivity.
Defined.

(** The same environment with something to say: a request goes out and
    the messages grow. *)
Example sendMessage_not_blank :
  let '(st, effects) := sendMessage sample_env [32; 104; 105; 32]%N initial_state in
  length effects = 1
  ∧ length (messages st) = 2
  ∧ isProcessing st = false
  ∧ msg_content <$> last (messages st) = Some [79; 75]%N
  ∧ reactTrace st = [mkStep thought [72]%N None].
Proof. vm_compute. split_and!; reflexivity. Qed.

(** Nothing selected on the canvas: a system message and no request. *)
Example sendMessage_without_selection :
  let env := {| selectedNodes := []; generateId := generateId sample_env;
                timestamp := timestamp sample_env; response := response sample_env |} in
  let '(st, effects) := sendMessage env [104; 105]%N initial_state in
  effects = []
  ∧ (msg_type <$> messages st) = [system]
  ∧ (msg_content <$> messages st) = [select_first_text].
Proof. vm_compute. split_and!; reflexivity. Qed.

End ModelModifierTheorems.

(** ** The model modifier store: the response stream *)

Module ModelModifierStream.
Import ModelModifier.

Lemma split_lines_no_feed r : 10%N ∉ r → split_lines r = [r].
Proof.
  induction r as [|c r IH]; [done|]. intros Hr. cbn [split_lines].
  apply not_elem_of_cons in Hr as [Hc Hr].
  destruct (N.eqb_spec c 10); [congruence|]. by rewrite IH.
Qed.

Lemma split_lines_line l rest :
  10%N ∉ l → split_lines (l ++ 10%N :: rest) = l :: split_lines rest.
Proof.
  induction l as [|c l IH]; intros Hl; [done|].
  apply not_elem_of_cons in Hl as [Hc Hl]. cbn [app split_lines].
  destruct (N.eqb_spec c 10); [congruence|]. by rewrite IH.
Qed.

Lemma split_lines_flat ls r :
  Forall (λ l, 10%N ∉ l) ls → 10%N ∉ r →
  split_lines (flat ls ++ r) = ls ++ [r].
Proof.
  intros Hls Hr. induction Hls as [|l ls Hl _ IH]; simpl.
  - by apply split_lines_no_feed.
  - unfold flat in *. cbn [mbind list_bind] in *. rewrite <- !app_assoc. simpl.
    rewrite split_lines_line by done. by rewrite IH.
Qed.

Lemma split_lines_spec s :
  ∃ ls r, split_lines s = ls ++ [r] ∧ s = flat ls ++ r
          ∧ Forall (λ l, 10%N ∉ l) ls ∧ 10%N ∉ r.
Proof.
  induction s as [|c s (ls & r & Hs & -> & Hls & Hr)].
  - exists [], []. split_and!; [done|done|constructor|apply not_elem_of_nil].
  - cbn [split_lines]. destruct (N.eqb_spec c 10) as [->|Hc].
    + exists ([] :: ls), r. rewrite Hs. split_and!; [done|done| |done].
      constructor; [apply not_elem_of_nil|done].
    + rewrite Hs. destruct ls as [|l ls]; simpl.
      * exists [], (c :: r). split_and!; [done|done|constructor|].
        apply not_elem_of_cons. split; [congruence|done].
      * exists ((c :: l) :: ls), r. apply Forall_cons in Hls as [Hl Hls].
        split_and!; [done|done| |done].
        constructor; [|done]. apply not_elem_of_cons. split; [congruence|done].
Qed.

Lemma removelast_snoc {A} (l : list A) x : removelast (l ++ [x]) = l.
Proof. rewrite removelast_app by done. simpl. apply app_nil_r. Qed.

Lemma handleAll_app e1 e2 st am :
  handleAll (e1 ++ e2) st am
  = let '(st1, am1, f1) := handleAll e1 st am in
    let '(st2, am2, f2) := handleAll e2 st1 am1 in
    (st2, am2, f1 ++ f2).
Proof.
  revert st am. induction e1 as [|e e1 IH]; intros st am; simpl.
  - by destruct (handleAll e2 st am) as [[??]?].
  - destruct (handleStreamEvent e st am) as [[st1 am1] f1].
    rewrite IH. destruct (handleAll e1 st1 am1) as [[st2 am2] f2].
    destruct (handleAll e2 st2 am2) as [[st3 am3] f3]. by rewrite app_assoc.
Qed.

Lemma read_loop_buffer parse chunks buffer st am :
  10%N ∉ buffer →
  read_loop parse chunks buffer st am
  = handleAll (events_of_lines parse
                 (removelast (split_lines (buffer ++ concat chunks)))) st am.
Proof.
  revert buffer st am. induction chunks as [|value rest IH]; intros buffer st am Hb.
  - simpl. rewrite app_nil_r, split_lines_no_feed by done. done.
  - cbn [read_loop concat].
    destruct (split_lines_spec (buffer ++ value)) as (ls & r & Hs & Hbv & Hls & Hr).
    rewrite Hs, removelast_snoc, last_snoc. simpl.
    rewrite app_assoc, Hbv, <- app_assoc.
    destruct (split_lines_spec (r ++ concat rest)) as (ls' & r' & Hs' & Hrc & Hls' & Hr').
    rewrite Hrc, app_assoc.
    assert (flat ls ++ flat ls' = flat (ls ++ ls')) as ->.
    { unfold flat. by rewrite bind_app. }
    rewrite split_lines_flat by (by try apply Forall_app).
    rewrite removelast_snoc. unfold events_of_lines at 2. rewrite omap_app.
    rewrite handleAll_app. fold (events_of_lines parse ls).
    destruct (handleAll (events_of_lines parse ls) st am) as [[st1 am1] f1].
    rewrite IH by done. rewrite Hs', removelast_snoc. done.
Qed.

(** However the response arrives in chunks, the events handled are
    those of the complete lines of the whole text, in order; what
    follows the last line feed is never handled. *)
Theorem read_loop_handles_the_complete_lines
    (parse : jsstring → option StreamEvent) (chunks : list jsstring)
    (st : State) (am : Message) :
  read_loop parse chunks [] st am
  = handleAll (events_of_lines parse (removelast (split_lines (concat chunks)))) st am
  ∧ (∀ chunks', concat chunks' = concat chunks →
       read_loop parse chunks' [] st am = read_loop parse chunks [] st am)
  ∧ (∀ tail, 10%N ∉ tail →
       read_loop parse (chunks ++ [tail]) [] st am = read_loop parse chunks [] st am).
Proof.
  assert (∀ cs, read_loop parse cs [] st am
    = handleAll (events_of_lines parse (removelast (split_lines (concat cs)))) st am) as H.
  { intros cs. by rewrite read_loop_buffer by apply not_elem_of_nil. }
  split_and!.
  - apply H.
  - intros chunks' Heq. by rewrite !H, Heq.
  - intros tail Htail. rewrite !H, concat_app. simpl. rewrite app_nil_r.
    destruct (split_lines_spec (concat chunks)) as (ls & r & Hs & Hc & Hls & Hr).
    rewrite Hs, removelast_snoc, Hc, <- app_assoc.
    rewrite split_lines_flat; [by rewrite removelast_snoc|done|].
    rewrite elem_of_app. tauto.
Qed.

End ModelModifierStream.

(** ** The model modifier store: requests and their outcome *)

Module ModelModifierSession.
Import ModelModifier.

Lemma dispatch_id event st am :
  msg_id (dispatch event st am).1.2 = msg_id am
  ∧ msg_type (dispatch event st am).1.2 = msg_type am
  ∧ messages (dispatch event st am).1.1 = messages st
  ∧ isProcessing (dispatch event st am).1.1 = isProcessing st.
Proof. by destruct event. Qed.

Lemma dispatch_changes event st am :
  msg_changes (dispatch event st am).1.2
    = msg_changes am ++ changes_of [event]
  ∧ appliedChanges (dispatch event st am).1.1
    = appliedChanges st ++ changes_of [event]
  ∧ Forall (λ e, e = SyncAfterChanges (msg_changes am) ∧ msg_changes am ≠ [])
      (dispatch event st am).2.
Proof.
  destruct event; simpl; rewrite ?app_nil_r; split_and!; try done.
  case_bool_decide as Hl; constructor; [|constructor].
  split; [done|]. intros Hnil. by rewrite Hnil in Hl.
Qed.

Lemma dispatch_error event st am :
  is_error_event event = false →
  error (dispatch event st am).1.1 = error st.
Proof. by destruct event. Qed.

Lemma updateLastAssistantMessage_last am am' before :
  msg_id am' = msg_id am → msg_id am ∉ msg_id <$> before →
  updateLastAssistantMessage am' (before ++ [am]) = before ++ [am'].
Proof.
  intros Hid. induction before as [|m before IH]; simpl; intros Hfresh.
  - by rewrite bool_decide_true.
  - apply not_elem_of_cons in Hfresh as [Hm Hfresh].
    rewrite bool_decide_false by congruence. by rewrite IH.
Qed.

Lemma handleStreamEvent_streaming before event st am :
  streaming before st am →
  streaming before (handleStreamEvent event st am).1.1
    (handleStreamEvent event st am).1.2.
Proof.
  intros [Hm Hf]. unfold handleStreamEvent.
  pose proof (dispatch_id event st am) as (Hid & _ & Hms & _).
  destruct (dispatch event st am) as [[st1 am1] e1]. simpl in *.
  split; simpl; [|by rewrite Hid].
  rewrite Hms, Hm. by apply updateLastAssistantMessage_last.
Qed.

Lemma handleAll_streaming before events st am :
  streaming before st am →
  streaming before (handleAll events st am).1.1 (handleAll events st am).1.2.
Proof.
  revert st am. induction events as [|event rest IH]; intros st am Hs; [done|].
  cbn [handleAll].
  pose proof (handleStreamEvent_streaming before event st am Hs) as Hs1.
  destruct (handleStreamEvent event st am) as [[st1 am1] e1]. cbn [fst snd] in *.
  specialize (IH _ _ Hs1).
  by destruct (handleAll rest st1 am1) as [[st2 am2] e2].
Qed.

(** What the loop over a stream does to the flags and the changes. *)
Lemma handleAll_changes events st am :
  let r := handleAll events st am in
  msg_type r.1.2 = msg_type am
  ∧ isProcessing r.1.1 = isProcessing st
  ∧ msg_changes r.1.2 = msg_changes am ++ changes_of events
  ∧ appliedChanges r.1.1 = appliedChanges st ++ changes_of events
  ∧ Forall (syncs_within (msg_changes am ++ changes_of events)) r.2
  ∧ (forallb (λ e, negb (is_error_event e)) events = true → error r.1.1 = error st).
Proof.
  revert st am. induction events as [|event rest IH]; intros st am.
  - simpl. rewrite !app_nil_r. split_and!; done.
  - cbn [handleAll]. unfold handleStreamEvent in *.
    pose proof (dispatch_id event st am) as (Hid & Hty & Hms & Hp).
    pose proof (dispatch_changes event st am) as (Hc & Ha & Hsync).
    pose proof (dispatch_error event st am) as Herr.
    destruct (dispatch event st am) as [[st1 am1] e1]. cbn [fst snd] in *.
    specialize (IH (with_messages (updateLastAssistantMessage am1 (messages st1)) st1) am1).
    cbn zeta in IH.
    destruct (handleAll rest _ am1) as [[st2 am2] e2]. cbn [fst snd] in *.
    destruct IH as (Hty2 & Hp2 & Hc2 & Ha2 & Hsync2 & Herr2).
    cbn [with_messages isProcessing appliedChanges error] in Hp2, Ha2, Herr2.
    assert (changes_of (event :: rest) = changes_of [event] ++ changes_of rest) as Hsplit.
    { unfold changes_of. simpl. by destruct event. }
    split_and!.
    + congruence.
    + congruence.
    + rewrite Hc2, Hc, Hsplit. by rewrite app_assoc.
    + rewrite Ha2, Ha, Hsplit. by rewrite app_assoc.
    + rewrite Hsplit, Hc in *. apply Forall_app. split.
      * eapply Forall_impl; [exact Hsync|]. intros e [-> Hne]. split; [done|].
        apply prefix_app_r. done.
      * by rewrite app_assoc.
    + intros Hno. apply andb_true_iff in Hno as [He Hrest].
      rewrite Herr2 by done. apply Herr. by destruct (is_error_event event).
Qed.

Lemma sendMessage_issued env content st :
  truthy (trim content) = true → selectedNodes env ≠ [] →
  let um := {| msg_id := generateId env (length (messages st)); msg_type := user;
               msg_content := content;
               msg_selectedNodes := node_ref <$> selectedNodes env;
               msg_changes := []; msg_reactSteps := [];
               msg_timestamp := timestamp env (length (messages st));
               msg_isError := false; msg_isComplete := false |} in
  let st1 := {| messages := messages st ++ [um]; isProcessing := true;
                currentThought := currentThought st; currentAction := currentAction st;
                streamingContent := []; reactTrace := [];
                error := None; appliedChanges := appliedChanges st |} in
  sendMessage env content st
  = let '(st2, effects, thrown) :=
      processModificationRequest env content (selectedNodes env) st1 in
    let st3 :=
      match thrown with
      | Some message =>
          {| messages := messages st2 ++
                         [plain_message env (length (messages st2)) system
                            (failure_prefix ++ message) true];
             isProcessing := isProcessing st2;
             currentThought := currentThought st2; currentAction := currentAction st2;
             streamingContent := streamingContent st2; reactTrace := reactTrace st2;
             error := Some message; appliedChanges := appliedChanges st2 |}
      | None => st2
      end in
    ({| messages := messages st3; isProcessing := false;
        currentThought := []; currentAction := [];
        streamingContent := streamingContent st3; reactTrace := reactTrace st3;
        error := error st3; appliedChanges := appliedChanges st3 |}, effects).
Proof.
  intros Hc Hsel. unfold sendMessage. rewrite Hc. simpl.
  rewrite bool_decide_false; [done|]. by destruct (selectedNodes env).
Qed.

(** A request that is answered with a stream: the user message and the
    assistant message are appended in this order, the assistant message
    holds the changes of the stream, which are appended to
    [appliedChanges] too, every canvas sync carries a non-empty prefix
    of them, and the processing flags are reset. The assistant message
    is found again by its id, so the id must be new. *)
Theorem sendMessage_applies_the_changes_of_the_stream
    (env : Env) (content : jsstring) (st : State) (events : list StreamEvent) :
  truthy (trim content) = true →
  selectedNodes env ≠ [] →
  response env = Stream events →
  generateId env (S (length (messages st))) ∉ msg_id <$> messages st →
  generateId env (S (length (messages st))) ≠ generateId env (length (messages st)) →
  ∃ um am syncs,
    messages (sendMessage env content st).1 = messages st ++ [um; am]
    ∧ msg_type um = user ∧ msg_content um = content
    ∧ msg_type am = assistant ∧ msg_changes am = changes_of events
    ∧ appliedChanges (sendMessage env content st).1
      = appliedChanges st ++ changes_of events
    ∧ isProcessing (sendMessage env content st).1 = false
    ∧ currentThought (sendMessage env content st).1 = []
    ∧ currentAction (sendMessage env content st).1 = []
    ∧ (sendMessage env content st).2
      = Fetch content (selectedNodes env) (last_ten (messages st ++ [um])) :: syncs
    ∧ Forall (syncs_within (changes_of events)) syncs.
Proof.
  intros Hc Hsel Hresp Hfresh Hne.
  rewrite (sendMessage_issued env content st Hc Hsel). cbn zeta.
  unfold processModificationRequest. rewrite Hresp.
  cbn [messages with_messages].
  set (um := {| msg_id := generateId env (length (messages st)); msg_type := user |}).
  set (st1 := with_messages _ _).
  set (am0 := {| msg_type := assistant |}).
  assert (streaming (messages st ++ [um]) st1 am0) as Hs.
  { split; [done|]. subst am0 um. cbn [msg_id].
    rewrite fmap_app, length_app, Nat.add_1_r. simpl.
    rewrite elem_of_app, list_elem_of_singleton. tauto. }
  pose proof (handleAll_streaming _ events _ _ Hs) as [Hms Hf].
  pose proof (handleAll_changes events st1 am0) as H. cbn zeta in H.
  destruct (handleAll events st1 am0) as [[st2 am2] effects]. cbn [fst snd] in *.
  destruct H as (Hty & Hp & Hch & Hap & Hsync & _).
  exists um, am2, effects. cbn [messages with_messages appliedChanges isProcessing
    currentThought currentAction].
  split_and!; try done.
  - rewrite Hms. rewrite updateLastAssistantMessage_last by done.
    by rewrite <- app_assoc.
Qed.

Lemma sendMessage_applies_the_changes_of_the_stream_witness :
  appliedChanges
    (sendMessage
       {| selectedNodes := selectedNodes sample_env;
          generateId := generateId sample_env; timestamp := timestamp sample_env;
          response := Stream [ChangeEvent [49]%N; ChangeEvent [50]%N; Complete None] |}
       [104; 105]%N initial_state).1
  = [[49]; [50]]%N.
Proof.
  destruct (sendMessage_applies_the_changes_of_the_stream
              {| selectedNodes := selectedNodes sample_env;
                 generateId := generateId sample_env; timestamp := timestamp sample_env;
                 response := Stream [ChangeEvent [49]%N; ChangeEvent [50]%N; Complete None] |}
              [104; 105]%N initial_state
              [ChangeEvent [49]%N; ChangeEvent [50]%N; Complete None])
    as (um & am & syncs & _ & _ & _ & _ & _ & Happlied & _).
  - reflexivity.
  - discriminate.
  - reflexivity.
  - apply not_elem_of_nil.
  - discriminate.
  - exact Happlied.
Defined.

(** A request that fails, because [fetch] rejects or the answer is not
    ok: the error is caught, kept in [error] and shown as a system
    message flagged [isError] after the user message; no assistant
    message is added, nothing is applied, and the processing flags are
    reset. *)
Theorem sendMessage_reports_a_failed_request
    (env : Env) (content : jsstring) (st : State) (message : jsstring) :
  truthy (trim content) = true →
  selectedNodes env ≠ [] →
  response env = Rejected message
  ∨ (∃ status, response env = NotOk (Some message) status ∧ message ≠ [])
  ∨ (∃ detail status, response env = NotOk detail status
       ∧ (detail = None ∨ detail = Some [])
       ∧ message = api_error_prefix ++ status) →
  ∃ um em,
    messages (sendMessage env content st).1 = messages st ++ [um; em]
    ∧ msg_type um = user ∧ msg_content um = content
    ∧ msg_type em = system ∧ msg_isError em = true
    ∧ msg_content em = failure_prefix ++ message
    ∧ error (sendMessage env content st).1 = Some message
    ∧ isProcessing (sendMessage env content st).1 = false
    ∧ appliedChanges (sendMessage env content st).1 = appliedChanges st
    ∧ reactTrace (sendMessage env content st).1 = []
    ∧ (sendMessage env content st).2
      = [Fetch content (selectedNodes env) (last_ten (messages st ++ [um]))].
Proof.
  intros Hc Hsel Hresp.
  rewrite (sendMessage_issued env content st Hc Hsel). cbn zeta.
  unfold processModificationRequest.
  destruct Hresp as [->|[(status & -> & Hne)|(detail & status & -> & Hd & ->)]];
    cbn [messages fst snd].
  - eexists _, _. split; [by rewrite <- app_assoc|]. split_and!; reflexivity.
  - assert (js_or (Some message) (Some (api_error_prefix ++ status)) = Some message) as ->.
    { unfold js_or, truthy. by rewrite bool_decide_false. }
    eexists _, _. split; [by rewrite <- app_assoc|]. split_and!; reflexivity.
  - assert (js_or detail (Some (api_error_prefix ++ status))
            = Some (api_error_prefix ++ status)) as ->.
    { by destruct Hd as [-> | ->]. }
    eexists _, _. split; [by rewrite <- app_assoc|]. split_and!; reflexivity.
Qed.

Lemma sendMessage_reports_a_failed_request_witness :
  error
    (sendMessage
       {| selectedNodes := selectedNodes sample_env;
          generateId := generateId sample_env; timestamp := timestamp sample_env;
          response := NotOk None [53; 48; 48]%N |}
       [104; 105]%N initial_state).1
  = Some (api_error_prefix ++ [53; 48; 48]%N).
Proof.
  destruct (sendMessage_reports_a_failed_request
              {| selectedNodes := selectedNodes sample_env;
                 generateId := generateId sample_env; timestamp := timestamp sample_env;
                 response := NotOk None [53; 48; 48]%N |}
              [104; 105]%N initial_state (api_error_prefix ++ [53; 48; 48]%N))
    as (um & em & _ & _ & _ & _ & _ & _ & Herror & _).
  - reflexivity.
  - discriminate.
  - right. right. exists None, [53; 48; 48]%N. split_and!; [reflexivity|by left|reflexivity].
  - exact Herror.
Defined.


Lemma last_user_spec ms m :
  last_user ms = Some m → msg_type m = user ∧ m ∈ ms.
Proof.
  unfold last_user. intros Hm. apply head_Some_elem_of in Hm.
  apply list_elem_of_filter in Hm as [Hu Hin]. split; [done|].
  by apply elem_of_reverse.
Qed.

(** [retryLast] does nothing when no user message is left. Otherwise it
    selects the nodes of the most recent user message again and sends
    its content, with a history from which the first message flagged
    [isError] is gone, and it leaves [isProcessing] as it was. A
    failure of the request is let through and recorded nowhere: the
    messages are the old ones without that flagged message, and [error]
    is as before. When the stream arrives, its changes are applied, and
    an [error] set before stays in place unless the stream carries an
    [error] event. *)
Theorem retryLast_sends_the_last_user_message_again
    (env : Env) (reselected : list jsstring → list CanvasNode) (st : State) :
  (last_user (messages st) = None → retryLast env reselected st = (st, [], None))
  ∧ (∀ m, last_user (messages st) = Some m →
       let r := retryLast env reselected st in
       let ids := ref_id <$> msg_selectedNodes m in
       msg_type m = user ∧ m ∈ messages st
       ∧ (∃ rest, r.1.2
            = SelectNodes ids
              :: Issued (Fetch (msg_content m) (reselected ids)
                           (last_ten (remove_first_error (messages st))))
              :: rest)
       ∧ isProcessing r.1.1 = isProcessing st
       ∧ (is_Some r.2 →
            messages r.1.1 = remove_first_error (messages st)
            ∧ error r.1.1 = error st)
       ∧ (∀ events, response env = Stream events →
            r.2 = None
            ∧ appliedChanges r.1.1 = appliedChanges st ++ changes_of events
            ∧ (forallb (λ e, negb (is_error_event e)) events = true →
               error r.1.1 = error st))).
Proof.
  split; unfold retryLast.
  - by intros ->.
  - intros m Hm. rewrite Hm. cbn zeta.
    destruct (last_user_spec _ _ Hm) as [Hu Hin].
    unfold processModificationRequest. cbn [messages with_messages].
    destruct (response env) as [message|detail status|events] eqn:Hresp.
    + cbn [fst snd]. split_and!; try done. by eexists.
    + cbn [fst snd]. split_and!; try done. by eexists.
    + set (st1 := with_messages (_ ++ _) _). set (am0 := {| msg_type := assistant |}).
      pose proof (handleAll_changes events st1 am0) as H. cbn zeta in H.
      destruct (handleAll events st1 am0) as [[st2 am2] effects]. cbn [fst snd] in *.
      destruct H as (_ & Hp & _ & Hap & _ & Herr).
      split_and!; try done.
      * by eexists.
      * intros ? [= <-]. done.
Qed.

End ModelModifierSession.

(** ** JavaScript objects *)

Module JsTheorems.
Import Js.

Section Object.
Context {K V : Type} `{Key K}.
Implicit Types (o : obj K V) (k : K) (v : V).

Lemma get_None k o : get k o = None ↔ k ∉ keys o.
Proof.
  unfold keys. induction o as [|[k' v'] o IH]; simpl.
  - split; [intros _; apply not_elem_of_nil|done].
  - case_bool_decide as Hk.
    + subst. split; [done|]. intros Hn. exfalso. apply Hn. left.
    + rewrite IH, not_elem_of_cons. split; [by intros ?; split|by intros [_ ?]].
Qed.

Lemma get_assign_eq k v o : is_Some (get k o) → get k (assign k v o) = Some v.
Proof.
  induction o as [|[k' v'] o IH]; simpl.
  - intros []%is_Some_None.
  - case_bool_decide as Hk; simpl.
    + by rewrite bool_decide_true.
    + rewrite bool_decide_false by done. done.
Qed.

Lemma get_assign_ne k k' v o : k ≠ k' → get k' (assign k v o) = get k' o.
Proof.
  intros Hne. induction o as [|[k0 v0] o IH]; simpl; [done|].
  case_bool_decide as Hk; simpl.
  - subst. by rewrite !bool_decide_false by done.
  - by rewrite IH.
Qed.

Lemma get_create_eq k v o : get k o = None → get k (create k v o) = Some v.
Proof.
  induction o as [|[k' v'] o IH]; simpl.
  - by rewrite bool_decide_true.
  - case_bool_decide as Hk; [done|]. intros Hg.
    destruct (before k k'); simpl.
    + by rewrite bool_decide_true.
    + rewrite bool_decide_false by done. by apply IH.
Qed.

Lemma get_create_ne k k' v o : k ≠ k' → get k' (create k v o) = get k' o.
Proof.
  intros Hne. induction o as [|[k0 v0] o IH]; simpl.
  - by rewrite bool_decide_false.
  - destruct (before k k0); simpl.
    + by rewrite bool_decide_false.
    + by rewrite IH.
Qed.

Lemma get_set_eq k v o : get k (set k v o) = Some v.
Proof.
  unfold set. destruct (get k o) eqn:Hg.
  - by apply get_assign_eq.
  - by apply get_create_eq.
Qed.

Lemma get_set_ne k k' v o : k ≠ k' → get k' (set k v o) = get k' o.
Proof.
  intros Hne. unfold set. destruct (get k o).
  - by apply get_assign_ne.
  - by apply get_create_ne.
Qed.

Lemma get_set k k' v o :
  get k' (set k v o) = if bool_decide (k = k') then Some v else get k' o.
Proof.
  case_bool_decide as Hk; [subst; apply get_set_eq|by apply get_set_ne].
Qed.

Lemma keys_assign k v o : keys (assign k v o) = keys o.
Proof.
  unfold keys. induction o as [|[k' v'] o IH]; simpl; [done|].
  case_bool_decide; simpl; [by subst|by f_equal].
Qed.

Lemma keys_create k v o : keys (create k v o) ≡ₚ k :: keys o.
Proof.
  unfold keys. induction o as [|[k' v'] o IH]; simpl; [done|].
  destruct (before k k'); simpl; [done|].
  etrans; [|apply Permutation_swap]. by constructor.
Qed.

(** Setting a property keeps the keys of an object distinct. *)
Lemma set_NoDup k v o : NoDup (keys o) → NoDup (keys (set k v o)).
Proof.
  intros Hnd. unfold set. destruct (get k o) eqn:Hg.
  - by rewrite keys_assign.
  - rewrite keys_create. apply NoDup_cons. split; [|done]. by apply get_None.
Qed.

Lemma elem_of_keys_set k k' v o :
  k' ∈ keys (set k v o) ↔ k' = k ∨ k' ∈ keys o.
Proof.
  unfold set. destruct (get k o) eqn:Hg.
  - rewrite keys_assign. split; [by right|]. intros [->|?]; [|done].
    destruct (decide (k ∈ keys o)) as [?|Hn]; [done|].
    apply get_None in Hn. congruence.
  - rewrite keys_create. by rewrite elem_of_cons.
Qed.

Lemma spread_NoDup o extra : NoDup (keys o) → NoDup (keys (spread o extra)).
Proof.
  unfold spread. revert o. induction extra as [|[k v] extra IH]; intros o Hnd; [done|].
  simpl. apply IH. by apply set_NoDup.
Qed.

(** A property of the object spread last wins; the others are those
    of the first object. *)
Lemma get_spread k o extra :
  NoDup (keys extra) →
  get k (spread o extra) = match get k extra with Some v => Some v | None => get k o end.
Proof.
  unfold spread. revert o. induction extra as [|[k' v'] extra IH]; intros o Hnd; [done|].
  unfold keys in Hnd. simpl in Hnd. apply NoDup_cons in Hnd as [Hk' Hnd].
  cbn [foldl fst snd get]. rewrite IH by done.
  case_bool_decide as Hk.
  - subst. assert (get k extra = None) as -> by by apply get_None.
    apply get_set_eq.
  - destruct (get k extra); [done|]. by apply get_set_ne.
Qed.

End Object.

(** Array indices are gone through first, in ascending order, then the
    other keys in the order of their creation. *)
Example keys_in_order :
  keys (set "2" 0 (set "b" 1 (set "10" 2 (set "a" 3 (set "01" 4 (set "b" 5 [])))))) 
  = ["2"; "10"; "b"; "01"; "a"].
Proof. vm_compute. reflexivity. Qed.

End JsTheorems.

(** ** The logger *)

Module LoggerTheorems.
Import Logger.

(** Whatever the environment, a level that is logged carries every
    level at least as severe with it. *)
Theorem shouldLog_monotone (env : Env) (l1 l2 : Level) :
  LEVEL l1 ≤ LEVEL l2 →
  shouldLog (resolveMinLevel env) l1 = true →
  shouldLog (resolveMinLevel env) l2 = true.
Proof.
  intros Hle. unfold shouldLog. destruct (resolveMinLevel env) as [m|]; [|done].
  rewrite !bool_decide_eq_true. lia.
Qed.

Lemma shouldLog_monotone_witness :
  shouldLog (resolveMinLevel (mkEnv false (Some "warn"))) error = true.
Proof.
  apply (shouldLog_monotone (mkEnv false (Some "warn")) warn error).
  - simpl. lia.
  - reflexivity.
Defined.

(** The defaults: everything in development, everything but [debug]
    otherwise; an override that names no level counts as [info]. *)
Lemma resolveMinLevel_defaults :
  resolveMinLevel (mkEnv true None) = Some (LEVEL debug)
  ∧ resolveMinLevel (mkEnv false None) = Some (LEVEL info)
  ∧ resolveMinLevel (mkEnv true (Some "")) = Some (LEVEL debug)
  ∧ resolveMinLevel (mkEnv true (Some "verbose")) = Some (LEVEL info)
  ∧ resolveMinLevel (mkEnv true (Some "error")) = Some (LEVEL error)
  ∧ shouldLog (resolveMinLevel (mkEnv false None)) debug = false
  ∧ shouldLog (resolveMinLevel (mkEnv false None)) info = true.
Proof. split_and!; reflexivity. Qed.

(** An override that names a property every object inherits silences
    the logger: [LEVEL.toString] is no number. *)
Lemma inherited_override_silences (level : Level) :
  shouldLog (resolveMinLevel (mkEnv true (Some "toString"))) level = false.
Proof. reflexivity. Qed.

End LoggerTheorems.

(** ** The logger: formatting *)

Module LoggerFormat.
Import Logger.

Lemma cut_length maxLen s : length (cut maxLen s) ≤ maxLen + 1.
Proof.
  unfold cut. case_bool_decide; [|lia].
  rewrite length_app, length_take. simpl. lia.
Qed.

Lemma join_length sep parts :
  parts ≠ [] →
  length (Js.join sep parts) + length sep
  = sum_list ((λ p, length p + length sep) <$> parts).
Proof.
  induction parts as [|p [|q rest] IH]; intros Hne; [done|simpl; lia|].
  change (Js.join sep (p :: q :: rest)) with (p ++ sep ++ Js.join sep (q :: rest)).
  rewrite fmap_cons. cbn [sum_list sum_list_with].
  rewrite <- IH by done. rewrite !length_app. unfold id. lia.
Qed.

Lemma part_length k v r :
  (∀ message, v ≠ VOther (Throws message)) →
  part k v = Some r → length r ≤ length k + 202.
Proof.
  intros Hv. destruct v as [| |s|text|b|[s| |message]]; simpl; intros [= <-];
    rewrite ?length_app; simpl.
  - lia.
  - pose proof (cut_length 120 s). lia.
  - pose proof (cut_length 120 text). lia.
  - pose proof (cut_length 120 (Js.units (if b then "true" else "false"))). lia.
  - pose proof (cut_length 200 s). lia.
  - lia.
  - by destruct (Hv message).
Qed.

(** The text [kvString] adds to a line is bounded by the keys alone,
    whatever the size of the values, as long as no value fails to
    serialise: a string, number or boolean is cut after 120 code units
    and any other value after 200. *)
Theorem kvString_is_bounded_by_the_keys
    (entries : Js.obj Js.jsstring Value) :
  Forall (λ kv, ∀ message, kv.2 ≠ VOther (Throws message)) entries →
  length (kvString (Some entries))
  ≤ 2 + sum_list ((λ kv, length kv.1 + 203) <$> entries).
Proof.
  intros Hok. unfold kvString.
  assert (sum_list ((λ p, length p + 1) <$> omap (λ kv, part kv.1 kv.2) entries)
          ≤ sum_list ((λ kv, length kv.1 + 203) <$> entries)) as Hsum.
  { induction Hok as [|[k v] entries Hv _ IH]; [done|].
    cbn [omap list_omap fst snd] in *.
    destruct (part k v) as [r|] eqn:Hr; rewrite !fmap_cons;
      cbn [sum_list sum_list_with fst] in *.
    - pose proof (part_length k v r Hv Hr). unfold id.
      apply Nat.add_le_mono; [lia|exact IH].
    - etrans; [exact IH|]. unfold id. lia. }
  case_bool_decide as Hparts; [simpl; lia|].
  rewrite length_app.
  pose proof (join_length (Js.units " ") (omap (λ kv, part kv.1 kv.2) entries)) as Hj.
  specialize (Hj ltac:(by intros Hnil; rewrite Hnil in Hparts)).
  change (length (Js.units " ")) with 1 in Hj.
  change (length (Js.units " | ")) with 3. lia.
Qed.

Lemma kvString_is_bounded_by_the_keys_witness :
  length (kvString (Some [(Js.units "note", VString (replicate 5000 97%N))])) ≤ 209.
Proof.
  apply (kvString_is_bounded_by_the_keys
           [(Js.units "note", VString (replicate 5000 97%N))]).
  constructor; [|constructor]. intros message. discriminate.
Defined.

(** A value that fails to serialise is shown with the message of the
    error in full, and undefined values leave no trace. *)
Example kvString_edges :
  length (kvString
            (Some [(Js.units "v", VOther (Throws (Some (replicate 500 97%N))))])) = 526
  ∧ kvString (Some [(Js.units "a", VUndefined); (Js.units "b", VUndefined)]) = []
  ∧ kvString None = []
  ∧ kvString (Some [(Js.units "a", VNull); (Js.units "b", VUndefined);
                    (Js.units "c", VBoolean true); (Js.units "d", VOther NoText)])
    = Js.units " | a=null c=true d=undefined".
Proof. split_and!; vm_compute; reflexivity. Qed.

End LoggerFormat.

(** ** The logger: emitting *)

Module LoggerEmit.
Import Logger JsTheorems.

(** [emit] writes nothing below the minimum level and one line
    otherwise, through the console method of the level; the line opens
    with the tag, the level in capitals, the scope and the message. The
    context is spread last into the payload: a context property called
    [ts], [level], [scope], [event] or [message] replaces the payload's
    own, and every other context property is in the payload too. *)
Theorem emit_writes_one_line_and_the_context_wins
    (console : Console) (minLevel : option nat) (scope ts : Js.jsstring)
    (level : Level) (event message : Js.jsstring)
    (context : Js.obj Js.jsstring Value) :
  NoDup (Js.keys context) →
  (shouldLog minLevel level = false →
     emit console minLevel scope ts level event message (Some context) = [])
  ∧ (shouldLog minLevel level = true →
     ∃ call,
       emit console minLevel scope ts level event message (Some context) = [call]
       ∧ call_method call = toConsoleFn console level
       ∧ (Js.units "[LDVC][" ++ Js.units (level_upper level) ++ Js.units "]["
          ++ scope ++ Js.units "] " ++ message) `prefix_of` call_line call
       ∧ NoDup (Js.keys (call_payload call))
       ∧ (∀ k v, Js.get k context = Some v → Js.get k (call_payload call) = Some v)
       ∧ (∀ k, Js.get k context = None →
            Js.get k (call_payload call)
            = Js.get k [(Js.units "ts", VString ts);
                        (Js.units "level", VString (Js.units (level_name level)));
                        (Js.units "scope", VString scope);
                        (Js.units "event", VString event);
                        (Js.units "message", VString message)])).
Proof.
  intros Hnd. unfold emit. split; intros ->; [done|].
  cbn [negb default from_option]. unfold id.
  eexists. split; [reflexivity|]. cbn [call_method call_line call_payload].
  split_and!.
  - done.
  - rewrite !(app_assoc _ _ (kvString _)). by apply prefix_app_r.
  - apply spread_NoDup. unfold Js.keys. cbn [fmap list_fmap fst].
    apply (bool_decide_unpack _). vm_compute. reflexivity.
  - intros k v Hk. rewrite get_spread by done. by rewrite Hk.
  - intros k Hk. rewrite get_spread by done. by rewrite Hk.
Qed.

Lemma emit_writes_one_line_and_the_context_wins_witness :
  emit (mkConsole true true) (Some 20) (Js.units "App") (Js.units "T")
       debug (Js.units "e") (Js.units "m")
       (Some [(Js.units "level", VString (Js.units "fatal"))]) = [].
Proof.
  apply (emit_writes_one_line_and_the_context_wins (mkConsole true true) (Some 20)
           (Js.units "App") (Js.units "T") debug (Js.units "e") (Js.units "m")
           [(Js.units "level", VString (Js.units "fatal"))]).
  - apply (bool_decide_unpack _). vm_compute. reflexivity.
  - reflexivity.
Defined.

(** A warning in a logger at level info, with a context that names a
    level of its own. *)
Example emit_warn :
  emit (mkConsole true true) (Some 20) (Js.units "App") (Js.units "T")
       warn (Js.units "saved") (Js.units "Saved.")
       (Some [(Js.units "level", VString (Js.units "fatal")); (Js.units "n", VNumber (Js.units "3"))])
  = [mkCall console_warn
       (Js.units "[LDVC][WARN][App] Saved. | event=saved level=fatal n=3")
       [(Js.units "ts", VString (Js.units "T"));
        (Js.units "level", VString (Js.units "fatal"));
        (Js.units "scope", VString (Js.units "App"));
        (Js.units "event", VString (Js.units "saved"));
        (Js.units "message", VString (Js.units "Saved."));
        (Js.units "n", VNumber (Js.units "3"))]].
Proof. vm_compute. reflexivity. Qed.

End LoggerEmit.

(** ** The navigator store *)

Module NavigatorTheorems.
Import Navigator.

Lemma some_context_spec id cs : some_context id cs = true ↔ id ∈ ctx_id <$> cs.
Proof.
  unfold some_context. induction cs as [|c cs IH]; simpl.
  - rewrite elem_of_nil. split; [discriminate|done].
  - rewrite orb_true_iff, IH, bool_decide_eq_true, elem_of_cons.
    split; (intros [?|?]; [by left|by right]).
Qed.

(** [addContext] never lists an identifier twice: a context whose
    identifier is already listed changes nothing, a new one is appended
    with zero counts, expanded and marked as new. *)
Theorem addContext_keeps_ids_unique (contextData : ContextData) (st : State) :
  (NoDup (ctx_id <$> contexts st) →
     NoDup (ctx_id <$> contexts (addContext contextData st)))
  ∧ (cd_id contextData ∈ ctx_id <$> contexts st → addContext contextData st = st)
  ∧ (cd_id contextData ∉ ctx_id <$> contexts st →
     ctx_id <$> contexts (addContext contextData st)
       = (ctx_id <$> contexts st) ++ [cd_id contextData]
     ∧ (aggregateCount <$> last (contexts (addContext contextData st))) = Some 0
     ∧ (userStoryCount <$> last (contexts (addContext contextData st))) = Some 0
     ∧ isExpanded (cd_id contextData) (addContext contextData st) = true
     ∧ cd_id contextData ∈ newlyAddedIds (addContext contextData st)).
Proof.
  unfold addContext.
  destruct (some_context (cd_id contextData) (contexts st)) eqn:Hsome; simpl.
  - apply some_context_spec in Hsome. split_and!; done.
  - assert (cd_id contextData ∉ ctx_id <$> contexts st) as Hnew.
    { intros Hin. apply some_context_spec in Hin. congruence. }
    split_and!; [|done|].
    + intros Hnd. rewrite fmap_app. simpl. apply NoDup_app.
      split_and!; [done| |apply NoDup_singleton].
      intros x Hx Hx'. apply list_elem_of_singleton in Hx'. by subst.
    + intros _. rewrite fmap_app, last_snoc. simpl. split_and!; try done.
      * unfold isExpanded. simpl. apply bool_decide_eq_true.
        apply elem_of_union. right. by apply elem_of_singleton.
      * apply elem_of_union. right. by apply elem_of_singleton.
Qed.

Example addContext_twice :
  let d := mkContextData "BC_STOCK" "Stock" "" None in
  addContext d (addContext d sample_state) = addContext d sample_state
  ∧ (ctx_id <$> contexts (addContext d sample_state)) = ["BC_ORDER"; "BC_STOCK"]
  ∧ addContext (mkContextData "BC_ORDER" "Other" "" None) sample_state = sample_state.
Proof. split_and!; reflexivity. Qed.

(** [toggleExpanded] flips the node it is given and no other, so that
    toggling twice gives the store back. *)
Theorem toggleExpanded_twice (nodeId : string) (st : State) :
  toggleExpanded nodeId (toggleExpanded nodeId st) = st
  ∧ isExpanded nodeId (toggleExpanded nodeId st) = negb (isExpanded nodeId st)
  ∧ ∀ other, other ≠ nodeId →
      isExpanded other (toggleExpanded nodeId st) = isExpanded other st.
Proof.
  split_and!.
  - destruct st as [cs trees us ld err ex nw asg tm].
    unfold toggleExpanded, with_expanded. simpl. f_equal.
    destruct (decide (nodeId ∈ ex)) as [Hin|Hin].
    + rewrite (bool_decide_true _ Hin).
      rewrite bool_decide_false by (rewrite elem_of_difference, elem_of_singleton; tauto).
      apply set_eq. intros x.
      rewrite elem_of_union, elem_of_difference, elem_of_singleton.
      destruct (decide (x = nodeId)) as [->|Hne]; tauto.
    + rewrite (bool_decide_false _ Hin).
      rewrite bool_decide_true by (rewrite elem_of_union, elem_of_singleton; tauto).
      apply set_eq. intros x.
      rewrite elem_of_difference, elem_of_union, elem_of_singleton.
      split; [tauto|]. intros Hx. split; [by left|]. intros ->. done.
  - unfold isExpanded, toggleExpanded. simpl.
    destruct (decide (nodeId ∈ expandedNodes st)) as [Hin|Hin].
    + rewrite !(bool_decide_true _ Hin). simpl. apply bool_decide_eq_false.
      rewrite elem_of_difference, elem_of_singleton. tauto.
    + rewrite !(bool_decide_false _ Hin). simpl. apply bool_decide_eq_true.
      rewrite elem_of_union, elem_of_singleton. tauto.
  - intros other Hne. unfold isExpanded, toggleExpanded. simpl.
    apply bool_decide_ext.
    destruct (bool_decide (nodeId ∈ expandedNodes st)).
    + rewrite elem_of_difference, elem_of_singleton. tauto.
    + rewrite elem_of_union, elem_of_singleton. tauto.
Qed.

Lemma remove_story_length usId l :
  usId ∈ us_id <$> l → S (length (remove_story usId l)) = length l.
Proof.
  induction l as [|us rest IH]; simpl.
  - intros Hin. by apply elem_of_nil in Hin.
  - rewrite elem_of_cons. intros Hin. case_bool_decide as Heq; [done|].
    simpl. rewrite IH; [done|]. destruct Hin as [?|?]; [congruence|done].
Qed.

Lemma count_story_sum bcId cs :
  bcId ∈ ctx_id <$> cs →
  sum_list (userStoryCount <$> count_story bcId cs)
  = S (sum_list (userStoryCount <$> cs)).
Proof.
  induction cs as [|c rest IH].
  - intros Hin. by apply elem_of_nil in Hin.
  - rewrite fmap_cons, elem_of_cons. intros Hin. cbn [count_story].
    case_bool_decide as Heq; rewrite !fmap_cons; cbn [sum_list sum_list_with].
    + simpl. lia.
    + rewrite IH; [lia|]. destruct Hin as [?|?]; [congruence|done].
Qed.

Lemma count_story_ids bcId cs : ctx_id <$> count_story bcId cs = ctx_id <$> cs.
Proof.
  induction cs as [|c rest IH]; [done|]. cbn [count_story].
  case_bool_decide; rewrite !fmap_cons; [done|]. by rewrite IH.
Qed.

(** Assigning a story that waits at root level to a context that is
    listed moves it: the root list is one shorter, the context counts
    one more, the assignment is recorded, and the stories the store
    accounts for are as many as before. The one story whose assignment
    is not recorded is a story called ["__proto__"]: for it the
    assignments stay as they are. *)
Theorem assignUserStoryToBC_moves_one_story (usId bcId bcName : string) (st : State) :
  usId ∈ us_id <$> userStories st →
  bcId ∈ ctx_id <$> contexts st →
  let st' := assignUserStoryToBC usId bcId bcName st in
  stories_total st' = stories_total st
  ∧ S (length (userStories st')) = length (userStories st)
  ∧ (usId ≠ "__proto__" → userStoryAssignments st' !! usId = Some bcId)
  ∧ (usId = "__proto__" → userStoryAssignments st !! usId = None →
     userStoryAssignments st' = userStoryAssignments st)
  ∧ (ctx_id <$> contexts st') = (ctx_id <$> contexts st)
  ∧ usId ∈ newlyAddedIds st'.
Proof.
  intros Hus Hbc st'. unfold st', assignUserStoryToBC, stories_total. simpl.
  pose proof (remove_story_length usId _ Hus) as Hlen.
  pose proof (count_story_sum bcId _ Hbc) as Hsum.
  split_and!.
  - lia.
  - done.
  - intros Hne. unfold assigned_to.
    destruct (userStoryAssignments st !! usId); [by rewrite lookup_insert_eq|].
    rewrite bool_decide_false by done. by rewrite lookup_insert_eq.
  - intros Heq Hnone. unfold assigned_to. rewrite Hnone.
    by rewrite bool_decide_true.
  - apply count_story_ids.
  - apply elem_of_union. right. by apply elem_of_singleton.
Qed.

Lemma assignUserStoryToBC_moves_one_story_witness :
  stories_total (assignUserStoryToBC "US_001" "BC_ORDER" "Order" sample_state) = 1
  ∧ userStories (assignUserStoryToBC "US_001" "BC_ORDER" "Order" sample_state) = []
  ∧ (userStoryCount <$> contexts (assignUserStoryToBC "US_001" "BC_ORDER" "Order" sample_state))
    = [1].
Proof.
  destruct (assignUserStoryToBC_moves_one_story "US_001" "BC_ORDER" "Order" sample_state)
    as (Htotal & _); [by left|by left|].
  split; [exact Htotal|]. split; reflexivity.
Defined.

End NavigatorTheorems.

(** ** The navigator store: stories *)

Module NavigatorIngestion.
Import Navigator JsTheorems.

Lemma state_eta st :
  {| contexts := contexts st; contextTrees := contextTrees st;
     userStories := userStories st; loading := loading st; error := error st;
     expandedNodes := expandedNodes st; newlyAddedIds := newlyAddedIds st;
     userStoryAssignments := userStoryAssignments st; timers := timers st |} = st.
Proof. by destruct st. Qed.

Lemma with_trees_same st : with_trees (contextTrees st) st = st.
Proof. apply state_eta. Qed.

Lemma some_story_spec id l : some_story id l = true ↔ id ∈ us_id <$> l.
Proof.
  unfold some_story. induction l as [|us l IH]; simpl.
  - rewrite elem_of_nil. split; [discriminate|done].
  - rewrite orb_true_iff, IH, bool_decide_eq_true, elem_of_cons.
    split; (intros [?|?]; [by left|by right]).
Qed.



Lemma NoDup_snoc {A} (l : list A) x : NoDup l → x ∉ l → NoDup (l ++ [x]).
Proof.
  intros Hnd Hx. apply NoDup_app. split_and!; [done| |apply NoDup_singleton].
  intros y Hy Hy'. apply list_elem_of_singleton in Hy'. by subst.
Qed.

(** [addUserStory] never lists a story twice: a story whose identifier
    is listed changes nothing, so adding again is adding once; a new
    one is appended and highlighted. It is called by the name given, or
    else by the role, a colon, the first 30 code units of the action
    and three dots, a missing role or action reading "undefined". *)
Theorem addUserStory_keeps_ids_unique (usData : UserStoryData) (st : State) :
  (NoDup (us_id <$> userStories st) →
     NoDup (us_id <$> userStories (addUserStory usData st)))
  ∧ (usd_id usData ∈ us_id <$> userStories st → addUserStory usData st = st)
  ∧ (usd_id usData ∉ us_id <$> userStories st →
     ∃ item,
       userStories (addUserStory usData st) = userStories st ++ [item]
       ∧ us_id item = usd_id usData
       ∧ (∀ name, usd_name usData = Some name → name ≠ [] → us_name item = name)
       ∧ (usd_name usData = None ∨ usd_name usData = Some [] →
            us_name item
            = Js.shown (usd_role usData) ++ Js.units ": "
              ++ Js.shown (take 30 <$> usd_action usData) ++ Js.units "..."
            ∧ length (us_name item) ≤ length (Js.shown (usd_role usData)) + 35)
       ∧ isNewlyAdded (usd_id usData) (addUserStory usData st) = true)
  ∧ addUserStory usData (addUserStory usData st) = addUserStory usData st.
Proof.
  assert (∀ s, usd_id usData ∈ us_id <$> userStories s → addUserStory usData s = s) as Hknown.
  { intros s Hin. unfold addUserStory. apply some_story_spec in Hin. by rewrite Hin. }
  unfold addUserStory in *.
  destruct (some_story (usd_id usData) (userStories st)) eqn:Hsome; simpl.
  - apply some_story_spec in Hsome. split_and!; try done. by apply Hknown.
  - assert (usd_id usData ∉ us_id <$> userStories st) as Hnew.
    { intros Hin. apply some_story_spec in Hin. congruence. }
    split_and!; [|done| |].
    + intros Hnd. rewrite fmap_app. simpl. by apply NoDup_snoc.
    + intros _. eexists. split; [reflexivity|]. simpl. split_and!.
      * done.
      * intros name Hname Hne. unfold story_name. rewrite Hname. simpl.
        unfold ModelModifier.truthy. by rewrite bool_decide_false.
      * intros Hname.
        assert (story_name usData
                = Js.shown (usd_role usData) ++ Js.units ": "
                  ++ Js.shown (take 30 <$> usd_action usData) ++ Js.units "...") as ->.
        { unfold story_name. by destruct Hname as [Hname|Hname]; rewrite Hname. }
        split; [done|]. rewrite !length_app.
        assert (length (Js.shown (take 30 <$> usd_action usData)) ≤ 30) as Hlen.
        { destruct (usd_action usData) as [a|]; simpl; [|lia].
          rewrite length_take. lia. }
        change (length (Js.units ": ")) with 2.
        change (length (Js.units "...")) with 3. lia.
      * unfold isNewlyAdded. simpl. apply bool_decide_eq_true.
        apply elem_of_union. right. by apply elem_of_singleton.
    + match goal with |- context [some_story ?i ?l] =>
        assert (some_story i l = true) as -> end; [|done].
      apply some_story_spec. simpl. rewrite fmap_app. simpl.
      apply elem_of_app. right. by apply list_elem_of_singleton.
Qed.

(** A story without a name, and one without anything. *)
Example addUserStory_names :
  let long := Js.units "place an order for several items at once" in
  (us_name <$> userStories
     (addUserStory (mkUserStoryData "US_2" (Some (Js.units "customer")) (Some long)
                      "" "" None) (clearAll sample_state)))
  = [Js.units "customer: place an order for several ite..."]
  ∧ (us_name <$> userStories
       (addUserStory (mkUserStoryData "US_3" None None "" "" (Some []))
          (clearAll sample_state)))
    = [Js.units "undefined: undefined..."].
Proof. split; vm_compute; reflexivity. Qed.

End NavigatorIngestion.

(** ** The navigator store: aggregates and policies *)

Module NavigatorTrees.
Import Navigator JsTheorems NavigatorIngestion.

Lemma read_Stored key trees tree :
  read key trees = Stored tree ↔ Js.get key trees = Some tree.
Proof.
  unfold read. destruct (Js.get key trees) as [t|].
  - split; intros [= ->]; done.
  - by case_bool_decide.
Qed.


Lemma inherited_dec key trees :
  {read key trees = Inherited} + {read key trees ≠ Inherited}.
Proof. destruct (read key trees); [by right|by left|by right]. Qed.

Lemma read_get key trees :
  read key trees ≠ Inherited →
  read key trees
  = match Js.get key trees with Some tree => Stored tree | None => Absent end.
Proof.
  unfold read. destruct (Js.get key trees); [done|]. by case_bool_decide.
Qed.

Lemma store_set key tree trees :
  key ≠ "__proto__" ∨ is_Some (Js.get key trees) →
  store key tree trees = Js.set key tree trees.
Proof.
  unfold store, Js.set. destruct (Js.get key trees); [done|].
  intros [Hne|[t [=]]]. by rewrite bool_decide_false.
Qed.



Lemma absent_not_proto key trees : read key trees = Absent → key ≠ "__proto__".
Proof.
  unfold read. destruct (Js.get key trees); [done|].
  case_bool_decide as Hk; [done|]. intros _ ->. apply Hk.
  by apply (bool_decide_unpack _).
Qed.

Lemma ensure_tree_get bcId trees :
  read bcId trees ≠ Inherited →
  Js.get bcId (ensure_tree bcId trees)
  = Some (default (new_tree bcId) (Js.get bcId trees)).
Proof.
  intros Hread. unfold ensure_tree.
  destruct (read bcId trees) as [tree| |] eqn:Hr; [|done|].
  - apply read_Stored in Hr. by rewrite Hr.
  - pose proof (absent_not_proto _ _ Hr) as Hne.
    rewrite store_set by (by left). rewrite get_set_eq.
    rewrite read_get in Hr by (by rewrite Hr).
    by destruct (Js.get bcId trees).
Qed.



Lemma ensure_tree_known bcId trees :
  is_Some (Js.get bcId trees) → ensure_tree bcId trees = trees.
Proof.
  intros [t Ht]. unfold ensure_tree. apply read_Stored in Ht. by rewrite Ht.
Qed.

Lemma ensure_tree_inherited bcId trees :
  read bcId trees = Inherited →
  ensure_tree bcId trees = trees ∧ read bcId (ensure_tree bcId trees) = Inherited.
Proof. intros Hr. unfold ensure_tree. by rewrite Hr. Qed.

Lemma ensure_tree_read bcId trees :
  read bcId trees ≠ Inherited →
  read bcId (ensure_tree bcId trees)
  = Stored (default (new_tree bcId) (Js.get bcId trees)).
Proof. intros Hr. apply read_Stored. by apply ensure_tree_get. Qed.



(** The two ways [addAggregate] goes where a tree is or can be stored. *)
Lemma addAggregate_cases aggregateData st :
  let bcId := nd_parentId aggregateData in
  let tree := default (new_tree bcId) (Js.get bcId (contextTrees st)) in
  read bcId (contextTrees st) ≠ Inherited →
  addAggregate aggregateData st
  = if some_id agg_id (nd_id aggregateData) (tree_aggregates tree) then st
    else
      expand bcId
        (markAsNew (nd_id aggregateData)
           (with_contexts (count_aggregate bcId (contexts st))
              (with_trees
                 (Js.set bcId
                    (with_aggregates
                       (push (tree_aggregates tree)
                          (mkAggregate (nd_id aggregateData) (nd_name aggregateData)
                             "Aggregate" (Some []) (Some []))) tree)
                    (ensure_tree bcId (contextTrees st))) st))).
Proof.
  cbn zeta. intros Hread. unfold addAggregate. rewrite ensure_tree_read by done.
  destruct (some_id _ _ _) eqn:Hsome; simpl; [|done].
  rewrite ensure_tree_known; [apply with_trees_same|].
  destruct (Js.get _ (contextTrees st)); [done|]. discriminate.
Qed.

(** The way it goes under an inherited name. *)
Lemma addAggregate_inherited aggregateData st :
  read (nd_parentId aggregateData) (contextTrees st) = Inherited →
  addAggregate aggregateData st
  = expand (nd_parentId aggregateData)
      (markAsNew (nd_id aggregateData)
         (with_contexts (count_aggregate (nd_parentId aggregateData) (contexts st)) st)).
Proof.
  intros Hr. unfold addAggregate.
  destruct (ensure_tree_inherited _ _ Hr) as [-> _]. rewrite Hr.
  by rewrite with_trees_same.
Qed.

Lemma addPolicy_cases policyData st :
  let bcId := nd_parentId policyData in
  let tree := default (new_tree bcId) (Js.get bcId (contextTrees st)) in
  read bcId (contextTrees st) ≠ Inherited →
  addPolicy policyData st
  = if some_id pol_id (nd_id policyData) (tree_policies tree) then st
    else
      markAsNew (nd_id policyData)
        (with_trees
           (Js.set bcId
              (with_policies
                 (push (tree_policies tree)
                    (mkPolicy (nd_id policyData) (nd_name policyData) "Policy")) tree)
              (ensure_tree bcId (contextTrees st))) st).
Proof.
  cbn zeta. intros Hread. unfold addPolicy. rewrite ensure_tree_read by done.
  destruct (some_id _ _ _) eqn:Hsome; simpl; [|done].
  rewrite ensure_tree_known; [apply with_trees_same|].
  destruct (Js.get _ (contextTrees st)); [done|]. discriminate.
Qed.

Lemma addPolicy_inherited policyData st :
  read (nd_parentId policyData) (contextTrees st) = Inherited →
  addPolicy policyData st = markAsNew (nd_id policyData) st.
Proof.
  intros Hr. unfold addPolicy.
  destruct (ensure_tree_inherited _ _ Hr) as [-> _]. rewrite Hr.
  by rewrite with_trees_same.
Qed.




Lemma count_aggregate_ids bcId cs : ctx_id <$> count_aggregate bcId cs = ctx_id <$> cs.
Proof.
  induction cs as [|c rest IH]; [done|]. cbn [count_aggregate].
  case_bool_decide; rewrite !fmap_cons; [done|]. by rewrite IH.
Qed.







(** The order of arrival matters: an aggregate that comes before its
    context is shown in the tree but not counted. *)
Example aggregate_before_context :
  let st := addContext (mkContextData "BC_ORDER" "Order" "" None)
              (addAggregate (mkNodeData "AGG_ORDER" "Order" "BC_ORDER")
                 (clearAll sample_state)) in
  (aggregateCount <$> contexts st) = [0]
  ∧ (agg_id <$> aggregates_of "BC_ORDER" st) = ["AGG_ORDER"].
Proof. split; vm_compute; reflexivity. Qed.

(** So does the name: under a context called ["constructor"] the
    aggregate is counted and reaches no tree. *)
Example aggregate_under_an_inherited_name :
  let st := addAggregate (mkNodeData "AGG_ORDER" "Order" "constructor")
              (addContext (mkContextData "constructor" "Order" "" None)
                 (clearAll sample_state)) in
  (aggregateCount <$> contexts st) = [1]
  ∧ contextTrees st = []
  ∧ ¬ counted st.
Proof.
  split_and!; [vm_compute; reflexivity|vm_compute; reflexivity|].
  intros Hcounted.
  specialize (Hcounted (mkContext "constructor" "Order" "" 1 0 []) ltac:(by left)).
  vm_compute in Hcounted. discriminate.
Qed.

End NavigatorTrees.

(** ** The navigator store: commands *)

Module NavigatorCommands.
Import Navigator JsTheorems NavigatorIngestion NavigatorTrees.

Section Find.
Context {A : Type} (id_of : A → string).

Lemma find_id_nil id : find_id id_of id (Some []) = None.
Proof. done. Qed.

Lemma find_id_cons id a l :
  find_id id_of id (Some (a :: l))
  = if bool_decide (id_of a = id) then Some a else find_id id_of id (Some l).
Proof.
  unfold find_id. simpl. case_decide as Ha.
  - by rewrite bool_decide_true.
  - rewrite bool_decide_false by done. by destruct (list_find _ l) as [[??]|].
Qed.



Lemma find_id_None id l : find_id id_of id l = None ↔ id ∉ id_of <$> default [] l.
Proof.
  destruct l as [l|]; [|simpl; split; [intros _; apply not_elem_of_nil|done]].
  induction l as [|b l IH]; [simpl; split; [intros _; apply not_elem_of_nil|done]|].
  rewrite find_id_cons. simpl. rewrite not_elem_of_cons.
  case_bool_decide as Hb; [split; [done|intros [? _]; congruence]|].
  rewrite IH. simpl. split; [intros ?; split; [congruence|done]|by intros [_ ?]].
Qed.



End Find.









End NavigatorCommands.

(** ** The navigator store: events *)



Module NavigatorEvents.
Import Navigator JsTheorems NavigatorIngestion NavigatorTrees NavigatorCommands.












End NavigatorEvents.

(** ** The navigator store: expanding *)



Module NavigatorExpansion.
Import Navigator JsTheorems NavigatorIngestion NavigatorTrees NavigatorCommands.

Lemma with_expanded_twice a b st :
  with_expanded a (with_expanded b st) = with_expanded a st.
Proof. done. Qed.

Lemma expand_aggregates aggs st :
  foldl (λ st agg, expand (agg_id agg) st) st aggs
  = with_expanded (expandedNodes st ∪ list_to_set (agg_id <$> aggs)) st.
Proof.
  revert st. induction aggs as [|agg aggs IH]; intros st.
  - simpl. unfold with_expanded. rewrite (right_id_L ∅ (∪)). symmetry. apply state_eta.
  - cbn [foldl]. rewrite IH. unfold expand. rewrite with_expanded_twice.
    f_equal. cbn [expandedNodes with_expanded]. rewrite fmap_cons, list_to_set_cons.
    by rewrite (assoc_L (∪)).
Qed.

Lemma expandAll_loop trees cs st :
  contextTrees st = trees →
  foldl
    (λ st ctx,
       let st1 := expand (ctx_id ctx) st in
       match Js.get (ctx_id ctx) (contextTrees st) with
       | Some tree =>
           foldl (λ st agg, expand (agg_id agg) st) st1
             (default [] (tree_aggregates tree))
       | None => st1
       end) st cs
  = with_expanded
      (expandedNodes st
       ∪ list_to_set
           (cs ≫= λ ctx,
              ctx_id ctx
              :: (agg_id <$> default [] (Js.get (ctx_id ctx) trees ≫= tree_aggregates))))
      st.
Proof.
  revert st. induction cs as [|ctx cs IH]; intros st Htrees.
  - simpl. unfold with_expanded. rewrite (right_id_L ∅ (∪)). symmetry. apply state_eta.
  - cbn [foldl]. cbn zeta. rewrite Htrees.
    assert (match Js.get (ctx_id ctx) trees with
            | Some tree =>
                foldl (λ st agg, expand (agg_id agg) st) (expand (ctx_id ctx) st)
                  (default [] (tree_aggregates tree))
            | None => expand (ctx_id ctx) st
            end
            = with_expanded
                (expandedNodes st
                 ∪ list_to_set
                     (ctx_id ctx
                      :: (agg_id <$> default []
                                       (Js.get (ctx_id ctx) trees ≫= tree_aggregates)))) st)
      as ->.
    { destruct (Js.get (ctx_id ctx) trees) as [tree|]; simpl.
      - rewrite expand_aggregates. unfold expand. rewrite with_expanded_twice.
        f_equal. cbn [expandedNodes with_expanded].
        by rewrite (assoc_L (∪)).
      - unfold expand. f_equal. by rewrite (right_id_L ∅ (∪)). }
    rewrite IH by done. rewrite with_expanded_twice. f_equal.
    cbn [expandedNodes with_expanded].
    change (((ctx :: cs) ≫= ?f)) with (f ctx ++ (cs ≫= f)).
    rewrite list_to_set_app_L. by rewrite (assoc_L (∪)).
Qed.

Lemma expandAll_eq st :
  expandAll st = with_expanded (expandedNodes st ∪ list_to_set (expandable st)) st.
Proof. unfold expandAll. by rewrite (expandAll_loop (contextTrees st)). Qed.

Lemma elem_of_expandable x st :
  x ∈ expandable st ↔
  x ∈ ctx_id <$> contexts st
  ∨ ∃ ctx, ctx ∈ contexts st ∧ x ∈ agg_id <$> aggregates_of (ctx_id ctx) st.
Proof.
  unfold expandable. rewrite list_elem_of_bind. split.
  - intros (ctx & Hx & Hctx). apply elem_of_cons in Hx as [->|Hx].
    + left. apply list_elem_of_fmap. by exists ctx.
    + right. by exists ctx.
  - intros [Hx|(ctx & Hctx & Hx)].
    + apply list_elem_of_fmap in Hx as (ctx & -> & Hctx). exists ctx. split; [by left|done].
    + exists ctx. split; [by right|done].
Qed.


End NavigatorExpansion.

(** ** The navigator store: highlights *)

Module NavigatorHighlights.
Import Navigator JsTheorems NavigatorIngestion NavigatorTrees NavigatorCommands.
Import NavigatorExpansion.

Lemma marks_pending st st' : marks st st' → pending st → pending st'.
Proof.
  intros [[Hn Ht]|(x & Hn & Ht)] Hp y; rewrite Hn, Ht.
  - apply Hp.
  - rewrite elem_of_union, elem_of_singleton, elem_of_app, list_elem_of_singleton.
    intros [Hy| ->]; [left; by apply Hp|by right].
Qed.

Lemma reload_trees_frame server cs st :
  (reload_trees server cs st).1
  = with_trees (contextTrees (reload_trees server cs st).1) st.
Proof.
  revert st. induction cs as [|ctx cs IH]; intros st.
  - simpl. symmetry. apply with_trees_same.
  - cbn [reload_trees]. unfold fetchContextTree. cbn [fst snd].
    destruct (full_tree server (ctx_id ctx)) as [m|s|tree].
    + specialize (IH st). by destruct (reload_trees server cs st).
    + specialize (IH st). by destruct (reload_trees server cs st).
    + specialize (IH (with_trees (store (ctx_id ctx) tree (contextTrees st)) st)).
      destruct (reload_trees server cs _) as [st2 e2]. cbn [fst] in *.
      rewrite IH. done.
Qed.

Lemma step_marks st st' :
  step st st' → marks st st' ∨ st' = clearAll st ∨ st' = fire st.
Proof.
  intros Hstep. destruct Hstep.
  - left. unfold addUserStory. destruct (negb _); [right; by eexists|by left].
  - left. unfold addContext. destruct (negb _); [right; by eexists|by left].
  - left. right. by eexists.
  - left.
    destruct (inherited_dec (nd_parentId aggregateData) (contextTrees st)) as [Hr|Hr].
    + rewrite addAggregate_inherited by done. right. by eexists.
    + rewrite addAggregate_cases by done. cbn zeta.
      destruct (some_id _ _ _); [by left|right; by eexists].
  - left. unfold addCommand. destruct (addCommand_trees _ _);
      [by left|by left|right; by eexists].
  - left. unfold addEvent. destruct (addEvent_trees _ _) as [| |[trees [|]]];
      [by left|by left|right; by eexists|right; by eexists].
  - left.
    destruct (inherited_dec (nd_parentId policyData) (contextTrees st)) as [Hr|Hr].
    + rewrite addPolicy_inherited by done. right. by eexists.
    + rewrite addPolicy_cases by done. cbn zeta.
      destruct (some_id _ _ _); [by left|right; by eexists].
  - left. right. by eexists.
  - left. by left.
  - left. left. by rewrite expandAll_eq.
  - left. by left.
  - by right; left.
  - left. left. unfold fetchUserStories. by destruct (unassigned_stories server).
  - left. left. unfold fetchContexts. by destruct (all_contexts server).
  - left. left. unfold fetchContextTree.
    destruct (if forceRefresh then Absent else _); [done|done|].
    by destruct (full_tree server contextId).
  - left. left. unfold refreshAll.
    assert (newlyAddedIds (fetchUserStories server (with_error None (with_loading true st))).1
            = newlyAddedIds st
            ∧ timers (fetchUserStories server (with_error None (with_loading true st))).1
              = timers st) as [Hn Ht].
    { unfold fetchUserStories. by destruct (unassigned_stories server). }
    destruct (fetchUserStories server _) as [st2 e2]. cbn [fst] in *.
    destruct (all_contexts server) as [m|s|cs]; [done|done|].
    pose proof (reload_trees_frame server cs
                  (with_assignments ∅ (with_trees [] (with_contexts cs st2)))) as Hframe.
    destruct (reload_trees server cs _) as [st4 e4]. cbn [fst] in *.
    rewrite Hframe, expandAll_eq. done.
  - by right; right.
Qed.

Lemma fire_pending st : pending st → pending (fire st).
Proof.
  intros Hp. unfold fire. destruct (timers st) as [|x rest] eqn:Ht; [done|].
  intros y. cbn [newlyAddedIds timers]. rewrite elem_of_difference, elem_of_singleton.
  intros [Hy Hne]. specialize (Hp y Hy). rewrite Ht in Hp.
  apply elem_of_cons in Hp as [?|?]; [done|done].
Qed.

Lemma step_pending st st' : step st st' → pending st → pending st'.
Proof.
  intros Hstep Hp. destruct (step_marks _ _ Hstep) as [Hm|[-> | ->]].
  - by eapply marks_pending.
  - intros y Hy. by apply elem_of_empty in Hy.
  - by apply fire_pending.
Qed.

Lemma fire_iter n st :
  newlyAddedIds (Nat.iter n fire st)
  = newlyAddedIds st ∖ list_to_set (take n (timers st))
  ∧ timers (Nat.iter n fire st) = drop n (timers st).
Proof.
  induction n as [|n [IHn IHt]].
  - simpl. split; [|by rewrite drop_0]. by rewrite difference_empty_L.
  - change (Nat.iter (S n) fire st) with (fire (Nat.iter n fire st)).
    set (s := Nat.iter n fire st) in *. unfold fire. rewrite IHt.
    destruct (drop n (timers st)) as [|x rest] eqn:Hdrop.
    + assert (length (timers st) ≤ n) as Hlen.
      { destruct (decide (length (timers st) ≤ n)) as [?|Hgt]; [done|].
        apply (f_equal length) in Hdrop. rewrite length_drop in Hdrop. simpl in Hdrop. lia. }
      rewrite IHn, IHt. rewrite !take_ge by lia. by rewrite drop_ge by lia.
    + cbn [newlyAddedIds timers]. rewrite IHn.
      assert (timers st !! n = Some x) as Hx.
      { rewrite <- (Nat.add_0_r n), <- lookup_drop, Hdrop. done. }
      rewrite (take_S_r _ _ _ Hx), list_to_set_app_L. simpl.
      rewrite (right_id_L ∅ (∪)). split.
      * apply set_eq. intros y.
        rewrite !elem_of_difference, elem_of_union, elem_of_singleton. tauto.
      * rewrite (drop_S _ x n Hx) in Hdrop. by injection Hdrop as <-.
Qed.


Lemma fire_all_clears st :
  pending st → newlyAddedIds (fire_all st) = ∅ ∧ timers (fire_all st) = [].
Proof.
  intros Hp. unfold fire_all.
  destruct (fire_iter (length (timers st)) st) as [-> ->].
  rewrite take_ge, drop_ge by lia. split; [|done].
  apply set_eq. intros y. rewrite elem_of_difference, elem_of_list_to_set.
  split; [intros [Hy Hn]; destruct Hn; by apply Hp|intros Hy; by apply elem_of_empty in Hy].
Qed.

(** No highlight stays for ever: whatever is done to the store, by its
    functions or by a timer that fires, every highlighted node has a
    timer pending, so that once all timers have fired no node is
    highlighted. *)
Theorem highlights_expire (st st' : State) :
  rtc step st st' → pending st →
  pending st'
  ∧ newlyAddedIds (fire_all st') = ∅
  ∧ timers (fire_all st') = [].
Proof.
  intros Hsteps Hp.
  assert (pending st') as Hp'.
  { induction Hsteps as [|s1 s2 s3 Hstep _ IH]; [done|].
    apply IH. by eapply step_pending. }
  split; [done|]. by apply fire_all_clears.
Qed.

Lemma highlights_expire_witness :
  newlyAddedIds
    (fire_all
       (addAggregate (mkNodeData "AGG_ORDER" "Order" "BC_ORDER")
          (addContext (mkContextData "BC_STOCK" "Stock" "" None) sample_state)))
  = ∅.
Proof.
  apply (highlights_expire sample_state).
  - eapply rtc_l; [apply (step_addContext (mkContextData "BC_STOCK" "Stock" "" None))|].
    eapply rtc_l; [apply (step_addAggregate (mkNodeData "AGG_ORDER" "Order" "BC_ORDER"))|].
    apply rtc_refl.
  - intros x Hx. by apply elem_of_empty in Hx.
Defined.

(** A node that is marked again while it is highlighted loses the
    highlight as soon as the timer of the first mark fires, while the
    timer of the second mark is still pending: marking again does not
    prolong a highlight. *)
Theorem second_mark_does_not_prolong (x : string) (st : State) :
  let st' := Nat.iter (S (length (timers st))) fire (markAsNew x (markAsNew x st)) in
  isNewlyAdded x st' = false ∧ timers st' = [x].
Proof.
  cbn zeta.
  destruct (fire_iter (S (length (timers st))) (markAsNew x (markAsNew x st)))
    as [Hn Ht].
  unfold isNewlyAdded. rewrite Hn, Ht. cbn [timers newlyAddedIds markAsNew].
  rewrite <- !app_assoc. simpl.
  rewrite <- Nat.add_1_r.
  rewrite take_app_add, drop_app_add. simpl.
  split; [|done]. apply bool_decide_eq_false.
  rewrite elem_of_difference, elem_of_list_to_set, elem_of_app, elem_of_cons. tauto.
Qed.

End NavigatorHighlights.

(** ** The navigator store: refreshing *)



Module NavigatorRefresh.
Import Navigator JsTheorems NavigatorIngestion NavigatorTrees NavigatorCommands.
Import NavigatorExpansion NavigatorHighlights.



Lemma reload_trees_get server cs st id :
  "__proto__" ∉ ctx_id <$> cs →
  Js.get id (contextTrees (reload_trees server cs st).1)
  = if bool_decide (id ∈ ctx_id <$> cs)
    then match answered server id with
         | Some tree => Some tree
         | None => Js.get id (contextTrees st)
         end
    else Js.get id (contextTrees st).
Proof.
  intros Hproto. revert st. induction cs as [|ctx cs IH]; intros st; [done|].
  rewrite fmap_cons in Hproto. apply not_elem_of_cons in Hproto as [Hctx Hproto].
  specialize (IH Hproto).
  cbn [reload_trees]. unfold fetchContextTree.
  assert (∀ st1 e1,
    Js.get id (contextTrees st1)
    = (if bool_decide (id = ctx_id ctx)
       then match answered server id with
            | Some tree => Some tree
            | None => Js.get id (contextTrees st)
            end
       else Js.get id (contextTrees st)) →
    Js.get id (contextTrees
                 (let '(st2, e2) := reload_trees server cs st1 in
                  (st2, Log Logger.debug "navigator_refresh_tree_fetch_attempt"
                        :: e1 ++ e2)).1)
    = if bool_decide (id ∈ ctx_id <$> ctx :: cs)
      then match answered server id with
           | Some tree => Some tree
           | None => Js.get id (contextTrees st)
           end
      else Js.get id (contextTrees st)) as Hstep.
  { intros st1 e1 Hst1. specialize (IH st1).
    destruct (reload_trees server cs st1) as [st2 e2]. cbn [fst] in *.
    rewrite IH, Hst1, fmap_cons.
    destruct (decide (id = ctx_id ctx)) as [->|Hne].
    - rewrite (bool_decide_true (ctx_id ctx = ctx_id ctx)) by done.
      rewrite (bool_decide_true (_ ∈ _ :: _)) by left.
      clear IH Hst1. destruct (answered server (ctx_id ctx));
        by destruct (bool_decide (ctx_id ctx ∈ ctx_id <$> cs)).
    - rewrite (bool_decide_false (id = ctx_id ctx)) by done.
      assert (bool_decide (id ∈ ctx_id ctx :: (ctx_id <$> cs))
              = bool_decide (id ∈ ctx_id <$> cs)) as ->; [|done].
      apply bool_decide_ext. rewrite elem_of_cons. tauto. }
  unfold answered in *.
  destruct (full_tree server (ctx_id ctx)) as [m|s|tree] eqn:Hfull.
  - apply (Hstep st). case_bool_decide as Hid; [subst; by rewrite Hfull|done].
  - apply (Hstep st). case_bool_decide as Hid; [subst; by rewrite Hfull|done].
  - apply Hstep. cbn [contextTrees with_trees]. rewrite store_set by (by left).
    case_bool_decide as Hid.
    + subst. by rewrite Hfull, get_set_eq.
    + by rewrite get_set_ne.
Qed.


Lemma requests_log level event es : requests (Log level event :: es) = requests es.
Proof. done. Qed.

Lemma requests_request url es : requests (Request url :: es) = url :: requests es.
Proof. done. Qed.

Lemma requests_app a b : requests (a ++ b) = requests a ++ requests b.
Proof. apply omap_app. Qed.

Lemma reload_trees_requests server cs st :
  requests (reload_trees server cs st).2 = (λ ctx, full_tree_url (ctx_id ctx)) <$> cs.
Proof.
  revert st. induction cs as [|ctx cs IH]; intros st; [done|].
  cbn [reload_trees]. unfold fetchContextTree.
  destruct (full_tree server (ctx_id ctx)) as [m|s|tree].
  - specialize (IH st). destruct (reload_trees server cs st) as [st2 e2].
    cbn [fst snd app] in *.
    repeat (rewrite requests_log || rewrite requests_request). by rewrite IH.
  - specialize (IH st). destruct (reload_trees server cs st) as [st2 e2].
    cbn [fst snd app] in *.
    repeat (rewrite requests_log || rewrite requests_request). by rewrite IH.
  - specialize (IH (with_trees (store (ctx_id ctx) tree (contextTrees st)) st)).
    destruct (reload_trees server cs _) as [st2 e2].
    cbn [fst snd app] in *.
    repeat (rewrite requests_log || rewrite requests_request). by rewrite IH.
Qed.

Lemma fetchUserStories_frame server st :
  (fetchUserStories server st).1
  = with_userStories
      (match unassigned_stories server with
       | Answer stories => stories
       | Failed _ | Refused _ => userStories st
       end) st
  ∧ requests (fetchUserStories server st).2 = ["/api/user-stories/unassigned"].
Proof.
  unfold fetchUserStories. destruct (unassigned_stories server); split; try done.
  - symmetry. apply state_eta.
  - symmetry. apply state_eta.
Qed.

(** [refreshAll] always ends with [loading] off, and the unassigned
    stories are those the server sent, or the old ones if that request
    failed, which does not fail the refresh. When the contexts arrive
    and none of them is called ["__proto__"], whose tree would not be
    stored, [error] is cleared, the assignments are forgotten, the
    trees are exactly those the server sent for the contexts listed (a
    tree that could not be fetched is missing, without an error), every
    context is expanded, and one request was sent per context. When
    they do not arrive, [error] is set and contexts, trees, assignments
    and expansion stay as they were. *)
Theorem refreshAll_reloads_contexts_and_trees (server : Server) (st : State) :
  loading (refreshAll server st).1 = false
  ∧ userStories (refreshAll server st).1
    = match unassigned_stories server with
      | Answer stories => stories
      | Failed _ | Refused _ => userStories st
      end
  ∧ (∀ cs, all_contexts server = Answer cs → "__proto__" ∉ ctx_id <$> cs →
       error (refreshAll server st).1 = None
       ∧ contexts (refreshAll server st).1 = cs
       ∧ userStoryAssignments (refreshAll server st).1 = ∅
       ∧ (∀ id, Js.get id (contextTrees (refreshAll server st).1)
                = if bool_decide (id ∈ ctx_id <$> cs) then answered server id else None)
       ∧ (∀ c, c ∈ cs → isExpanded (ctx_id c) (refreshAll server st).1 = true)
       ∧ requests (refreshAll server st).2
         = ["/api/user-stories/unassigned"; "/api/contexts"]
           ++ ((λ ctx, full_tree_url (ctx_id ctx)) <$> cs))
  ∧ ((∀ cs, all_contexts server ≠ Answer cs) →
       is_Some (error (refreshAll server st).1)
       ∧ contexts (refreshAll server st).1 = contexts st
       ∧ contextTrees (refreshAll server st).1 = contextTrees st
       ∧ userStoryAssignments (refreshAll server st).1 = userStoryAssignments st
       ∧ expandedNodes (refreshAll server st).1 = expandedNodes st
       ∧ requests (refreshAll server st).2
         = ["/api/user-stories/unassigned"; "/api/contexts"]).
Proof.
  unfold refreshAll.
  destruct (fetchUserStories_frame server (with_error None (with_loading true st)))
    as [Hst2 He2].
  destruct (fetchUserStories server _) as [st2 e2]. cbn [fst snd] in Hst2, He2.
  subst st2.
  destruct (all_contexts server) as [message|status|cs] eqn:Hctx.
  - split_and!; try done.
    intros _. split_and!; try done. cbn zeta. cbn [fst snd].
    rewrite !requests_app, He2. by case_bool_decide.
  - split_and!; try done.
    intros _. split_and!; try done. cbn zeta. cbn [fst snd].
    rewrite !requests_app, He2. by case_bool_decide.
  - set (st3 := with_assignments ∅ (with_trees [] (with_contexts cs _))).
    pose proof (reload_trees_frame server cs st3) as Hframe.
    pose proof (reload_trees_get server cs st3) as Hget.
    pose proof (reload_trees_requests server cs st3) as Hreqs.
    destruct (reload_trees server cs st3) as [st4 e4]. cbn [fst snd] in *.
    rewrite expandAll_eq. cbn [loading userStories error contexts
      userStoryAssignments contextTrees expandedNodes with_loading with_expanded].
    rewrite Hframe. cbn [loading userStories error contexts
      userStoryAssignments contextTrees expandedNodes with_trees].
    split_and!; try done.
    + intros cs' [= <-] Hproto. split_and!; try done.
      * intros id. rewrite Hget by done. simpl. case_bool_decide; [|done].
        by destruct (answered server id).
      * intros c Hc. unfold isExpanded. cbn [expandedNodes with_loading with_expanded].
        apply bool_decide_eq_true, elem_of_union. right.
        apply elem_of_list_to_set, elem_of_expandable. left.
        cbn [contexts with_trees]. apply list_elem_of_fmap. by exists c.
      * cbn zeta. cbn [fst snd]. rewrite !requests_app, He2, Hreqs. simpl.
        by rewrite app_nil_r.
    + intros Hno. by destruct (Hno cs).
Qed.

End NavigatorRefresh.

(** ** The application shell: what it reports *)

Module AppTheorems.
Import Navigator App NavigatorIngestion NavigatorExpansion NavigatorHighlights NavigatorRefresh.

Lemma refreshAll_error server st :
  Navigator.error (refreshAll server st).1
  = match all_contexts server with
    | Answer _ => None
    | Failed message => Some message
    | Refused status => Some ("Failed to fetch contexts (http " +:+ status +:+ ")")
    end.
Proof.
  unfold refreshAll.
  destruct (fetchUserStories_frame server (with_error None (with_loading true st)))
    as [Hst2 _].
  destruct (fetchUserStories server _) as [st2 e2]. cbn [fst] in Hst2. subst st2.
  destruct (all_contexts server) as [message|status|cs]; [done|done|].
  set (st3 := with_assignments ∅ (with_trees [] (with_contexts cs _))).
  pose proof (reload_trees_frame server cs st3) as Hframe.
  destruct (reload_trees server cs st3) as [st4 e4]. cbn [fst snd] in *.
  rewrite expandAll_eq, Hframe. done.
Qed.

(** The line the handler ends with tells how the refresh ended: a
    warning when the contexts could not be fetched, the success line
    when they could. The exception is a request that failed with an
    error whose message is empty: the store keeps the empty message as
    its error, the handler takes it for none, and the success line is
    written although contexts and trees are those from before. *)
Theorem handleUserStorySaved_reports_how_the_refresh_ended
    (server : Server) (st : State) :
  last (handleUserStorySaved server st).2
  = Some (match all_contexts server with
          | Answer _ => Log Logger.info "navigator_refresh_completed"
          | Failed message =>
              if bool_decide (message = "")
              then Log Logger.info "navigator_refresh_completed"
              else Log Logger.warn "navigator_refresh_completed_with_error"
          | Refused _ => Log Logger.warn "navigator_refresh_completed_with_error"
          end)
  ∧ (all_contexts server = Failed "" →
       last (handleUserStorySaved server st).2
       = Some (Log Logger.info "navigator_refresh_completed")
       ∧ contexts (handleUserStorySaved server st).1 = contexts st
       ∧ contextTrees (handleUserStorySaved server st).1 = contextTrees st).
Proof.
  assert (last (handleUserStorySaved server st).2
          = Some (match all_contexts server with
                  | Answer _ => Log Logger.info "navigator_refresh_completed"
                  | Failed message =>
                      if bool_decide (message = "")
                      then Log Logger.info "navigator_refresh_completed"
                      else Log Logger.warn "navigator_refresh_completed_with_error"
                  | Refused _ => Log Logger.warn "navigator_refresh_completed_with_error"
                  end)) as Hlast.
  { unfold handleUserStorySaved, navigatorError.
    pose proof (refreshAll_error server st) as Herr.
    destruct (refreshAll server st) as [st1 e1]. cbn [fst snd] in *.
    rewrite app_assoc, last_snoc, Herr.
    destruct (all_contexts server) as [message|status|cs]; [|done..].
    by destruct (bool_decide (message = "")). }
  split; [exact Hlast|].
  intros Hsilent. rewrite Hlast, Hsilent. split; [done|].
  assert ((handleUserStorySaved server st).1 = (refreshAll server st).1) as ->.
  { unfold handleUserStorySaved. by destruct (refreshAll server st). }
  unfold refreshAll. rewrite Hsilent.
  destruct (fetchUserStories_frame server (with_error None (with_loading true st)))
    as [Hst2 _].
  destruct (fetchUserStories server _) as [st2 e2]. cbn [fst] in Hst2. by subst st2.
Qed.

End AppTheorems.

(** ** The test data script: running it again *)

Module ScriptTheorems.
Import Store Script UpsertTheorems DirtyTheorems.

Lemma upsert_store_nodes k id attrs s :
  store_nodes (upsert k (mkPayload id attrs) s) = upsert_nodes k id attrs (store_nodes s).
Proof.
  unfold upsert, set_props, merge_node, upsert_nodes. simpl.
  by destruct (store_nodes s !! (k, id)).
Qed.

Lemma upsert_nodes_lookup k id attrs m key :
  upsert_nodes k id attrs m !! key
  = if bool_decide (key = (k, id))
    then Some (set_all attrs (default {[ "id" := VStr id ]} (m !! key)))
    else m !! key.
Proof.
  unfold upsert_nodes. case_bool_decide as Hkey.
  - subst key. rewrite lookup_alter_eq.
    destruct (m !! (k, id)) eqn:Hm; simpl; [by rewrite Hm|].
    by rewrite lookup_insert_eq.
  - rewrite lookup_alter_ne by done.
    destruct (m !! (k, id)); [done|]. by rewrite lookup_insert_ne.
Qed.

(** What a node is after the merges of a script: the one that names
    it, if any, has assigned its properties. *)
Lemma nodes_after_lookup ms m key :
  NoDup ((λ x, (x.1.1, x.1.2)) <$> ms) →
  nodes_after ms m !! key
  = match list_find (λ x, (x.1.1, x.1.2) = key) ms with
    | Some (_, x) => Some (set_all x.2 (default {[ "id" := VStr x.1.2 ]} (m !! key)))
    | None => m !! key
    end.
Proof.
  unfold nodes_after. revert m.
  induction ms as [|[[k id] attrs] ms IH]; intros m Hnd; [done|].
  rewrite fmap_cons in Hnd. apply NoDup_cons in Hnd as [Hfresh Hnd].
  cbn [foldl fst snd list_find]. rewrite IH by done.
  case_decide as Hkey; cbn [fst snd] in *.
  - subst key.
    assert (list_find (λ x, (x.1.1, x.1.2) = (k, id)) ms = None) as ->.
    { apply list_find_None, Forall_forall. intros x Hx Heq. apply Hfresh.
      apply list_elem_of_fmap. by exists x. }
    simpl. rewrite upsert_nodes_lookup. by rewrite bool_decide_true.
  - rewrite upsert_nodes_lookup. rewrite bool_decide_false by done.
    by destruct (list_find _ ms) as [[? ?]|].
Qed.

Lemma exec_changes now s d :
  store_changes (graph (exec now s d)) = store_changes (graph d).
Proof.
  destruct s as [k id attrs|ka a r kb b|ka a r kb b c t|]; cbn [exec graph].
  - apply upsert_changes.
  - unfold merge_rel. by repeat case_match.
  - destruct (store_nodes (graph d) !! (ka, a)) eqn:Ha; [|done].
    destruct (store_nodes (graph d) !! (kb, b)) eqn:Hb; [|done].
    cbn [graph]. unfold merge_rel. rewrite Ha, Hb. by case_bool_decide.
  - done.
Qed.

Lemma merge_rel_nodes ka a r kb b s :
  store_nodes (merge_rel ka a r kb b s) = store_nodes s.
Proof. unfold merge_rel. by repeat case_match. Qed.

Lemma exec_nodes now s d :
  s ≠ RemoveDirty →
  store_nodes (graph (exec now s d))
  = match s with
    | MergeNode k id attrs => upsert_nodes k id attrs (store_nodes (graph d))
    | _ => store_nodes (graph d)
    end.
Proof.
  intros Hs. destruct s as [k id attrs|ka a r kb b|ka a r kb b c t|]; cbn [exec graph].
  - apply upsert_store_nodes.
  - apply merge_rel_nodes.
  - destruct (store_nodes (graph d) !! (ka, a)); [|done].
    destruct (store_nodes (graph d) !! (kb, b)); [|done].
    apply merge_rel_nodes.
  - done.
Qed.


Lemma run_from_nodes i clock script d :
  keeps script →
  store_nodes (graph (run_from i clock script d))
  = nodes_after (merged script) (store_nodes (graph d))
  ∧ store_changes (graph (run_from i clock script d)) = store_changes (graph d).
Proof.
  intros Hk. revert i d. induction Hk as [|s script Hs _ IH]; intros i d; [done|].
  cbn [run_from]. destruct (IH (S i) (exec (clock i) s d)) as [-> ->].
  rewrite exec_changes, exec_nodes by done. split; [|done].
  unfold merged. by destruct s.
Qed.


Lemma exec_keeps_nodes now s d key :
  s ≠ RemoveDirty →
  is_Some (store_nodes (graph d) !! key) →
  is_Some (store_nodes (graph (exec now s d)) !! key).
Proof.
  intros Hs Hkey. rewrite exec_nodes by done. destruct s; try done.
  rewrite upsert_nodes_lookup. by case_bool_decide.
Qed.

Lemma exec_rels now s d :
  Forall (λ key, is_Some (store_nodes (graph d) !! key)) (endpoints_of s) →
  store_rels (graph (exec now s d))
  = match edge_of s with
    | Some e => add_edge (store_rels (graph d)) e
    | None => store_rels (graph d)
    end
  ∧ rel_props (exec now s d) = props_after 0 (λ _, now) [s] (rel_props d).
Proof.
  intros Hends. destruct s as [k id attrs|ka a r kb b|ka a r kb b c t|];
    cbn [exec graph rel_props edge_of props_after].
  - split; [|done]. apply upsert_rels.
  - split; [|done]. cbn [endpoints_of] in Hends.
    apply Forall_cons in Hends as [[x Ha] Hends].
    apply Forall_cons in Hends as [[y Hb] _].
    unfold merge_rel, add_edge. rewrite Ha, Hb. by case_bool_decide.
  - cbn [endpoints_of] in Hends.
    apply Forall_cons in Hends as [[x Ha] Hends].
    apply Forall_cons in Hends as [[y Hb] _].
    rewrite Ha, Hb. cbn [graph rel_props]. split; [|done].
    unfold merge_rel, add_edge. rewrite Ha, Hb. by case_bool_decide.
  - done.
Qed.

(** With both ends of every relationship merged before it, a script
    comes to its merges of nodes, its merges of relationships and its
    assignments to relationships, each on its own. *)
Lemma run_from_rels i clock script d known :
  keeps script →
  ends_merged known script = true →
  Forall (λ key, is_Some (store_nodes (graph d) !! key)) known →
  store_rels (graph (run_from i clock script d))
  = foldl add_edge (store_rels (graph d)) (omap edge_of script)
  ∧ rel_props (run_from i clock script d) = props_after i clock script (rel_props d).
Proof.
  intros Hk. revert i d known.
  induction Hk as [|s script Hs _ IH]; intros i d known Hends Hknown; [done|].
  cbn [ends_merged] in Hends. apply andb_true_iff in Hends as [Hs_ends Hrest].
  assert (Forall (λ key, is_Some (store_nodes (graph d) !! key)) (endpoints_of s))
    as Hex.
  { apply Forall_forall. intros key Hkey.
    rewrite forallb_forall in Hs_ends.
    specialize (Hs_ends key ltac:(by apply list_elem_of_In)).
    apply bool_decide_eq_true in Hs_ends.
    rewrite Forall_forall in Hknown. by apply Hknown. }
  destruct (exec_rels (clock i) s d Hex) as [Hrels Hprops].
  cbn [run_from].
  destruct (IH (S i) (exec (clock i) s d) _ Hrest) as [-> ->].
  - destruct s as [k id attrs| | |]; [apply Forall_cons; split|..];
      try (apply Forall_forall; intros key Hkey; apply exec_keeps_nodes; [done|];
           rewrite Forall_forall in Hknown; by apply Hknown).
    rewrite exec_nodes by done. rewrite upsert_nodes_lookup.
    by rewrite bool_decide_true.
  - rewrite Hrels, Hprops. split.
    + by destruct s.
    + by destruct s.
Qed.


Lemma add_edges_elem l es e : e ∈ foldl add_edge l es ↔ e ∈ l ∨ e ∈ es.
Proof.
  revert l. induction es as [|e' es IH]; intros l; simpl.
  - rewrite elem_of_nil. tauto.
  - rewrite IH, elem_of_cons. unfold add_edge. case_bool_decide as Hin.
    + split; [tauto|]. intros [?|[->|?]]; tauto.
    + rewrite elem_of_app, list_elem_of_singleton. tauto.
Qed.

Lemma add_edges_known l es : (∀ e, e ∈ es → e ∈ l) → foldl add_edge l es = l.
Proof.
  induction es as [|e' es IH]; intros Hin; simpl; [done|].
  unfold add_edge at 2. rewrite bool_decide_true by (apply Hin; by left).
  apply IH. intros e He. apply Hin. by right.
Qed.

Lemma add_edges_again l es :
  foldl add_edge (foldl add_edge l es) es = foldl add_edge l es.
Proof. apply add_edges_known. intros e He. apply add_edges_elem. by right. Qed.

Lemma trace_props_again confidence rationale t1 t2 props :
  trace_props confidence rationale t2 (trace_props confidence rationale t1 props)
  = trace_props confidence rationale t2 props.
Proof.
  unfold trace_props. apply map_eq. intros key.
  destruct (decide (key = "created_at")) as [->|H1]; [by rewrite !lookup_insert_eq|].
  rewrite !(lookup_insert_ne _ "created_at") by congruence.
  destruct (decide (key = "rationale")) as [->|H2]; [by rewrite !lookup_insert_eq|].
  rewrite !(lookup_insert_ne _ "rationale") by congruence.
  destruct (decide (key = "confidence")) as [->|H3]; [by rewrite !lookup_insert_eq|].
  rewrite !(lookup_insert_ne _ "confidence") by congruence.
  rewrite !lookup_insert_ne by congruence. done.
Qed.

Lemma trace_of_None i script e : e ∉ traced script → trace_of i script e = None.
Proof.
  revert i. induction script as [|s script IH]; intros i Hn; [done|].
  unfold traced in *. destruct s as [| |ka a r kb b c t|]; cbn [trace_of omap list_omap] in *;
    try by apply IH.
  apply not_elem_of_cons in Hn as [Hne Hn].
  rewrite bool_decide_false by congruence. by apply IH.
Qed.

(** What a relationship carries after a script: the statement that
    names it, if any, has assigned its properties at its time. *)
Lemma props_after_lookup i clock script p e :
  NoDup (traced script) →
  props_after i clock script p !! e
  = match trace_of i script e with
    | Some (j, confidence, rationale) =>
        Some (trace_props confidence rationale (clock j) (default ∅ (p !! e)))
    | None => p !! e
    end.
Proof.
  revert i p. induction script as [|s script IH]; intros i p Hnd; [done|].
  unfold traced in Hnd.
  destruct s as [| |ka a r kb b c t|]; cbn [trace_of props_after omap list_omap] in *;
    try by apply IH.
  apply NoDup_cons in Hnd as [Hfresh Hnd]. rewrite IH by done.
  case_bool_decide as He.
  - subst e. rewrite trace_of_None by done. by rewrite lookup_insert_eq.
  - rewrite lookup_insert_ne by done. done.
Qed.

Lemma props_after_again i c1 c2 script p :
  NoDup (traced script) →
  props_after i c2 script (props_after i c1 script p) = props_after i c2 script p.
Proof.
  intros Hnd. apply map_eq. intros e. rewrite !props_after_lookup by done.
  destruct (trace_of i script e) as [[[j c] t]|]; [|done].
  simpl. by rewrite trace_props_again.
Qed.

Lemma assigned_None attrs key :
  forallb (λ kv : string * Value, bool_decide (kv.1 ≠ key)) attrs = true →
  assigned attrs key = None.
Proof.
  induction attrs as [|[k v] attrs IH]; [done|]. cbn [forallb assigned fst].
  intros [Hk Hrest]%andb_true_iff. rewrite IH by done.
  apply bool_decide_eq_true in Hk. by rewrite bool_decide_false.
Qed.

Lemma remove_all_lookup keys props key :
  remove_all keys props !! key = if bool_decide (key ∈ keys) then None else props !! key.
Proof.
  unfold remove_all. revert props. induction keys as [|k keys IH]; intros props;
    cbn [foldl].
  - rewrite bool_decide_false by apply not_elem_of_nil. done.
  - rewrite IH. destruct (decide (key = k)) as [->|Hne].
    + rewrite (bool_decide_true (k ∈ k :: keys)) by left.
      case_bool_decide; [done|]. by rewrite lookup_delete_eq.
    + rewrite lookup_delete_ne by done.
      assert (bool_decide (key ∈ k :: keys) = bool_decide (key ∈ keys)) as ->; [|done].
      apply bool_decide_ext. rewrite elem_of_cons. tauto.
Qed.

(** Assigning properties that are no dirty flags and removing the
    dirty flags do not get in each other's way. *)
Lemma remove_dirty_set_all attrs props :
  (∀ key, key ∈ dirty_keys → assigned attrs key = None) →
  remove_dirty (set_all attrs (remove_dirty props)) = remove_dirty (set_all attrs props).
Proof.
  intros Hfree.
  assert (∀ q, set_all attrs q !! "dirty" = q !! "dirty") as Hdirty.
  { intros q. rewrite set_all_lookup, Hfree; [done|]. by left. }
  unfold remove_dirty at 2.
  case_bool_decide as Hd; [|done].
  unfold remove_dirty at 2. rewrite Hdirty, bool_decide_true by done.
  unfold remove_dirty. rewrite Hdirty.
  rewrite bool_decide_false.
  2:{ rewrite remove_all_lookup. rewrite bool_decide_true by left. done. }
  apply map_eq. intros key. rewrite set_all_lookup, !remove_all_lookup, set_all_lookup.
  case_bool_decide as Hkey; [|done]. by rewrite Hfree.
Qed.


Lemma assigned_free attrs key :
  forallb (λ kv : string * Value, bool_decide (kv.1 ∉ dirty_keys)) attrs = true →
  key ∈ dirty_keys → assigned attrs key = None.
Proof.
  intros Hfree Hkey. apply assigned_None.
  rewrite forallb_forall in *. intros kv Hkv. specialize (Hfree kv Hkv).
  apply bool_decide_eq_true in Hfree. apply bool_decide_eq_true. congruence.
Qed.

Lemma nodes_after_again ms m :
  NoDup ((λ x, (x.1.1, x.1.2)) <$> ms) →
  forallb (λ x : Kind * string * list (string * Value),
             forallb (λ kv, bool_decide (kv.1 ∉ dirty_keys)) x.2) ms = true →
  remove_dirty <$> nodes_after ms (remove_dirty <$> nodes_after ms m)
  = remove_dirty <$> nodes_after ms m.
Proof.
  intros Hnd Hfree. apply map_eq. intros key.
  rewrite !lookup_fmap, !nodes_after_lookup, !lookup_fmap, !nodes_after_lookup by done.
  destruct (list_find (λ x, (x.1.1, x.1.2) = key) ms) as [[j x]|] eqn:Hfind.
  - simpl. f_equal.
    apply list_find_Some in Hfind as (Hx & _ & _).
    apply list_elem_of_lookup_2 in Hx.
    rewrite forallb_forall in Hfree.
    specialize (Hfree x ltac:(by apply list_elem_of_In)).
    rewrite remove_dirty_set_all by (intros k Hk; by apply assigned_free).
    by rewrite set_all_idempotent.
  - destruct (m !! key); simpl; [|done]. by rewrite remove_dirty_idempotent.
Qed.

Lemma run_from_app i clock a b d :
  run_from i clock (a ++ b) d = run_from (i + length a) clock b (run_from i clock a d).
Proof.
  revert i d. induction a as [|s a IH]; intros i d; simpl.
  - by rewrite Nat.add_0_r.
  - rewrite IH. f_equal. lia.
Qed.

Lemma in_order_keeps script :
  forallb (λ s, match s with RemoveDirty => false | _ => true end) script = true →
  keeps script.
Proof.
  intros Hk. apply Forall_forall. intros s Hs ->.
  rewrite forallb_forall in Hk. by specialize (Hk RemoveDirty ltac:(by apply list_elem_of_In)).
Qed.

(** What a script in order followed by the clean-up comes to. *)
Lemma run_in_order clock body d :
  in_order body = true →
  run clock (body ++ [RemoveDirty]) d
  = {| graph :=
         {| store_nodes :=
              remove_dirty <$> nodes_after (merged body) (store_nodes (graph d));
            store_rels := foldl add_edge (store_rels (graph d)) (omap edge_of body);
            store_changes := store_changes (graph d) |};
       rel_props := props_after 0 clock body (rel_props d) |}.
Proof.
  intros Hok. unfold in_order in Hok.
  apply andb_true_iff in Hok as [Hok Hkeeps%in_order_keeps].
  apply andb_true_iff in Hok as [Hok _].
  apply andb_true_iff in Hok as [_ Hends].
  unfold run. rewrite run_from_app. cbn [run_from exec].
  destruct (run_from_nodes 0 clock body d Hkeeps) as [Hn Hc].
  destruct (run_from_rels 0 clock body d [] Hkeeps Hends ltac:(constructor)) as [Hr Hp].
  unfold clear_all, with_nodes. by rewrite Hn, Hc, Hr, Hp.
Qed.

Lemma run_in_order_again c1 c2 body d :
  in_order body = true →
  run c2 (body ++ [RemoveDirty]) (run c1 (body ++ [RemoveDirty]) d)
  = run c2 (body ++ [RemoveDirty]) d.
Proof.
  intros Hok. rewrite !run_in_order by done. cbn [graph rel_props store_nodes
    store_rels store_changes].
  unfold in_order in Hok.
  apply andb_true_iff in Hok as [Hok _].
  apply andb_true_iff in Hok as [Hok Htr%bool_decide_eq_true].
  apply andb_true_iff in Hok as [Hok _].
  apply andb_true_iff in Hok as [Hnd%bool_decide_eq_true Hfree].
  rewrite nodes_after_again, add_edges_again, props_after_again by done. done.
Qed.

Lemma test_data_body_in_order : in_order test_data_body = true.
Proof. vm_compute. reflexivity. Qed.

(** Run on the empty database, the script loads the relationships of
    [TestData.test_edges], in this order, and the nodes of
    [TestData.test_nodes]. *)
Lemma test_graph_is_what_the_script_loads (clock : nat → nat) :
  let d := run clock test_data_script {| graph := Store.empty; rel_props := ∅ |} in
  store_rels (graph d) = TestData.test_edges
  ∧ ∀ id k, (id, k) ∈ TestData.test_nodes ↔ is_Some (store_nodes (graph d) !! (k, id)).
Proof.
  cbn zeta. unfold test_data_script.
  rewrite run_in_order by apply test_data_body_in_order.
  cbn [graph store_rels store_nodes Store.empty]. split; [vm_compute; reflexivity|].
  intros id k. rewrite lookup_fmap, fmap_is_Some.
  rewrite nodes_after_lookup
    by (apply (bool_decide_unpack _); vm_compute; reflexivity).
  rewrite lookup_empty.
  assert ((id, k) ∈ TestData.test_nodes
          ↔ (k, id) ∈ (λ x : Kind * string * list (string * Value), (x.1.1, x.1.2))
                        <$> merged test_data_body) as ->.
  { change ((λ x : Kind * string * list (string * Value), (x.1.1, x.1.2))
              <$> merged test_data_body)
      with ((λ p : string * Kind, (p.2, p.1)) <$> TestData.test_nodes).
    rewrite list_elem_of_fmap. split.
    - intros Hin. by exists (id, k).
    - intros ([id' k'] & [= -> ->] & Hin). done. }
  destruct (list_find _ _) as [[j x]|] eqn:Hfind.
  - split; [by eexists|]. intros _.
    apply list_find_Some in Hfind as (Hx & Hk & _).
    apply list_elem_of_fmap. exists x. split; [done|]. by eapply list_elem_of_lookup_2.
  - split; [|by intros [? [=]]]. intros Hin. exfalso.
    apply list_elem_of_fmap in Hin as (x & Hk & Hx).
    rewrite list_find_None, Forall_forall in Hfind. by apply (Hfind x).
Qed.

(** The test data script is safe to run again, as its header says, up
    to the clock: on any database, a second run leaves the nodes, their
    properties, the relationships and the Change records as the first
    run left them, and the database as a whole is what the second run
    alone would have made of the first database. What the second run
    does change is [created_at] on the four trace relationships, which
    [ON MATCH SET] assigns anew. *)
Theorem test_data_script_is_safe_to_run_again
    (clock1 clock2 : nat → nat) (d : Database) :
  graph (run clock2 test_data_script (run clock1 test_data_script d))
  = graph (run clock1 test_data_script d)
  ∧ run clock2 test_data_script (run clock1 test_data_script d)
    = run clock2 test_data_script d
  ∧ Forall
      (λ '(e, i),
         rel_props (run clock2 test_data_script (run clock1 test_data_script d)) !! e
           ≫= (.!! "created_at")
         = Some (RTime (clock2 i)))
      [(mkEdge "US_001" IMPACTS_AGGREGATE "AGG_ORDER", 14);
       (mkEdge "AC_001" IMPACTS_FIELD "F_ORDER_AMOUNT", 15);
       (mkEdge "AC_001" COVERS_COMMAND "CMD_PLACE_ORDER", 25);
       (mkEdge "AC_001" COVERS_EVENT "EVT_ORDER_PLACED", 26)].
Proof.
  unfold test_data_script.
  rewrite (run_in_order_again clock1 clock2) by apply test_data_body_in_order.
  rewrite !run_in_order by apply test_data_body_in_order.
  split_and!; [done|done|].
  cbn [rel_props].
  repeat (apply Forall_cons; split); [..|done]; cbv beta iota;
    (rewrite props_after_lookup
       by (apply (bool_decide_unpack _); vm_compute; reflexivity));
    vm_compute trace_of; cbn [mbind option_bind]; unfold trace_props;
    by rewrite lookup_insert_eq.
Qed.

End ScriptTheorems.
